(** * Detailed placement (opendp): the phase pipeline of [place.cpp]

    A shallow embedding of [src/opendp/src/place.cpp]: the greedy placers,
    the pre-placement snap, the brick fallback, the displacement refiner and
    the annealer, written as programs of a state-and-abort monad over the
    cell store, the grid, the process-wide [rand] state and a log of the
    calls made to the grid service. *)

From Stdlib Require Import ZArith QArith List Bool Lia Permutation.
From stdpp Require Import base list sorting.

Close Scope Q_scope.
Local Open Scope nat_scope.

(** ** Data model *)

(** [adsRect]: an axis-aligned rectangle with [int] corners. *)
Record adsRect := {
  xMin : Z;
  yMin : Z;
  xMax : Z;
  yMax : Z
}.

Record Macro := { isMulti : bool }.

(** A [Cell*] is an index into [cells_]. *)
Abbreviation CellPtr := nat.

(** The fields of [Cell] that [place.cpp] reads or writes.  [Cell] is declared
    in [opendp/Opendp.h]; [area] stands for the result of [cell->area()], kept
    in an [int]; [db_inst_id] for [cell->db_inst->getId()]; [group] for the
    group pointer behind [cell->inGroup()].  [dense_factor] is compared with
    [<] and [>] only and is taken in [Z]. *)
Record Cell := {
  db_inst_id : Z;
  area : Z;
  dense_factor : Z;
  cell_macro : Macro;
  group : option nat;
  region : adsRect;
  is_placed : bool;
  hold : bool;
  x_ : Z;
  y_ : Z;
  init_x_ : Z;
  init_y_ : Z
}.

Definition inGroup (cell : Cell) : bool :=
  match group cell with Some _ => true | None => false end.

Definition set_hold (b : bool) (cell : Cell) : Cell :=
  {| db_inst_id := db_inst_id cell; area := area cell;
     dense_factor := dense_factor cell; cell_macro := cell_macro cell;
     group := group cell; region := region cell;
     is_placed := is_placed cell; hold := b;
     x_ := x_ cell; y_ := y_ cell;
     init_x_ := init_x_ cell; init_y_ := init_y_ cell |}.

Definition null_rect : adsRect := {| xMin := 0; yMin := 0; xMax := 0; yMax := 0 |}.

(** What a pointer outside [cells_] reads; well-formed inputs never do. *)
Definition null_cell : Cell :=
  {| db_inst_id := 0; area := 0; dense_factor := 0;
     cell_macro := {| isMulti := false |}; group := None; region := null_rect;
     is_placed := false; hold := false; x_ := 0; y_ := 0;
     init_x_ := 0; init_y_ := 0 |}.

Record Group := {
  siblings : list CellPtr;
  regions : list adsRect;
  boundary : adsRect;
  util : Q
}.

(** The members of [Opendp] that the placement pipeline only reads. *)
Record Design := {
  groups_ : list Group;
  group_refine_percent_ : Q;
  non_group_refine_percent_ : Q
}.

(** ** The comparator of the greedy placers *)

Definition sortUpOrder (cell1 cell2 : Cell) : bool :=
  let area1 := area cell1 in
  let area2 := area cell2 in
  if (area1 >? area2)%Z then true
  else if (area1 <? area2)%Z then false
  else if (dense_factor cell1 >? dense_factor cell2)%Z then true
  else if (dense_factor cell1 <? dense_factor cell2)%Z then false
  else (db_inst_id cell1 <? db_inst_id cell2)%Z.

(** ** [std::sort]

    [std::sort] is specified by its postcondition only.  [std_sort] is the
    insertion sort that libstdc++ runs on ranges of at most 16 elements
    ([__insertion_sort] with [__unguarded_linear_insert]): each element is
    moved to the front when it compares before the first one, and otherwise
    walks left from its place while it compares before its left neighbour.
    On longer ranges libstdc++ partitions first; the result is the same
    whenever the comparator is a strict total order on the elements. *)
Section Sort.
Context {A : Type} (comp : A -> A -> bool).

(** [rprefix] is the sorted prefix, last element first. *)
Fixpoint unguarded_linear_insert (val : A) (rprefix : list A) : list A :=
  match rprefix with
  | [] => [val]
  | next :: rest =>
      if comp val next then next :: unguarded_linear_insert val rest
      else val :: rprefix
  end.

Definition insertion_step (rprefix : list A) (val : A) : list A :=
  match rev rprefix with
  | [] => [val]
  | first :: _ =>
      if comp val first then rprefix ++ [val]
      else unguarded_linear_insert val rprefix
  end.

Definition std_sort (l : list A) : list A :=
  rev (fold_left insertion_step l []).

(** The later element never compares before an earlier one. *)
Definition not_before (later earlier : A) : Prop := comp later earlier = false.
End Sort.

(** ** [std::sort] under a comparator that is no order

    The comparators of the brick placers read locals that were never
    assigned, so two comparisons of the same two cells need not agree.
    [comp n] is the comparator at the [n]-th comparison the sort makes.  The
    insertion sort above relies on the order: [__unguarded_linear_insert]
    tests no bound, since an element that did not compare before the first
    one cannot walk past it.  Under a comparator that changes its answer it
    can: the sort then reads in front of the vector, and the model of it ends
    with [None].  (On longer ranges the partition loops of libstdc++ are
    unguarded in the same way.)  The pair is the prefix built so far, last
    element first, and the number of comparisons made. *)
Section NumberedSort.
Context {A : Type} (comp : nat -> A -> A -> bool).

Fixpoint unguarded_linear_insert_numbered (n : nat) (val : A) (rprefix : list A)
  : option (list A * nat) :=
  match rprefix with
  | [] => None
  | next :: rest =>
      if comp n val next then
        match unguarded_linear_insert_numbered (S n) val rest with
        | Some (shifted, n') => Some (next :: shifted, n')
        | None => None
        end
      else Some (val :: rprefix, S n)
  end.

Definition insertion_step_numbered (acc : option (list A * nat)) (val : A)
  : option (list A * nat) :=
  match acc with
  | None => None
  | Some (rprefix, n) =>
      match rev rprefix with
      | [] => Some ([val], n)
      | first :: _ =>
          if comp n val first then Some (rprefix ++ [val], S n)
          else unguarded_linear_insert_numbered (S n) val rprefix
      end
  end.

Definition std_sort_numbered (l : list A) : option (list A) :=
  match fold_left insertion_step_numbered l (Some ([], 0)) with
  | Some (rprefix, _) => Some (rev rprefix)
  | None => None
  end.
End NumberedSort.

(** ** The grid service and the C library *)

(** The calls [place.cpp] makes into the rest of [Opendp] that change cells or
    the grid. *)
Inductive Call :=
| MapMove (cell : CellPtr)                 (* map_move(cell) *)
| MapMoveAt (cell : CellPtr) (x y : Z)     (* map_move(cell, x, y) *)
| ShiftMove (cell : CellPtr)               (* shift_move(cell) *)
| ErasePixel (cell : CellPtr)              (* erase_pixel(cell) *)
| SwapCell (cellA cellB : CellPtr)         (* swap_cell(cellA, cellB) *)
| RefineMove (cell : CellPtr)              (* refine_move(cell) *)
| GroupCellRegionAssign                    (* group_cell_region_assign() *)
| NonGroupCellRegionAssign.                (* non_group_cell_region_assign() *)

Record World (Grid : Type) := {
  cells_ : list Cell;
  grid_ : Grid
}.
Arguments cells_ {Grid} _.
Arguments grid_ {Grid} _.

Definition cell_at {Grid} (w : World Grid) (p : CellPtr) : Cell :=
  default null_cell (cells_ w !! p).

(** Everything [place.cpp] uses and does not define: the grid service
    ([exec] runs one call on the cells and the grid and gives its [bool]
    result, [true] for the [void] ones), the geometric helpers, libc's
    [srand]/[rand], and what is found in a local that is read before it was
    ever assigned: [uninit_x_tar] and [uninit_y_tar] for the [x_tar], [y_tar]
    of a brick placer, [rectDist_uninit n] for the [x_tar], [y_tar] of the
    two-argument [rectDist] at its [n]-th call (each call has a frame of its
    own, and what the frames hold need not agree), and [uninit_target] for
    what the rectangle pointer of [group_cell_pre_placement] points at. *)
Record Extern (Grid Rng : Type) := {
  exec : Call -> World Grid -> bool * World Grid;
  isFixed : Cell -> bool;
  check_overlap : Cell -> adsRect -> bool;
  check_inside : Cell -> adsRect -> bool;
  dist_for_rect : Cell -> adsRect -> Z;
  nearest_coord_to_rect_boundary : Cell -> adsRect -> Z * Z;
  initLocation : Cell -> Z * Z;
  disp : Cell -> Z;
  srand : Z -> Rng;
  rand : Rng -> N * Rng;
  uninit_x_tar : Z;
  uninit_y_tar : Z;
  rectDist_uninit : nat -> Z * Z;
  uninit_target : adsRect
}.
Arguments exec {Grid Rng} _ _ _.
Arguments isFixed {Grid Rng} _ _.
Arguments check_overlap {Grid Rng} _ _ _.
Arguments check_inside {Grid Rng} _ _ _.
Arguments dist_for_rect {Grid Rng} _ _ _.
Arguments nearest_coord_to_rect_boundary {Grid Rng} _ _ _.
Arguments initLocation {Grid Rng} _ _.
Arguments disp {Grid Rng} _ _.
Arguments srand {Grid Rng} _ _.
Arguments rand {Grid Rng} _ _.
Arguments uninit_x_tar {Grid Rng} _.
Arguments uninit_y_tar {Grid Rng} _.
Arguments rectDist_uninit {Grid Rng} _ _.
Arguments uninit_target {Grid Rng} _.

(** ** Machine state and the monad *)

(** One entry of the call log: the call, the world it was made in, and what
    it returned. *)
Record Event (Grid : Type) := {
  ev_call : Call;
  ev_pre : World Grid;
  ev_ret : bool
}.
Arguments ev_call {Grid} _.
Arguments ev_pre {Grid} _.
Arguments ev_ret {Grid} _.

Record State (Grid Rng : Type) := {
  world : World Grid;
  rng : Rng;
  trace : list (Event Grid)
}.
Arguments world {Grid Rng} _.
Arguments rng {Grid Rng} _.
Arguments trace {Grid Rng} _.

(** Where the run leaves what the source defines: the
    [assert(cell->inGroup())] fails, an index is past the end of a vector, a
    rectangle pointer was never assigned, a sort reads in front of its
    vector.  The model follows the run up to there and no further. *)
Inductive Fault := AssertInGroup | BadIndex | WildPointer | SortOverrun.

Inductive Res (Grid Rng A : Type) :=
| Done (a : A) (s : State Grid Rng)
| Aborted (f : Fault) (s : State Grid Rng).
Arguments Done {Grid Rng A} _ _.
Arguments Aborted {Grid Rng A} _ _.

Definition final {Grid Rng A} (r : Res Grid Rng A) : State Grid Rng :=
  match r with Done _ s => s | Aborted _ s => s end.

Definition value {Grid Rng A} (r : Res Grid Rng A) : option A :=
  match r with Done a _ => Some a | Aborted _ _ => None end.

Definition M (Grid Rng A : Type) := State Grid Rng -> Res Grid Rng A.

Definition ret {Grid Rng A} (a : A) : M Grid Rng A := fun s => Done a s.

Definition bind {Grid Rng A B} (m : M Grid Rng A) (k : A -> M Grid Rng B)
  : M Grid Rng B :=
  fun s => match m s with
           | Done a s' => k a s'
           | Aborted f s' => Aborted f s'
           end.

Definition abort {Grid Rng A} (f : Fault) : M Grid Rng A := fun s => Aborted f s.

Notation "'do' x <- m ; k" := (bind m (fun x => k))
  (at level 10, x name, m at level 100, k at level 200, only parsing).
Notation "m ;; k" := (bind m (fun _ => k))
  (at level 100, k at level 200, right associativity, only parsing).

(** Loops. *)
Fixpoint for_each {Grid Rng A} (l : list A) (body : A -> M Grid Rng unit)
  : M Grid Rng unit :=
  match l with
  | [] => ret tt
  | a :: l' => body a ;; for_each l' body
  end.

(** A [for] loop whose body may [break]: the body answers [false] to break,
    and the loop answers [false] when it was left by [break]. *)
Fixpoint for_each_break {Grid Rng A} (l : list A) (body : A -> M Grid Rng bool)
  : M Grid Rng bool :=
  match l with
  | [] => ret true
  | a :: l' =>
      do go_on <- body a;
      if go_on then for_each_break l' body else ret false
  end.

(** [n] rounds of a body that reports success, counted from [count]. *)
Fixpoint repeat_count {Grid Rng} (n : nat) (body : M Grid Rng bool) (count : nat)
  : M Grid Rng nat :=
  match n with
  | 0 => ret count
  | S n' =>
      do ok <- body;
      repeat_count n' body (if ok then S count else count)
  end.

(** ** The program *)

Section Place.
Context {Grid Rng : Type}.
Variable E : Extern Grid Rng.
Variable D : Design.

Abbreviation Prog := (M Grid Rng).

(** *** Primitive steps *)

(** A call into the grid service, logged. *)
Definition call (c : Call) : Prog bool :=
  fun s =>
    let '(b, w') := exec E c (world s) in
    Done b {| world := w'; rng := rng s;
              trace := trace s ++ [{| ev_call := c; ev_pre := world s; ev_ret := b |}] |}.

Definition map_move (cell : CellPtr) : Prog bool := call (MapMove cell).
Definition map_move_at (cell : CellPtr) (x y : Z) : Prog bool := call (MapMoveAt cell x y).
Definition shift_move (cell : CellPtr) : Prog bool := call (ShiftMove cell).
Definition erase_pixel (cell : CellPtr) : Prog bool := call (ErasePixel cell).
Definition swap_cell (cellA cellB : CellPtr) : Prog bool := call (SwapCell cellA cellB).
Definition refine_move (cell : CellPtr) : Prog bool := call (RefineMove cell).
Definition group_cell_region_assign : Prog bool := call GroupCellRegionAssign.
Definition non_group_cell_region_assign : Prog bool := call NonGroupCellRegionAssign.

(** Reading through a [Cell*]. *)
Definition deref (p : CellPtr) : Prog Cell :=
  fun s => Done (cell_at (world s) p) s.

(** [cell->hold = true]. *)
Definition hold_true (p : CellPtr) : Prog unit :=
  fun s =>
    Done tt {| world := {| cells_ := alter (set_hold true) p (cells_ (world s));
                           grid_ := grid_ (world s) |};
               rng := rng s; trace := trace s |}.

(** [cells_.size()] and the pointers [&cells_[0]], [&cells_[1]], ... *)
Definition all_cells : Prog (list CellPtr) :=
  fun s => Done (seq 0 (length (cells_ (world s)))) s.

Definition libc_srand (seed : Z) : Prog unit :=
  fun s => Done tt {| world := world s; rng := srand E seed; trace := trace s |}.

Definition libc_rand : Prog N :=
  fun s =>
    let '(r, g) := rand E (rng s) in
    Done r {| world := world s; rng := g; trace := trace s |}.

(** [sort(first, last, comp)] on a vector of [Cell*], the comparator reading
    the cells as they are when the sort runs. *)
Definition sort_cells (comp : Cell -> Cell -> bool) (l : list CellPtr)
  : Prog (list CellPtr) :=
  fun s =>
    Done (std_sort (fun p q => comp (cell_at (world s) p) (cell_at (world s) q)) l) s.

(** The same with a comparator that is told the number of the comparison;
    the run ends where the sort reads in front of the vector. *)
Definition sort_cells_numbered (comp : nat -> Cell -> Cell -> bool)
           (l : list CellPtr) : Prog (list CellPtr) :=
  fun s =>
    match std_sort_numbered
            (fun n p q => comp n (cell_at (world s) p) (cell_at (world s) q)) l with
    | Some sorted => Done sorted s
    | None => Aborted SortOverrun s
    end.

(** The pointers of [l] whose cell passes [keep], in order. *)
Definition select (keep : Cell -> bool) (l : list CellPtr) : Prog (list CellPtr) :=
  fun s => Done (filter (fun p => keep (cell_at (world s) p) = true) l) s.

(** *** [rectDist]

    The four-argument overload takes [x_tar] and [y_tar] by value.
    [rectDist_locals] is what its own copies hold when it returns;
    [rectDist4] is what the caller gets: nothing.  The division is C's,
    rounding toward zero. *)
Definition rectDist_locals (cell : Cell) (rect : adsRect) (x_tar y_tar : Z) : Z * Z :=
  let x_tar := 0%Z in
  let y_tar := 0%Z in
  let '(init_x, init_y) := initLocation E cell in
  let x_tar := if (init_x >? (xMin rect + xMax rect) ÷ 2)%Z
               then xMax rect else xMin rect in
  let y_tar := if (init_y >? (yMin rect + yMax rect) ÷ 2)%Z
               then yMax rect else yMin rect in
  (x_tar, y_tar).

Definition rectDist4 (cell : Cell) (rect : adsRect) (x_tar y_tar : Z) : unit :=
  let _ := rectDist_locals cell rect x_tar y_tar in tt.

(** The two-argument overload: [x_tar] and [y_tar] are declared, passed by
    value to the overload above, and read.  They hold what the frame of the
    call held, [rectDist_uninit E n] at the call number [n]. *)
Definition rectDist (n : nat) (cell : Cell) (rect : adsRect) : Z :=
  let '(x_tar, y_tar) := rectDist_uninit E n in
  let _ := rectDist4 cell rect x_tar y_tar in
  let '(init_x, init_y) := initLocation E cell in
  (Z.abs (init_x - x_tar) + Z.abs (init_y - y_tar))%Z.

(** *** Pre-placement *)

(** The two nested loops of [non_group_cell_pre_placement] for one cell:
    [inGroup] and [target] after them. *)
Definition overlap_scan (cell : Cell) : bool * option adsRect :=
  fold_left
    (fun acc group =>
       fold_left
         (fun acc rect =>
            if check_overlap E cell rect then (true, Some rect) else acc)
         (regions group) acc)
    (groups_ D) (false, None).

Definition non_group_cell_pre_placement_cell (p : CellPtr) : Prog unit :=
  do cell <- deref p;
  if negb (inGroup cell) && negb (is_placed cell) then
    let '(inGroup, target) := overlap_scan cell in
    if inGroup then
      match target with
      | None => abort WildPointer
      | Some target =>
          let coord := nearest_coord_to_rect_boundary E cell target in
          do ok <- map_move_at p (fst coord) (snd coord);
          if ok then hold_true p else ret tt
      end
    else ret tt
  else ret tt.

Definition non_group_cell_pre_placement : Prog unit :=
  do cells <- all_cells;
  for_each cells non_group_cell_pre_placement_cell.

Definition INT_MAX : Z := 2147483647.

(** The region loop of [group_cell_pre_placement] for one cell: [dist],
    [in_group] and [target] after it; [target] is [None] as long as the
    pointer was not assigned. *)
Definition region_scan (cell : Cell) (group : Group) : Z * bool * option adsRect :=
  fold_left
    (fun '(dist, in_group, target) rect =>
       let in_group := if check_inside E cell rect then true else in_group in
       let temp_dist := dist_for_rect E cell rect in
       if (temp_dist <? dist)%Z then (temp_dist, in_group, Some rect)
       else (dist, in_group, target))
    (regions group) (INT_MAX, false, None).

(** Nothing stands between the loop and the use of [target]: a pointer that
    the loop never assigned is passed on as it is, and the snap goes to the
    rectangle [uninit_target] read through it. *)
Definition group_cell_pre_placement_cell (group : Group) (p : CellPtr) : Prog unit :=
  do cell <- deref p;
  if negb (isFixed E cell || is_placed cell) then
    let '(_, in_group, target) := region_scan cell group in
    if negb in_group then
      let target := match target with
                    | Some rect => rect
                    | None => uninit_target E
                    end in
      let coord := nearest_coord_to_rect_boundary E cell target in
      do ok <- map_move_at p (fst coord) (snd coord);
      if ok then hold_true p else ret tt
    else ret tt
  else ret tt.

Definition group_cell_pre_placement : Prog unit :=
  for_each (groups_ D)
    (fun group => for_each (siblings group) (group_cell_pre_placement_cell group)).

(** *** Greedy placement *)

Definition non_group_cell_placement : Prog unit :=
  do cells <- all_cells;
  do cell_list <- select (fun cell => negb (isFixed E cell || inGroup cell || is_placed cell)) cells;
  do cell_list <- sort_cells sortUpOrder cell_list;
  for_each cell_list
    (fun p =>
       do cell <- deref p;
       let macro := cell_macro cell in
       if isMulti macro then
         do ok <- map_move p;
         if negb ok then (shift_move p ;; ret tt) else ret tt
       else ret tt) ;;
  for_each cell_list
    (fun p =>
       do cell <- deref p;
       let macro := cell_macro cell in
       if negb (isMulti macro) then
         do ok <- map_move p;
         if negb ok then (shift_move p ;; ret tt) else ret tt
       else ret tt).

(** The body of the multi-deck loop of [group_cell_placement]; its answer is
    [multi_pass], and [false] leaves the loop. *)
Definition place_multi (p : CellPtr) : Prog bool :=
  do cell <- deref p;
  if negb (isFixed E cell) && negb (is_placed cell) then
    if inGroup cell then
      let macro := cell_macro cell in
      if isMulti macro then map_move p else ret true
    else abort AssertInGroup
  else ret true.

(** The body of the single-deck loop; its answer is [single_pass]. *)
Definition place_single (p : CellPtr) : Prog bool :=
  do cell <- deref p;
  if negb (isFixed E cell) && negb (is_placed cell) then
    if inGroup cell then
      let macro := cell_macro cell in
      if negb (isMulti macro) then map_move p else ret true
    else abort AssertInGroup
  else ret true.

(** The two passes of one group; the answer is [(single_pass, multi_pass)]. *)
Definition group_greedy (group : Group) : Prog (bool * bool) :=
  do cell_list <- select (fun cell => negb (isFixed E cell) && negb (is_placed cell))
                         (siblings group);
  do cell_list <- sort_cells sortUpOrder cell_list;
  do multi_pass <- for_each_break cell_list place_multi;
  if multi_pass then
    do single_pass <- for_each_break cell_list place_single;
    ret (single_pass, multi_pass)
  else ret (true, multi_pass).

(** [// Erase group cells] *)
Definition erase_group (group : Group) : Prog unit :=
  for_each (siblings group) (fun p => erase_pixel p ;; ret tt).

(** *** Brick placement *)

(** The loop of [brick_placement_1] over the sorted vector: [x_tar] and
    [y_tar] are declared in the loop body, the call [rectDist(cell, boundary)]
    leaves them alone and its result is dropped, and they are passed to
    [map_move].  The two locals are slots of the frame of [brick_placement_1]
    that nothing writes: what they hold, [uninit_x_tar] and [uninit_y_tar],
    is not what the frames of [rectDist] hold. *)
Definition brick_placement_1_loop (boundary : adsRect) (sort_by_dist : list CellPtr)
  : Prog unit :=
  for_each sort_by_dist
    (fun p =>
       do cell <- deref p;
       let x_tar := uninit_x_tar E in
       let y_tar := uninit_y_tar E in
       let _ := rectDist 0 cell boundary in
       map_move_at p x_tar y_tar ;; ret tt).

(** [brick_placement_1]: the comparator calls the two-argument [rectDist]
    twice, the calls number [2 * n] and [2 * n + 1] of the sort at its [n]-th
    comparison. *)
Definition brick_placement_1 (group : Group) : Prog unit :=
  let boundary := boundary group in
  do sort_by_dist <-
    sort_cells_numbered
      (fun n cell1 cell2 =>
         (rectDist (2 * n) cell1 boundary <? rectDist (2 * n + 1) cell2 boundary)%Z)
      (siblings group);
  brick_placement_1_loop boundary sort_by_dist.

(** The loop of [brick_placement_2] over the sorted vector. *)
Definition brick_placement_2_loop (sort_by_dist : list CellPtr) : Prog unit :=
  for_each sort_by_dist
    (fun p =>
       do cell <- deref p;
       if negb (hold cell) then
         let region := region cell in
         let x_tar := uninit_x_tar E in
         let y_tar := uninit_y_tar E in
         let _ := rectDist4 cell region x_tar y_tar in
         map_move_at p x_tar y_tar ;; ret tt
       else ret tt).

Definition brick_placement_2 (group : Group) : Prog unit :=
  do sort_by_dist <-
    sort_cells_numbered
      (fun n cell1 cell2 =>
         (rectDist (2 * n) cell1 (region cell1)
          <? rectDist (2 * n + 1) cell2 (region cell2))%Z)
      (siblings group);
  brick_placement_2_loop sort_by_dist.

(** [group.util > 0.95] *)
Definition util_above_095 (group : Group) : bool :=
  negb (Qle_bool (util group) (95 # 100)).

Definition group_cell_placement_group (group : Group) : Prog unit :=
  do passes <- group_greedy group;
  let '(single_pass, multi_pass) := passes in
  if negb single_pass || negb multi_pass then
    erase_group group ;;
    if util_above_095 group then brick_placement_1 group
    else brick_placement_2 group
  else ret tt.

Definition group_cell_placement : Prog unit :=
  for_each (groups_ D) group_cell_placement_group.

(** *** Refinement and annealing *)

(** [i < size * percent], in [double] in the source, in [Q] here. *)
Definition below (i size : nat) (percent : Q) : bool :=
  negb (Qle_bool (inject_Z (Z.of_nat size) * percent) (inject_Z (Z.of_nat i))).

(** The counting loop of the refiners from index [i] on, [rest] being the
    elements of the sorted vector from that index. *)
Fixpoint refine_loop (size : nat) (percent : Q) (rest : list CellPtr)
         (i count : nat) : Prog nat :=
  if below i size percent then
    match rest with
    | [] => abort BadIndex
    | p :: rest' =>
        do cell <- deref p;
        if negb (hold cell) then
          do ok <- refine_move p;
          refine_loop size percent rest' (S i) (if ok then S count else count)
        else refine_loop size percent rest' (S i) count
    end
  else ret count.

Definition group_refine (group : Group) : Prog nat :=
  do sort_by_disp <-
    sort_cells (fun cell1 cell2 => (disp E cell1 >? disp E cell1)%Z)
               (siblings group);
  refine_loop (length sort_by_disp) (group_refine_percent_ D) sort_by_disp 0 0.

(** [v[rand() % v.size()]] *)
Definition pick (v : list CellPtr) : Prog CellPtr :=
  do r <- libc_rand;
  match v !! N.to_nat (r mod N.of_nat (length v)) with
  | Some p => ret p
  | None => abort BadIndex
  end.

Definition anneal_trial (v : list CellPtr) : Prog bool :=
  do cellA <- pick v;
  do cellB <- pick v;
  do a <- deref cellA;
  do b <- deref cellB;
  if negb (hold a) && negb (hold b) then swap_cell cellA cellB
  else ret false.

Definition group_annealing (group : Group) : Prog nat :=
  libc_srand 777 ;;
  repeat_count (1000 * length (siblings group)) (anneal_trial (siblings group)) 0.

Definition non_group_annealing : Prog nat :=
  libc_srand 777 ;;
  do cells <- all_cells;
  repeat_count (100 * length cells) (anneal_trial cells) 0.

Definition non_group_refine : Prog nat :=
  do cells <- all_cells;
  do sort_by_disp <-
    select (fun cell => negb (isFixed E cell || hold cell || inGroup cell)) cells;
  do sort_by_disp <-
    sort_cells (fun cell1 cell2 => (disp E cell1 >? disp E cell2)%Z) sort_by_disp;
  refine_loop (length sort_by_disp) (non_group_refine_percent_ D) sort_by_disp 0 0.

(** *** The orchestrator *)

(** The [for(int j = 0; j < 3; j++)] loop of [simplePlacement] with [rounds]
    iterations left; the answer lists [(count_a, count_b)] of every round
    that ran. *)
Fixpoint refine_anneal_rounds (rounds : nat) (group : Group)
  : Prog (list (nat * nat)) :=
  match rounds with
  | 0 => ret []
  | S rounds' =>
      do count_a <- group_refine group;
      do count_b <- group_annealing group;
      if (count_a <? 10) || (count_b <? 100) then ret [(count_a, count_b)]
      else
        do later <- refine_anneal_rounds rounds' group;
        ret ((count_a, count_b) :: later)
  end.

(** [for(Group &group : groups_)] around it. *)
Fixpoint all_groups_rounds (groups : list Group) : Prog (list (list (nat * nat))) :=
  match groups with
  | [] => ret []
  | group :: groups' =>
      do counts <- refine_anneal_rounds 3 group;
      do later <- all_groups_rounds groups';
      ret (counts :: later)
  end.

(** [simplePlacement]; the messages on [cout] are left out.  The source
    returns nothing: the answer here is the record of the counts. *)
Definition simplePlacement (verbose : bool) : Prog (list (list (nat * nat))) :=
  (if 0 <? length (groups_ D) then group_cell_region_assign ;; ret tt else ret tt) ;;
  non_group_cell_region_assign ;;
  (if 0 <? length (groups_ D) then
     group_cell_pre_placement ;; non_group_cell_pre_placement
   else ret tt) ;;
  do counts <-
    (if 0 <? length (groups_ D) then
       group_cell_placement ;; all_groups_rounds (groups_ D)
     else ret []);
  non_group_cell_placement ;;
  ret counts.

End Place.

(** ** A small grid service to run the program on *)

Module Toy.

(** Modelled from the spec: the Grid Service of section 6 (direct-place,
    shift-place, release, swap, local-improve, the geometric predicates,
    original-target, displacement), which [place.cpp] calls and does not
    define.  This instance has no grid of its own: every cell is one site
    wide, a placed cell occupies the site [(x_, y_)], and a site holds one
    cell.  Direct placement commits the cell at the asked site when no other
    placed cell is there; shift placement tries the site to the right of the
    target; release resets the placed state; swap exchanges two placed cells
    when that lowers their total displacement; local improvement moves a
    placed cell back to its target when the site is free.  No cell is fixed:
    an obstacle is a cell that is already placed. *)
Definition Grid := unit.
Definition Rng := N.

Definition put (x y : Z) (cell : Cell) : Cell :=
  {| db_inst_id := db_inst_id cell; area := area cell;
     dense_factor := dense_factor cell; cell_macro := cell_macro cell;
     group := group cell; region := region cell;
     is_placed := true; hold := hold cell;
     x_ := x; y_ := y;
     init_x_ := init_x_ cell; init_y_ := init_y_ cell |}.

Definition release (cell : Cell) : Cell :=
  {| db_inst_id := db_inst_id cell; area := area cell;
     dense_factor := dense_factor cell; cell_macro := cell_macro cell;
     group := group cell; region := region cell;
     is_placed := false; hold := hold cell;
     x_ := x_ cell; y_ := y_ cell;
     init_x_ := init_x_ cell; init_y_ := init_y_ cell |}.

Definition manhattan (x y : Z) (cell : Cell) : Z :=
  (Z.abs (x - init_x_ cell) + Z.abs (y - init_y_ cell))%Z.

Definition displacement (cell : Cell) : Z := manhattan (x_ cell) (y_ cell) cell.

(** Is the site [(x, y)] taken by a placed cell other than [p]? *)
Definition taken (cells : list Cell) (p : CellPtr) (x y : Z) : bool :=
  existsb (fun '(q, c) =>
             negb (q =? p) && is_placed c && (x_ c =? x)%Z && (y_ c =? y)%Z)
          (zip (seq 0 (length cells)) cells).

Definition with_cells (cells : list Cell) : World Grid :=
  {| cells_ := cells; grid_ := tt |}.

Definition commit (w : World Grid) (p : CellPtr) (x y : Z) : bool * World Grid :=
  if (p <? length (cells_ w)) && negb (taken (cells_ w) p x y)
  then (true, with_cells (alter (put x y) p (cells_ w)))
  else (false, w).

Definition run_call (c : Call) (w : World Grid) : bool * World Grid :=
  match c with
  | MapMove p => commit w p (init_x_ (cell_at w p)) (init_y_ (cell_at w p))
  | MapMoveAt p x y => commit w p x y
  | ShiftMove p => commit w p (init_x_ (cell_at w p) + 1)%Z (init_y_ (cell_at w p))
  | ErasePixel p => (true, with_cells (alter release p (cells_ w)))
  | SwapCell a b =>
      let ca := cell_at w a in
      let cb := cell_at w b in
      if is_placed ca && is_placed cb && negb (a =? b)
         && (manhattan (x_ cb) (y_ cb) ca + manhattan (x_ ca) (y_ ca) cb
             <? displacement ca + displacement cb)%Z
      then (true, with_cells (alter (put (x_ ca) (y_ ca)) b
                                (alter (put (x_ cb) (y_ cb)) a (cells_ w))))
      else (false, w)
  | RefineMove p =>
      let c := cell_at w p in
      if is_placed c && (0 <? displacement c)%Z
      then commit w p (init_x_ c) (init_y_ c)
      else (false, w)
  | GroupCellRegionAssign => (true, w)
  | NonGroupCellRegionAssign => (true, w)
  end.

Definition inside (cell : Cell) (rect : adsRect) : bool :=
  (xMin rect <=? init_x_ cell)%Z && (init_x_ cell <? xMax rect)%Z
  && (yMin rect <=? init_y_ cell)%Z && (init_y_ cell <? yMax rect)%Z.

(** The nearer of the left and right edges, at the cell's own height. *)
Definition nearest_edge (cell : Cell) (rect : adsRect) : Z * Z :=
  if (Z.abs (init_x_ cell - xMin rect) <=? Z.abs (xMax rect - init_x_ cell))%Z
  then (xMin rect, init_y_ cell)
  else (xMax rect, init_y_ cell).

Definition edge_distance (cell : Cell) (rect : adsRect) : Z :=
  Z.min (Z.abs (init_x_ cell - xMin rect)) (Z.abs (xMax rect - init_x_ cell)).

(** The linear congruential generator of the C standard's sample [rand]. *)
Definition lcg (g : N) : N * N :=
  let g' := ((g * 1103515245 + 12345) mod 2147483648)%N in
  ((g' / 65536) mod 32768, g')%N.

(** [junk] is what every never-assigned [x_tar], [y_tar] holds; the
    never-assigned rectangle pointer points at the empty rectangle. *)
Definition E (junk : Z * Z) : Extern Grid Rng :=
  {| exec := run_call;
     isFixed := fun _ => false;
     check_overlap := inside;
     check_inside := inside;
     dist_for_rect := edge_distance;
     nearest_coord_to_rect_boundary := nearest_edge;
     initLocation := fun cell => (init_x_ cell, init_y_ cell);
     disp := displacement;
     srand := fun seed => Z.to_N seed;
     rand := lcg;
     uninit_x_tar := fst junk;
     uninit_y_tar := snd junk;
     rectDist_uninit := fun _ => junk;
     uninit_target := null_rect |}.

(** The same service with the distance to a rectangle kept below [INT_MAX],
    as an [int] distance on a chip is. *)
Definition near (junk : Z * Z) : Extern Grid Rng :=
  {| exec := run_call;
     isFixed := fun _ => false;
     check_overlap := inside;
     check_inside := inside;
     dist_for_rect := fun cell rect => Z.min (edge_distance cell rect) 1000000000;
     nearest_coord_to_rect_boundary := nearest_edge;
     initLocation := fun cell => (init_x_ cell, init_y_ cell);
     disp := displacement;
     srand := fun seed => Z.to_N seed;
     rand := lcg;
     uninit_x_tar := fst junk;
     uninit_y_tar := snd junk;
     rectDist_uninit := fun _ => junk;
     uninit_target := null_rect |}.

(** The same service as [E] where the frames of [rectDist] do not agree:
    the call number [n] finds [frames n] in its [x_tar], [y_tar]. *)
Definition unsteady (junk : Z * Z) (frames : nat -> Z * Z) : Extern Grid Rng :=
  {| exec := run_call;
     isFixed := fun _ => false;
     check_overlap := inside;
     check_inside := inside;
     dist_for_rect := edge_distance;
     nearest_coord_to_rect_boundary := nearest_edge;
     initLocation := fun cell => (init_x_ cell, init_y_ cell);
     disp := displacement;
     srand := fun seed => Z.to_N seed;
     rand := lcg;
     uninit_x_tar := fst junk;
     uninit_y_tar := snd junk;
     rectDist_uninit := frames;
     uninit_target := null_rect |}.

(** A movable cell: priority keys, rows, group, target and state. *)
Definition cell (id area dense : Z) (multi : bool) (grp : option nat)
           (target : Z * Z) (placed held : bool) (at_ : Z * Z) : Cell :=
  {| db_inst_id := id; area := area; dense_factor := dense;
     cell_macro := {| isMulti := multi |}; group := grp;
     region := null_rect; is_placed := placed; hold := held;
     x_ := fst at_; y_ := snd at_;
     init_x_ := fst target; init_y_ := snd target |}.

Definition start (cells : list Cell) : State Grid Rng :=
  {| world := with_cells cells; rng := 0%N; trace := [] |}.

(** The calls of a log with their results. *)
Definition calls (s : State Grid Rng) : list (Call * bool) :=
  map (fun e => (ev_call e, ev_ret e)) (trace s).

End Toy.


(** ** Inputs the statements are run on *)

Module Inputs.

Definition square : adsRect := {| xMin := 0; yMin := 0; xMax := 10; yMax := 10 |}.

(** A group of two single-row cells, the first one held. *)
Definition held_pair : list Cell :=
  [ Toy.cell 1 4 1 false (Some 0) (2, 2)%Z false true (0, 0)%Z;
    Toy.cell 2 4 1 false (Some 0) (7, 7)%Z false false (0, 0)%Z ].

Definition pair_group (u : Q) : Group :=
  {| siblings := [0; 1]; regions := [square]; boundary := square; util := u |}.

(** A group of three with an obstacle: two multi-row cells and a single-row
    one, and a placed cell outside the group on the target of the second. *)
Definition blocked : list Cell :=
  [ Toy.cell 1 10 1 true (Some 0) (8, 8)%Z false false (0, 0)%Z;
    Toy.cell 2 8 1 true (Some 0) (0, 0)%Z false false (0, 0)%Z;
    Toy.cell 3 2 1 false (Some 0) (1, 0)%Z false false (0, 0)%Z;
    Toy.cell 4 2 1 false None (0, 0)%Z true false (0, 0)%Z ].

Definition trio_group (u : Q) : Group :=
  {| siblings := [0; 1; 2]; regions := [square]; boundary := square; util := u |}.

(** Two placed cells, the first one site away from its target, the second
    five sites away; in a group, and the same two outside any group. *)
Definition displaced (grp : option nat) : list Cell :=
  [ Toy.cell 1 4 1 false grp (0, 0)%Z true false (1, 0)%Z;
    Toy.cell 2 4 1 false grp (5, 0)%Z true false (5, 5)%Z ].

Definition half : Design :=
  {| groups_ := [pair_group (1 # 2)];
     group_refine_percent_ := 1 # 2;
     non_group_refine_percent_ := 1 # 2 |}.

(** One cell whose target is in the upper right quarter of [square]. *)
Definition upper_right : list Cell :=
  [ Toy.cell 1 4 1 false (Some 0) (8, 8)%Z false false (0, 0)%Z ].

Definition single_group : Group :=
  {| siblings := [0]; regions := [square]; boundary := square; util := 96 # 100 |}.

(** The one sibling of [single_group] with its target site (0, 0) taken by a
    placed cell outside the group. *)
Definition lone_blocked : list Cell :=
  [ Toy.cell 1 4 1 false (Some 0) (0, 0)%Z false false (0, 0)%Z;
    Toy.cell 2 4 1 false None (0, 0)%Z true false (0, 0)%Z ].

Definition solo : Design :=
  {| groups_ := [single_group];
     group_refine_percent_ := 1 # 2;
     non_group_refine_percent_ := 1 # 2 |}.

(** A group of three at a utilization of 0.96 on a busy chip: two multi-row
    siblings, the target of the second taken by a placed cell outside the
    group; a single-row sibling whose target is to the right of the region;
    and two free cells outside the group, one with its target in the region
    and one far from it. *)
Definition busy : list Cell :=
  [ Toy.cell 1 10 1 true (Some 0) (8, 8)%Z false false (0, 0)%Z;
    Toy.cell 2 8 1 true (Some 0) (0, 0)%Z false false (0, 0)%Z;
    Toy.cell 3 2 1 false (Some 0) (12, 3)%Z false false (0, 0)%Z;
    Toy.cell 4 2 1 false None (0, 0)%Z true false (0, 0)%Z;
    Toy.cell 5 2 1 false None (5, 5)%Z false false (0, 0)%Z;
    Toy.cell 6 2 1 false None (20, 20)%Z false false (0, 0)%Z ].

Definition dense : Design :=
  {| groups_ := [trio_group (96 # 100)];
     group_refine_percent_ := 1 # 2;
     non_group_refine_percent_ := 1 # 2 |}.

(** Frames of [rectDist] that do not agree: the third call of a sort finds
    (7, 7) in its never-assigned locals, every other call (0, 0). *)
Definition wobble (n : nat) : Z * Z :=
  if n =? 2 then (7, 7)%Z else (0, 0)%Z.

(** A free cell with target (3, 0) inside two regions: [square], of the first
    group, and [wide], of the second. *)
Definition wide : adsRect := {| xMin := 2; yMin := 0; xMax := 20; yMax := 10 |}.

Definition straddler : list Cell :=
  [ Toy.cell 1 4 1 false None (3, 0)%Z false false (0, 0)%Z ].

Definition two_fences : Design :=
  {| groups_ := [ {| siblings := []; regions := [square]; boundary := square;
                     util := 1 # 2 |};
                  {| siblings := []; regions := [wide]; boundary := wide;
                     util := 1 # 2 |} ];
     group_refine_percent_ := 1 # 2;
     non_group_refine_percent_ := 1 # 2 |}.

(** The three cells of the ordering example, stored in the order of their
    listing: areas 10, 10, 5, dense factors 1, 2, 1, ids 5, 3, 9. *)
Definition law_cells (grp : option nat) : list Cell :=
  [ Toy.cell 5 10 1 false grp (0, 0)%Z false false (0, 0)%Z;
    Toy.cell 3 10 2 false grp (1, 0)%Z false false (0, 0)%Z;
    Toy.cell 9 5 1 false grp (2, 0)%Z false false (0, 0)%Z ].

(** Refine fractions above 1. *)
Definition overfull : Design :=
  {| groups_ := [pair_group (1 # 2)];
     group_refine_percent_ := 3 # 2;
     non_group_refine_percent_ := 3 # 2 |}.

(** A group without siblings. *)
Definition empty_group : Group :=
  {| siblings := []; regions := [square]; boundary := square; util := 1 # 2 |}.


End Inputs.
(** * Vocabulary of the statements *)

(** The three keys [sortUpOrder] reads. *)
Definition prio_key (cell : Cell) : Z * Z * Z :=
  (area cell, dense_factor cell, db_inst_id cell).

(** [sortUpOrder] on the keys alone. *)
Definition key_before (k1 k2 : Z * Z * Z) : bool :=
  let '(area1, dense1, id1) := k1 in
  let '(area2, dense2, id2) := k2 in
  if (area1 >? area2)%Z then true
  else if (area1 <? area2)%Z then false
  else if (dense1 >? dense2)%Z then true
  else if (dense1 <? dense2)%Z then false
  else (id1 <? id2)%Z.

Section Vocabulary.
Context {Grid Rng : Type}.

(** [I] survives a run of [m], finished or aborted. *)
Definition preserves {A} (I : State Grid Rng -> Prop) (m : M Grid Rng A) : Prop :=
  forall s, I s -> I (final (m s)).

(** [evs] are the calls logged between [s] and [s']. *)
Definition logged (s s' : State Grid Rng) (evs : list (Event Grid)) : Prop :=
  trace s' = trace s ++ evs.

(** Since the log was [t0], every call logged satisfies [P]. *)
Definition log_since (t0 : list (Event Grid)) (P : Event Grid -> Prop)
           (s : State Grid Rng) : Prop :=
  exists evs, trace s = t0 ++ evs /\ Forall P evs.

(** The state after the grid service ran the call [c] in [s], and its answer. *)
Definition call_answer (E : Extern Grid Rng) (c : Call) (s : State Grid Rng) : bool :=
  fst (exec E c (world s)).

Definition after_call (E : Extern Grid Rng) (c : Call) (s : State Grid Rng)
  : State Grid Rng :=
  {| world := snd (exec E c (world s)); rng := rng s;
     trace := trace s ++ [{| ev_call := c; ev_pre := world s;
                             ev_ret := call_answer E c s |}] |}.

(** The state after [cell->hold = true] through [p]. *)
Definition after_hold (p : CellPtr) (s : State Grid Rng) : State Grid Rng :=
  {| world := {| cells_ := alter (set_hold true) p (cells_ (world s));
                 grid_ := grid_ (world s) |};
     rng := rng s; trace := trace s |}.

(** [m] only reads the state. *)
Definition reads {A} (m : M Grid Rng A) : Prop :=
  forall s, exists a, m s = Done a s.

(** The state [s] with the generator in state [g]. *)
Definition with_rng (g : Rng) (s : State Grid Rng) : State Grid Rng :=
  {| world := world s; rng := g; trace := trace s |}.

(** Two states that differ in the generator at most. *)
Definition same_but_rng (s1 s2 : State Grid Rng) : Prop :=
  world s1 = world s2 /\ trace s1 = trace s2.

(** Two runs that end the same way, with the same answer, cells, grid and
    log. *)
Definition same_run {A} (r1 r2 : Res Grid Rng A) : Prop :=
  match r1, r2 with
  | Done a1 s1, Done a2 s2 => a1 = a2 /\ same_but_rng s1 s2
  | Aborted f1 s1, Aborted f2 s2 => f1 = f2 /\ same_but_rng s1 s2
  | _, _ => False
  end.

(** [m] does not depend on the state the generator is found in. *)
Definition rng_blind {A} (m : M Grid Rng A) : Prop :=
  forall s1 s2, same_but_rng s1 s2 -> same_run (m s1) (m s2).

End Vocabulary.


(** A direct commit attempt on a cell of [l] that was not held when the call
    was made. *)
Definition unheld_attempt_on {Grid} (l : list CellPtr) (e : Event Grid) : Prop :=
  exists p x y,
    ev_call e = MapMoveAt p x y /\ p ∈ l /\ hold (cell_at (ev_pre e) p) = false.

(** The contract of [release] in section 6 of the specification, as far as
    the placed state goes: the cell released is not placed afterwards, and
    releasing a cell commits no other one. *)
Definition release_contract {Grid Rng} (E : Extern Grid Rng) : Prop :=
  (forall p w, is_placed (cell_at (snd (exec E (ErasePixel p) w)) p) = false)
  /\ (forall p q w,
         is_placed (cell_at w q) = false ->
         is_placed (cell_at (snd (exec E (ErasePixel p) w)) q) = false).

(** The calls logged by a run of [m] from [s]. *)
Definition new_calls {Grid Rng A} (m : M Grid Rng A) (s : State Grid Rng)
  : list (Event Grid) :=
  drop (length (trace s)) (trace (final (m s))).

(** The grouped greedy pass with a shift fallback, as specified: every sibling
    whose direct placement fails in the pass gets a [shift_move]. *)
Definition shift_fallback_in_group {Grid Rng} (E : Extern Grid Rng)
           (group : Group) (s : State Grid Rng) : Prop :=
  forall p e,
    e ∈ new_calls (group_greedy E group) s ->
    ev_call e = MapMove p -> ev_ret e = false ->
    exists e', e' ∈ new_calls (group_greedy E group) s /\ ev_call e' = ShiftMove p.

Definition is_map_move {Grid} (e : Event Grid) : Prop :=
  exists p, ev_call e = MapMove p.

Definition succeeded {Grid} (e : Event Grid) : Prop := ev_ret e = true.

(** A pass that went through: every call succeeded. A pass that was left:
    the last call failed and the ones before it succeeded. *)
Definition pass_log {Grid} (passed : bool) (evs : list (Event Grid)) : Prop :=
  if passed then Forall succeeded evs
  else exists before e,
      evs = before ++ [e] /\ Forall succeeded before /\ ev_ret e = false.

(** One round of either loop of the grouped greedy pass: nothing happens, or
    [map_move(cell)] is called and its answer is the flag, or the assertion
    fails. *)
Definition one_map_move {Grid Rng} (E : Extern Grid Rng)
           (body : CellPtr -> M Grid Rng bool) : Prop :=
  forall p s,
    body p s = Done true s
    \/ body p s = Done (call_answer E (MapMove p) s) (after_call E (MapMove p) s)
    \/ body p s = Aborted AssertInGroup s.

(** *** The pre-placement snap of cells outside any group *)

Section Snap.
Context {Grid Rng : Type}.
Variable E : Extern Grid Rng.
Variable D : Design.

(** Every region of every group, in the order the loops visit them. *)
Definition all_regions : list adsRect := concat (map regions (groups_ D)).

(** The regions [cell] overlaps, in that order. *)
Definition overlapped (cell : Cell) : list adsRect :=
  List.filter (check_overlap E cell) all_regions.

(** The snap as specified: a cell that is neither grouped nor placed and
    overlaps a region gets a commit attempt at the nearest boundary
    coordinate of the first region it overlaps. *)
Definition snaps_to_first_overlap (p : CellPtr) (s : State Grid Rng) : Prop :=
  let cell := cell_at (world s) p in
  inGroup cell = false -> is_placed cell = false ->
  forall target, head (overlapped cell) = Some target ->
    exists e,
      e ∈ new_calls (non_group_cell_pre_placement_cell E D p) s
      /\ ev_call e = MapMoveAt p (fst (nearest_coord_to_rect_boundary E cell target))
                                 (snd (nearest_coord_to_rect_boundary E cell target)).

(** The snap as amended: the target is the last region the cell overlaps;
    one commit is attempted at its nearest boundary coordinate, and [hold]
    becomes [true] when it succeeds.  A cell that is grouped, placed, or
    overlaps no region is left as it is. *)
Definition snap_to_last_overlap (p : CellPtr) : M Grid Rng unit :=
  fun s =>
    let cell := cell_at (world s) p in
    if inGroup cell || is_placed cell then Done tt s
    else
      match last (overlapped cell) with
      | None => Done tt s
      | Some target =>
          let coord := nearest_coord_to_rect_boundary E cell target in
          let attempt := MapMoveAt p (fst coord) (snd coord) in
          if call_answer E attempt s
          then Done tt (after_hold p (after_call E attempt s))
          else Done tt (after_call E attempt s)
      end.

End Snap.

(** *** Rounds of refinement and annealing *)

(** A round trips the cutoff. *)
Definition trips (counts : nat * nat) : Prop := fst counts < 10 \/ snd counts < 100.

(** [rounds_run E D group s counts s']: from [s], one [group_refine] followed
    by one [group_annealing] ran for every entry of [counts], in order, each
    giving the two counts of its entry, and left the state [s']. *)
Inductive rounds_run {Grid Rng} (E : Extern Grid Rng) (D : Design) (group : Group)
  : State Grid Rng -> list (nat * nat) -> State Grid Rng -> Prop :=
| rounds_none s : rounds_run E D group s [] s
| rounds_more s count_a s1 count_b s2 later s3 :
    group_refine E D group s = Done count_a s1 ->
    group_annealing E group s1 = Done count_b s2 ->
    rounds_run E D group s2 later s3 ->
    rounds_run E D group s ((count_a, count_b) :: later) s3.

(** *** Held cells *)

(** The contract of [swap] and [local-improve] in section 6 of the
    specification, as far as other cells go: a local improvement of a cell
    and a swap of two cells leave every other cell as it is. *)
Definition moves_only_its_cells {Grid Rng} (E : Extern Grid Rng) : Prop :=
  (forall q p w, p <> q ->
                 cell_at (snd (exec E (RefineMove q) w)) p = cell_at w p)
  /\ (forall a b p w, p <> a -> p <> b ->
                      cell_at (snd (exec E (SwapCell a b) w)) p = cell_at w p).

(** A call that is a move of a cell other than [p] or a swap of two cells
    other than [p]. *)
Definition leaves_alone {Grid} (p : CellPtr) (e : Event Grid) : Prop :=
  match ev_call e with
  | RefineMove q => q <> p
  | SwapCell a b => a <> p /\ b <> p
  | _ => False
  end.

(** A run of [m] from [s] makes no call on [p] and leaves the cell as it
    was. *)
Definition frozen {Grid Rng A} (p : CellPtr) (m : M Grid Rng A)
           (s : State Grid Rng) : Prop :=
  cell_at (world (final (m s))) p = cell_at (world s) p
  /\ Forall (leaves_alone p) (new_calls m s).

(** The invariant behind it. *)
Definition kept {Grid Rng} (p : CellPtr) (held : Cell) (t0 : list (Event Grid))
           (s : State Grid Rng) : Prop :=
  cell_at (world s) p = held /\ log_since t0 (leaves_alone p) s.

(** *** The annealer's use of [rand] *)

(** The generator after one trial: [rand] is called twice. *)
Definition after_trial {Grid Rng} (E : Extern Grid Rng) (g : Rng) : Rng :=
  snd (rand E (snd (rand E g))).

(** The counts of the rounds of one group under the cutoff: there are
    between one and three of them; no round before the last one trips the
    cutoff; when fewer than three ran, the last one does. *)
Definition cut_off (counts : list (nat * nat)) : Prop :=
  1 <= length counts <= 3
  /\ (forall i c, S i < length counts -> counts !! i = Some c -> ~ trips c)
  /\ (forall c, length counts < 3 -> last counts = Some c -> trips c).

(** [cutoff_groups_run E D groups s all_counts s']: from [s], the groups got
    their rounds one group after the other.  The rounds of a group are the
    ones listed for it and no other: they start in the state the group
    before left, they end under the cutoff, and the next group starts in the
    state the last listed round left; [s'] is the state the last round of
    the last group left. *)
Inductive cutoff_groups_run {Grid Rng} (E : Extern Grid Rng) (D : Design)
  : list Group -> State Grid Rng -> list (list (nat * nat)) -> State Grid Rng
    -> Prop :=
| groups_none s : cutoff_groups_run E D [] s [] s
| groups_more group groups s counts s1 later s2 :
    rounds_run E D group s counts s1 ->
    cut_off counts ->
    cutoff_groups_run E D groups s1 later s2 ->
    cutoff_groups_run E D (group :: groups) s (counts :: later) s2.

(** A call that is not a [shift_move]. *)
Definition not_shift {Grid} (e : Event Grid) : Prop :=
  forall p, ev_call e <> ShiftMove p.

(** *** The logs of the greedy placers *)

(** The log of a loop of the non-grouped placer: direct placements, each
    failed one followed at once by the shift of the same cell. *)
Inductive fallback_log {Grid} : list (Event Grid) -> Prop :=
| fallback_done : fallback_log []
| fallback_direct e p evs :
    ev_call e = MapMove p -> ev_ret e = true ->
    fallback_log evs -> fallback_log (e :: evs)
| fallback_shift e e' p evs :
    ev_call e = MapMove p -> ev_ret e = false ->
    ev_call e' = ShiftMove p ->
    fallback_log evs -> fallback_log (e :: e' :: evs).

(** A [map_move(cell)] logged on a cell whose macro, when the call was made,
    had [isMulti] equal to [multi]; any other call passes. *)
Definition map_move_tier {Grid} (multi : bool) (e : Event Grid) : Prop :=
  forall p, ev_call e = MapMove p ->
            isMulti (cell_macro (cell_at (ev_pre e) p)) = multi.

(** The cell a placement call is about. *)
Definition placed_cell (c : Call) : option CellPtr :=
  match c with
  | MapMove p | MapMoveAt p _ _ | ShiftMove p => Some p
  | _ => None
  end.

(** A placement call on a cell of [cells_] that, in the state [s], is not
    fixed, not in a group and not placed. *)
Definition on_free_cell {Grid Rng} (E : Extern Grid Rng) (s : State Grid Rng)
           (e : Event Grid) : Prop :=
  exists p,
    placed_cell (ev_call e) = Some p
    /\ p < length (cells_ (world s))
    /\ isFixed E (cell_at (world s) p) = false
    /\ inGroup (cell_at (world s) p) = false
    /\ is_placed (cell_at (world s) p) = false.

(** A [map_move(cell)] on a sibling of [group] that, when the call was made,
    was not fixed, not placed and in a group, with [isMulti] equal to
    [multi]. *)
Definition group_attempt {Grid Rng} (E : Extern Grid Rng) (group : Group)
           (multi : bool) (e : Event Grid) : Prop :=
  exists p,
    ev_call e = MapMove p
    /\ p ∈ siblings group
    /\ isFixed E (cell_at (ev_pre e) p) = false
    /\ is_placed (cell_at (ev_pre e) p) = false
    /\ inGroup (cell_at (ev_pre e) p) = true
    /\ isMulti (cell_macro (cell_at (ev_pre e) p)) = multi.

(** One round of a loop of the non-grouped placer on a cell of the tier
    [multi]: nothing, or a direct placement that succeeds, or one that fails
    followed by the shift. *)
Definition one_attempt {Grid Rng} (E : Extern Grid Rng) (multi : bool)
           (body : CellPtr -> M Grid Rng unit) : Prop :=
  forall p s,
    body p s = Done tt s
    \/ (isMulti (cell_macro (cell_at (world s) p)) = multi
        /\ ((call_answer E (MapMove p) s = true
             /\ body p s = Done tt (after_call E (MapMove p) s))
            \/ (call_answer E (MapMove p) s = false
                /\ body p s = Done tt (after_call E (ShiftMove p)
                                         (after_call E (MapMove p) s))))).

(** A placement call on one of the cells of [l]. *)
Definition call_on_one_of {Grid} (l : list CellPtr) (e : Event Grid) : Prop :=
  exists p, placed_cell (ev_call e) = Some p /\ p ∈ l.

(** One round of a loop of the grouped placer on the tier [multi]: nothing,
    or [map_move] on a cell that is not fixed, not placed, in a group and of
    that tier, or the assertion fails. *)
Definition one_group_attempt {Grid Rng} (E : Extern Grid Rng) (multi : bool)
           (body : CellPtr -> M Grid Rng bool) : Prop :=
  forall p s,
    body p s = Done true s
    \/ (isFixed E (cell_at (world s) p) = false
        /\ is_placed (cell_at (world s) p) = false
        /\ inGroup (cell_at (world s) p) = true
        /\ isMulti (cell_macro (cell_at (world s) p)) = multi
        /\ body p s = Done (call_answer E (MapMove p) s) (after_call E (MapMove p) s))
    \/ (inGroup (cell_at (world s) p) = false
        /\ body p s = Aborted AssertInGroup s).

(** *** The pre-placement snap of group cells *)

(** [rects !! i] is [r], the first rectangle of [rects] at the least
    distance [d], and that distance is below [INT_MAX]. *)
Definition first_nearest (d : adsRect -> Z) (rects : list adsRect)
           (i : nat) (r : adsRect) : Prop :=
  rects !! i = Some r
  /\ (d r < INT_MAX)%Z
  /\ forall j r', rects !! j = Some r' -> (d r <= d r')%Z /\ (j < i -> (d r < d r')%Z).

(** What the region loop of [group_cell_pre_placement] has computed after
    the rectangles [rects]. *)
Definition scanned (d : adsRect -> Z) (inside : adsRect -> bool)
           (rects : list adsRect) (acc : Z * bool * option adsRect) : Prop :=
  let '(dist, in_group, target) := acc in
  in_group = existsb inside rects
  /\ match target with
     | None => dist = INT_MAX /\ forall r, r ∈ rects -> (INT_MAX <= d r)%Z
     | Some r => dist = d r /\ exists i, first_nearest d rects i r
     end.

(** *** The logs of the refiners and the annealers *)

(** How many of the calls succeeded. *)
Definition successes {Grid} (evs : list (Event Grid)) : nat :=
  length (List.filter ev_ret evs).

(** A [refine_move] on a cell of [l] that was not held when the call was
    made. *)
Definition unheld_refine {Grid} (l : list CellPtr) (e : Event Grid) : Prop :=
  exists p,
    ev_call e = RefineMove p /\ p ∈ l /\ hold (cell_at (ev_pre e) p) = false.

(** The cells [non_group_refine] collects in the state [s]. *)
Definition loose_cells {Grid Rng} (E : Extern Grid Rng) (s : State Grid Rng)
  : list CellPtr :=
  filter (fun p => negb (isFixed E (cell_at (world s) p)
                         || hold (cell_at (world s) p)
                         || inGroup (cell_at (world s) p)) = true)
         (seq 0 (length (cells_ (world s)))).

(** A [swap_cell] of two cells of [v], neither held when the call was made. *)
Definition unheld_swap {Grid} (v : list CellPtr) (e : Event Grid) : Prop :=
  exists a b,
    ev_call e = SwapCell a b /\ a ∈ v /\ b ∈ v
    /\ hold (cell_at (ev_pre e) a) = false
    /\ hold (cell_at (ev_pre e) b) = false.

(** A direct commit attempt at the coordinates found in the never-assigned
    [x_tar], [y_tar]. *)
Definition unassigned_attempt {Grid Rng} (E : Extern Grid Rng) (e : Event Grid) : Prop :=
  exists p, ev_call e = MapMoveAt p (uninit_x_tar E) (uninit_y_tar E).

(** *** Running to the end *)

(** The grid service leaves group membership alone. *)
Definition keeps_groups {Grid Rng} (E : Extern Grid Rng) : Prop :=
  forall c w p, inGroup (cell_at (snd (exec E c w)) p) = inGroup (cell_at w p).

(** The siblings of all groups. *)
Definition all_siblings (D : Design) : list CellPtr :=
  concat (map siblings (groups_ D)).

(** Every cell of [l] is in a group. *)
Definition grouped {Grid Rng} (l : list CellPtr) (s : State Grid Rng) : Prop :=
  forall p, p ∈ l -> inGroup (cell_at (world s) p) = true.

(** Every group has a region at a distance below [INT_MAX] of any cell. *)
Definition regions_in_reach {Grid Rng} (E : Extern Grid Rng) (D : Design) : Prop :=
  forall group, group ∈ groups_ D ->
    exists r, r ∈ regions group /\ forall cell, (dist_for_rect E cell r < INT_MAX)%Z.

(** From a state where [I] holds, [m] runs to its end and [I] holds again,
    or it stops short on a fault that [allowed] lets through. *)
Definition ends {Grid Rng A} (I : State Grid Rng -> Prop) (allowed : Fault -> Prop)
           (m : M Grid Rng A) : Prop :=
  forall s, I s ->
    match m s with
    | Done _ s' => I s'
    | Aborted f _ => allowed f
    end.

(** The sort of a brick placer, the rectangle of a cell being [rect_of]. *)
Definition brick_sort {Grid Rng} (E : Extern Grid Rng) (rect_of : Cell -> adsRect)
           (l : list CellPtr) : M Grid Rng (list CellPtr) :=
  sort_cells_numbered
    (fun n cell1 cell2 =>
       (rectDist E (2 * n) cell1 (rect_of cell1)
        <? rectDist E (2 * n + 1) cell2 (rect_of cell2))%Z) l.

(** Every call of the two-argument [rectDist] finds the same values in its
    never-assigned locals. *)
Definition steady_frames {Grid Rng} (E : Extern Grid Rng) : Prop :=
  forall n m, rectDist_uninit E n = rectDist_uninit E m.
(** * Properties *)

(** ** [std_sort] *)

Section SortFacts.
Context {A : Type} (comp : A -> A -> bool).

Lemma unguarded_linear_insert_perm (val : A) (rprefix : list A) :
  Permutation (unguarded_linear_insert comp val rprefix) (val :: rprefix).
Proof.
  induction rprefix as [|next rest IH]; simpl.
  - reflexivity.
  - destruct (comp val next).
    + rewrite IH. apply perm_swap.
    + reflexivity.
Qed.

Lemma insertion_step_perm (rprefix : list A) (val : A) :
  Permutation (insertion_step comp rprefix val) (val :: rprefix).
Proof.
  unfold insertion_step.
  destruct (rev rprefix) as [|first others] eqn:Hrev.
  - apply (f_equal (@rev A)) in Hrev. rewrite rev_involutive in Hrev.
    subst rprefix. reflexivity.
  - destruct (comp val first).
    + symmetry. apply Permutation_cons_append.
    + apply unguarded_linear_insert_perm.
Qed.

Lemma insertion_fold_perm (l acc : list A) :
  Permutation (fold_left (insertion_step comp) l acc) (acc ++ l).
Proof.
  revert acc. induction l as [|a l IH]; intros acc; simpl.
  - rewrite app_nil_r. reflexivity.
  - rewrite IH, insertion_step_perm. apply Permutation_middle.
Qed.

(** Whatever the comparator, the sorted vector holds the same pointers. *)
Lemma std_sort_perm (l : list A) : Permutation (std_sort comp l) l.
Proof.
  unfold std_sort. rewrite <- Permutation_rev.
  apply (insertion_fold_perm l []).
Qed.

(** A comparator that never answers [true] moves nothing. *)
Lemma std_sort_never (l : list A) :
  (forall a b, comp a b = false) -> std_sort comp l = l.
Proof.
  intros Hnever.
  assert (Hstep : forall rp v, insertion_step comp rp v = v :: rp).
  { intros rp v. unfold insertion_step.
    destruct (rev rp) as [|first others] eqn:Hrev.
    - apply (f_equal (@rev A)) in Hrev. rewrite rev_involutive in Hrev.
      subst rp. reflexivity.
    - rewrite Hnever. destruct rp as [|next rest]; simpl; [reflexivity|].
      rewrite Hnever. reflexivity. }
  assert (Hfold : forall acc, fold_left (insertion_step comp) l acc = rev l ++ acc).
  { induction l as [|a l' IH]; intros acc; simpl; [reflexivity|].
    rewrite IH, Hstep, <- app_assoc. reflexivity. }
  unfold std_sort. rewrite Hfold, app_nil_r. apply rev_involutive.
Qed.

End SortFacts.

(** Sorting commutes with a map that the comparator factors through. *)
Lemma std_sort_map {A B : Type} (f : A -> B) (compA : A -> A -> bool)
      (compB : B -> B -> bool) (l : list A) :
  (forall a b, compA a b = compB (f a) (f b)) ->
  map f (std_sort compA l) = std_sort compB (map f l).
Proof.
  intros Hf.
  assert (Hins : forall v rp,
             map f (unguarded_linear_insert compA v rp)
             = unguarded_linear_insert compB (f v) (map f rp)).
  { intros v rp. induction rp as [|next rest IH]; simpl; [reflexivity|].
    rewrite <- Hf. destruct (compA v next); simpl; [rewrite IH|]; reflexivity. }
  assert (Hstep : forall rp v,
             map f (insertion_step compA rp v)
             = insertion_step compB (map f rp) (f v)).
  { intros rp v. unfold insertion_step. rewrite <- map_rev.
    destruct (rev rp) as [|first others]; simpl; [reflexivity|].
    rewrite <- Hf. destruct (compA v first).
    - rewrite map_app. reflexivity.
    - apply Hins. }
  assert (Hfold : forall acc,
             map f (fold_left (insertion_step compA) l acc)
             = fold_left (insertion_step compB) (map f l) (map f acc)).
  { induction l as [|a l' IH]; intros acc; simpl; [reflexivity|].
    rewrite IH, Hstep. reflexivity. }
  unfold std_sort. rewrite map_rev, Hfold. reflexivity.
Qed.

(** ** [std_sort_numbered] *)

Section NumberedSortFacts.
Context {A : Type} (comp : nat -> A -> A -> bool).

Lemma unguarded_linear_insert_numbered_perm (n n' : nat) (val : A)
      (rprefix shifted : list A) :
  unguarded_linear_insert_numbered comp n val rprefix = Some (shifted, n') ->
  Permutation shifted (val :: rprefix).
Proof.
  revert n shifted. induction rprefix as [|next rest IH]; intros n shifted; simpl.
  - discriminate.
  - destruct (comp n val next).
    + destruct (unguarded_linear_insert_numbered comp (S n) val rest)
        as [[l k]|] eqn:Hrest; [|discriminate].
      intros [= <- <-]. rewrite (IH _ _ Hrest). apply perm_swap.
    + intros [= <- <-]. reflexivity.
Qed.

Lemma insertion_step_numbered_perm (n n' : nat) (val : A) (rprefix l : list A) :
  insertion_step_numbered comp (Some (rprefix, n)) val = Some (l, n') ->
  Permutation l (val :: rprefix).
Proof.
  unfold insertion_step_numbered.
  destruct (rev rprefix) as [|first others] eqn:Hrev.
  - apply (f_equal (@rev A)) in Hrev. rewrite rev_involutive in Hrev.
    subst rprefix. intros [= <- <-]. reflexivity.
  - destruct (comp n val first).
    + intros [= <- <-]. symmetry. apply Permutation_cons_append.
    + apply unguarded_linear_insert_numbered_perm.
Qed.

Lemma insertion_fold_numbered_none (l : list A) :
  fold_left (insertion_step_numbered comp) l None = None.
Proof. induction l as [|a l IH]; simpl; [reflexivity|exact IH]. Qed.

Lemma insertion_fold_numbered_perm (l acc r : list A) (n n' : nat) :
  fold_left (insertion_step_numbered comp) l (Some (acc, n)) = Some (r, n') ->
  Permutation r (acc ++ l).
Proof.
  revert acc n. induction l as [|a l IH]; intros acc n; cbn [fold_left].
  - intros [= <- <-]. rewrite app_nil_r. reflexivity.
  - destruct (insertion_step_numbered comp (Some (acc, n)) a) as [[acc' k]|] eqn:Hstep.
    + intros Hfold. rewrite (IH _ _ Hfold).
      rewrite (insertion_step_numbered_perm _ _ _ _ _ Hstep).
      apply Permutation_middle.
    + rewrite insertion_fold_numbered_none. discriminate.
Qed.

(** When the sort comes back, the vector holds the same pointers. *)
Lemma std_sort_numbered_perm (l sorted : list A) :
  std_sort_numbered comp l = Some sorted -> Permutation sorted l.
Proof.
  unfold std_sort_numbered.
  destruct (fold_left _ l _) as [[r k]|] eqn:Hfold; [|discriminate].
  intros [= <-]. rewrite <- Permutation_rev.
  apply (insertion_fold_numbered_perm l [] r 0 k Hfold).
Qed.

(** A comparator that gives the same answer at every comparison never takes
    the sort in front of the vector, and the sort is [std_sort]. *)
Section Steady.
Variable comp0 : A -> A -> bool.
Hypothesis steady : forall n a b, comp n a b = comp0 a b.

Lemma unguarded_linear_insert_numbered_steady (n : nat) (val first : A)
      (rprefix : list A) :
  last rprefix = Some first -> comp0 val first = false ->
  exists n',
    unguarded_linear_insert_numbered comp n val rprefix
    = Some (unguarded_linear_insert comp0 val rprefix, n').
Proof.
  intros Hlast Hfirst. revert n.
  induction rprefix as [|next rest IH]; intros n; [discriminate|].
  simpl. rewrite steady. destruct (comp0 val next) eqn:Hc.
  - destruct rest as [|r rest'].
    + simpl in Hlast. injection Hlast as <-. congruence.
    + destruct (IH Hlast (S n)) as [n' ->]. eexists. reflexivity.
  - eexists. reflexivity.
Qed.

Lemma insertion_step_numbered_steady (n : nat) (val : A) (rprefix : list A) :
  exists n',
    insertion_step_numbered comp (Some (rprefix, n)) val
    = Some (insertion_step comp0 rprefix val, n').
Proof.
  unfold insertion_step_numbered, insertion_step.
  destruct (rev rprefix) as [|first others] eqn:Hrev; [eexists; reflexivity|].
  rewrite steady. destruct (comp0 val first) eqn:Hc; [eexists; reflexivity|].
  apply unguarded_linear_insert_numbered_steady with (first := first); [|exact Hc].
  apply (f_equal (@rev A)) in Hrev. rewrite rev_involutive in Hrev.
  simpl in Hrev. subst rprefix. apply last_snoc.
Qed.

Lemma std_sort_numbered_steady (l : list A) :
  std_sort_numbered comp l = Some (std_sort comp0 l).
Proof.
  assert (Hfold : forall acc n,
             exists n', fold_left (insertion_step_numbered comp) l (Some (acc, n))
                        = Some (fold_left (insertion_step comp0) l acc, n')).
  { induction l as [|a l' IH]; intros acc n; cbn [fold_left];
      [eexists; reflexivity|].
    destruct (insertion_step_numbered_steady n a acc) as [n' ->]. apply IH. }
  unfold std_sort_numbered, std_sort. destruct (Hfold [] 0) as [n' ->].
  reflexivity.
Qed.

End Steady.

End NumberedSortFacts.

(** ** The ordering law *)

Lemma sortUpOrder_key (a b : Cell) :
  sortUpOrder a b = key_before (prio_key a) (prio_key b).
Proof. reflexivity. Qed.

Ltac order_cases :=
  repeat match goal with
         | |- context [(?x >? ?y)%Z] => rewrite (Z.gtb_ltb x y)
         | H : context [(?x >? ?y)%Z] |- _ => rewrite (Z.gtb_ltb x y) in H
         end;
  repeat match goal with
         | |- context [(?x <? ?y)%Z] => destruct (Z.ltb_spec x y)
         | H : context [(?x <? ?y)%Z] |- _ => destruct (Z.ltb_spec x y)
         end;
  try (discriminate || reflexivity || lia).

Lemma sortUpOrder_spec (a b : Cell) :
  sortUpOrder a b = true <->
  (area a > area b
   \/ (area a = area b
       /\ (dense_factor a > dense_factor b
           \/ (dense_factor a = dense_factor b /\ db_inst_id a < db_inst_id b))))%Z.
Proof.
  unfold sortUpOrder. split.
  - intros H. order_cases.
  - intros H. order_cases.
Qed.

Lemma sortUpOrder_irrefl (a : Cell) : sortUpOrder a a = false.
Proof. unfold sortUpOrder. order_cases. Qed.

Lemma sortUpOrder_trans (a b c : Cell) :
  sortUpOrder a b = true -> sortUpOrder b c = true -> sortUpOrder a c = true.
Proof. rewrite !sortUpOrder_spec. lia. Qed.

Lemma sortUpOrder_asym (a b : Cell) :
  sortUpOrder a b = true -> sortUpOrder b a = false.
Proof.
  intros H. destruct (sortUpOrder b a) eqn:Hba; [|reflexivity].
  apply sortUpOrder_spec in H. apply sortUpOrder_spec in Hba. lia.
Qed.

Lemma sortUpOrder_trichotomy (a b : Cell) :
  sortUpOrder a b = true \/ sortUpOrder b a = true \/ prio_key a = prio_key b.
Proof.
  rewrite !sortUpOrder_spec. unfold prio_key.
  destruct (Z.lt_trichotomy (area a) (area b)) as [?|[Ha|?]]; [lia| |lia].
  destruct (Z.lt_trichotomy (dense_factor a) (dense_factor b)) as [?|[Hd|?]]; [lia| |lia].
  destruct (Z.lt_trichotomy (db_inst_id a) (db_inst_id b)) as [?|[Hi|?]]; [lia| |lia].
  right. right. congruence.
Qed.

(** ** [std_sort] sorts under a strict weak order *)

Section SortSorted.
Context {A : Type} (comp : A -> A -> bool).
Hypothesis comp_irrefl : forall a, comp a a = false.
Hypothesis comp_trans : forall a b c, comp a b = true -> comp b c = true -> comp a c = true.
Hypothesis comp_negtrans :
  forall a b c, comp a b = false -> comp b c = false -> comp a c = false.

Lemma comp_asym (a b : A) : comp a b = true -> comp b a = false.
Proof.
  intros Hab. destruct (comp b a) eqn:Hba; [|reflexivity].
  rewrite <- (comp_irrefl a). symmetry. eapply comp_trans; eassumption.
Qed.

Lemma unguarded_linear_insert_sorted (val : A) (rprefix : list A) :
  StronglySorted (not_before comp) rprefix ->
  StronglySorted (not_before comp) (unguarded_linear_insert comp val rprefix).
Proof.
  induction rprefix as [|next rest IH]; simpl; intros Hs.
  - repeat constructor.
  - apply StronglySorted_cons in Hs as [Hnext Hrest].
    destruct (comp val next) eqn:Hc.
    + apply StronglySorted_cons. split; [|auto].
      rewrite unguarded_linear_insert_perm. constructor; [|exact Hnext].
      apply comp_asym, Hc.
    + apply StronglySorted_cons. split.
      * constructor; [exact Hc|].
        eapply Forall_impl; [exact Hnext|].
        intros b Hb. eapply comp_negtrans; eassumption.
      * apply StronglySorted_cons. auto.
Qed.

Lemma insertion_step_sorted (rprefix : list A) (val : A) :
  StronglySorted (not_before comp) rprefix ->
  StronglySorted (not_before comp) (insertion_step comp rprefix val).
Proof.
  intros Hs. unfold insertion_step.
  destruct (rev rprefix) as [|first others] eqn:Hrev.
  - repeat constructor.
  - destruct (comp val first) eqn:Hc.
    + apply (f_equal (@rev A)) in Hrev. rewrite rev_involutive in Hrev.
      simpl in Hrev. subst rprefix.
      apply StronglySorted_app. split; [|split; [exact Hs|repeat constructor]].
      intros a b Ha Hb. apply list_elem_of_singleton in Hb. subst b.
      unfold not_before. destruct (comp a val) eqn:Hav; [|reflexivity].
      assert (Haf : comp a first = true) by (eapply comp_trans; eassumption).
      apply elem_of_app in Ha as [Ha|Ha].
      * apply StronglySorted_app in Hs as (Hx & _ & _).
        rewrite <- Haf. apply Hx; [exact Ha|]. apply list_elem_of_singleton. reflexivity.
      * apply list_elem_of_singleton in Ha. subst a.
        rewrite comp_irrefl in Haf. discriminate.
    + apply unguarded_linear_insert_sorted, Hs.
Qed.

Lemma insertion_fold_sorted (l acc : list A) :
  StronglySorted (not_before comp) acc ->
  StronglySorted (not_before comp) (fold_left (insertion_step comp) l acc).
Proof.
  revert acc. induction l as [|a l IH]; intros acc Hs; simpl; [exact Hs|].
  apply IH, insertion_step_sorted, Hs.
Qed.

Lemma sorted_rev (l : list A) :
  StronglySorted (not_before comp) l -> StronglySorted (flip (not_before comp)) (rev l).
Proof.
  induction l as [|x l IH]; simpl; intros Hs; [constructor|].
  apply StronglySorted_cons in Hs as [Hx Hl].
  apply StronglySorted_app. split; [|split; [auto|repeat constructor]].
  intros a b Ha Hb. apply list_elem_of_singleton in Hb. subst b.
  apply list_elem_of_In, in_rev, list_elem_of_In in Ha.
  rewrite Forall_forall in Hx. apply Hx, Ha.
Qed.

(** In the sorted vector no element compares before one that precedes it. *)
Lemma std_sort_sorted (l : list A) :
  StronglySorted (fun a b => comp b a = false) (std_sort comp l).
Proof.
  unfold std_sort. apply sorted_rev, insertion_fold_sorted. constructor.
Qed.

End SortSorted.

Lemma sortUpOrder_negtrans (a b c : Cell) :
  sortUpOrder a b = false -> sortUpOrder b c = false -> sortUpOrder a c = false.
Proof.
  intros Hab Hbc. destruct (sortUpOrder a c) eqn:Hac; [|reflexivity].
  apply sortUpOrder_spec in Hac.
  destruct (sortUpOrder_trichotomy a b) as [H|[H|H]];
    [congruence| |].
  - destruct (sortUpOrder_trichotomy b c) as [H'|[H'|H']]; [congruence| |].
    + apply sortUpOrder_spec in H. apply sortUpOrder_spec in H'. lia.
    + apply sortUpOrder_spec in H. unfold prio_key in H'. injection H' as ? ? ?. lia.
  - unfold prio_key in H. injection H as ? ? ?.
    destruct (sortUpOrder_trichotomy b c) as [H'|[H'|H']]; [congruence| |].
    + apply sortUpOrder_spec in H'. lia.
    + unfold prio_key in H'. injection H' as ? ? ?. lia.
Qed.

(** ** Reasoning about programs *)

Section ProgramLogic.
Context {Grid Rng : Type}.
Implicit Types s : State Grid Rng.

Lemma preserves_ret {A} (I : State Grid Rng -> Prop) (a : A) : preserves I (ret a).
Proof. intros s Hs. exact Hs. Qed.

Lemma preserves_bind {A B} (I : State Grid Rng -> Prop)
      (m : M Grid Rng A) (k : A -> M Grid Rng B) :
  preserves I m -> (forall a, preserves I (k a)) -> preserves I (bind m k).
Proof.
  intros Hm Hk s Hs. unfold bind. specialize (Hm s Hs).
  destruct (m s) as [a s1|f s1]; simpl in *.
  - apply Hk, Hm.
  - exact Hm.
Qed.

Lemma preserves_reads {A} (I : State Grid Rng -> Prop) (m : M Grid Rng A) :
  reads m -> preserves I m.
Proof. intros Hr s Hs. destruct (Hr s) as [a ->]. exact Hs. Qed.

Lemma preserves_for_each {A} (I : State Grid Rng -> Prop)
      (l : list A) (body : A -> M Grid Rng unit) :
  (forall a, a ∈ l -> preserves I (body a)) -> preserves I (for_each l body).
Proof.
  induction l as [|a l IH]; intros Hbody; simpl.
  - apply preserves_ret.
  - apply preserves_bind.
    + apply Hbody. left.
    + intros _. apply IH. intros b Hb. apply Hbody. right. exact Hb.
Qed.

Lemma preserves_for_each_break {A} (I : State Grid Rng -> Prop)
      (l : list A) (body : A -> M Grid Rng bool) :
  (forall a, a ∈ l -> preserves I (body a)) -> preserves I (for_each_break l body).
Proof.
  induction l as [|a l IH]; intros Hbody; simpl.
  - apply preserves_ret.
  - apply preserves_bind.
    + apply Hbody. left.
    + intros [|]; [|apply preserves_ret].
      apply IH. intros b Hb. apply Hbody. right. exact Hb.
Qed.

Lemma preserves_repeat_count (I : State Grid Rng -> Prop)
      (n : nat) (body : M Grid Rng bool) (count : nat) :
  preserves I body -> preserves I (repeat_count n body count).
Proof.
  intros Hbody. revert count. induction n as [|n IH]; intros count; simpl.
  - apply preserves_ret.
  - apply preserves_bind; [exact Hbody|]. intros ok. apply IH.
Qed.

Lemma preserves_unchanged {A} (I : State Grid Rng -> Prop) (m : M Grid Rng A) :
  (forall s, final (m s) = s) -> preserves I m.
Proof. intros Hm s Hs. rewrite Hm. exact Hs. Qed.

Lemma new_calls_logged {A} (m : M Grid Rng A) s evs :
  logged s (final (m s)) evs -> new_calls m s = evs.
Proof.
  unfold logged, new_calls. intros ->. rewrite drop_app_length. reflexivity.
Qed.

(** A call logs itself. *)
Lemma log_since_call (E : Extern Grid Rng) (P : Event Grid -> Prop)
      (t0 : list (Event Grid)) (c : Call) :
  (forall w b, P {| ev_call := c; ev_pre := w; ev_ret := b |}) ->
  preserves (log_since t0 P) (call E c).
Proof.
  intros HP s (evs & Ht & Hall). unfold call.
  destruct (exec E c (world s)) as [b w]. simpl.
  exists (evs ++ [{| ev_call := c; ev_pre := world s; ev_ret := b |}]).
  rewrite Ht, app_assoc. split; [reflexivity|].
  apply Forall_app. split; [exact Hall|]. constructor; [apply HP|constructor].
Qed.

Lemma log_since_start (P : Event Grid -> Prop) s : log_since (trace s) P s.
Proof. exists []. rewrite app_nil_r. split; [reflexivity|constructor]. Qed.

Lemma log_since_snoc (P : Event Grid -> Prop) (t0 : list (Event Grid)) s s' e :
  log_since t0 P s -> trace s' = trace s ++ [e] -> P e -> log_since t0 P s'.
Proof.
  intros (evs & Ht & Hall) Hs' He. exists (evs ++ [e]).
  rewrite Hs', Ht, app_assoc. split; [reflexivity|].
  apply Forall_app. split; [exact Hall|]. constructor; [exact He|constructor].
Qed.

End ProgramLogic.

Section PlaceFacts.
Context {Grid Rng : Type}.
Variable E : Extern Grid Rng.
Implicit Types s : State Grid Rng.

Lemma reads_all_cells : reads (all_cells (Grid:=Grid) (Rng:=Rng)).
Proof. intros s. eexists. reflexivity. Qed.

Lemma reads_sort_cells comp l : reads (sort_cells (Grid:=Grid) (Rng:=Rng) comp l).
Proof. intros s. eexists. reflexivity. Qed.

Lemma reads_select keep l : reads (select (Grid:=Grid) (Rng:=Rng) keep l).
Proof. intros s. eexists. reflexivity. Qed.

(** The numbered sort leaves the state as it is, comes back with the same
    pointers or stops in front of the vector. *)
Lemma final_sort_cells_numbered comp l s :
  final (sort_cells_numbered (Grid:=Grid) (Rng:=Rng) comp l s) = s.
Proof. unfold sort_cells_numbered. destruct (std_sort_numbered _ l); reflexivity. Qed.

Lemma sort_cells_numbered_run comp l s :
  (exists sorted,
      sort_cells_numbered (Grid:=Grid) (Rng:=Rng) comp l s = Done sorted s
      /\ Permutation sorted l)
  \/ sort_cells_numbered (Grid:=Grid) (Rng:=Rng) comp l s = Aborted SortOverrun s.
Proof.
  unfold sort_cells_numbered.
  destruct (std_sort_numbered _ l) as [sorted|] eqn:Hsort; [left|right; reflexivity].
  exists sorted. split; [reflexivity|].
  eapply std_sort_numbered_perm, Hsort.
Qed.

Lemma sort_cells_numbered_one comp (p : CellPtr) s :
  sort_cells_numbered (Grid:=Grid) (Rng:=Rng) comp [p] s = Done [p] s.
Proof. reflexivity. Qed.

(** What one call does to the state. *)
Lemma call_run (c : Call) s :
  call E c s = Done (call_answer E c s) (after_call E c s).
Proof.
  unfold call, after_call, call_answer.
  destruct (exec E c (world s)) as [b w]. reflexivity.
Qed.

Lemma bind_ret {A B} (a : A) (k : A -> M Grid Rng B) s : bind (ret a) k s = k a s.
Proof. reflexivity. Qed.

Lemma bind_done {A B} (m : M Grid Rng A) (k : A -> M Grid Rng B) s a s' :
  m s = Done a s' -> bind m k s = k a s'.
Proof. intros H. unfold bind. rewrite H. reflexivity. Qed.

Lemma bind_aborted {A B} (m : M Grid Rng A) (k : A -> M Grid Rng B) s f s' :
  m s = Aborted f s' -> bind m k s = Aborted f s'.
Proof. intros H. unfold bind. rewrite H. reflexivity. Qed.

Lemma bind_deref {B} (p : CellPtr) (k : Cell -> M Grid Rng B) s :
  bind (deref p) k s = k (cell_at (world s) p) s.
Proof. reflexivity. Qed.

Lemma bind_call {B} (c : Call) (k : bool -> M Grid Rng B) s :
  bind (call E c) k s = k (call_answer E c s) (after_call E c s).
Proof. apply bind_done, call_run. Qed.

Lemma bind_all_cells {B} (k : list CellPtr -> M Grid Rng B) s :
  bind all_cells k s = k (seq 0 (length (cells_ (world s)))) s.
Proof. reflexivity. Qed.

Lemma bind_sort_cells {B} comp l (k : list CellPtr -> M Grid Rng B) s :
  bind (sort_cells comp l) k s
  = k (std_sort (fun p q => comp (cell_at (world s) p) (cell_at (world s) q)) l) s.
Proof. reflexivity. Qed.

Lemma bind_select {B} keep l (k : list CellPtr -> M Grid Rng B) s :
  bind (select keep l) k s
  = k (filter (fun p => keep (cell_at (world s) p) = true) l) s.
Proof. reflexivity. Qed.

Lemma bind_assoc {A B C} (m : M Grid Rng A) (k : A -> M Grid Rng B)
      (h : B -> M Grid Rng C) s :
  bind (bind m k) h s = bind m (fun a => bind (k a) h) s.
Proof. unfold bind. destruct (m s); reflexivity. Qed.

Lemma trace_after_call (c : Call) s :
  trace (after_call E c s)
  = trace s ++ [{| ev_call := c; ev_pre := world s; ev_ret := call_answer E c s |}].
Proof. reflexivity. Qed.

End PlaceFacts.

(** ** Rollback of a failed group *)

Section Rollback.
Context {Grid Rng : Type}.
Variable E : Extern Grid Rng.
Hypothesis release_ok : release_contract E.
Implicit Types s : State Grid Rng.

(** Erasing a vector of cells: one [erase_pixel] each, in order; none of
    them is placed afterwards, and no cell that was free became placed. *)
Lemma erase_loop (l : list CellPtr) s :
  exists s' evs,
    for_each l (fun p => erase_pixel E p ;; ret tt) s = Done tt s'
    /\ logged s s' evs
    /\ map ev_call evs = map ErasePixel l
    /\ (forall p, p ∈ l -> is_placed (cell_at (world s') p) = false)
    /\ (forall q, is_placed (cell_at (world s) q) = false ->
                  is_placed (cell_at (world s') q) = false).
Proof.
  destruct release_ok as [Hreset Hkeep].
  revert s. induction l as [|p l IH]; intros s; simpl.
  - exists s, []. unfold logged. rewrite app_nil_r.
    repeat split; auto. intros p Hp. inversion Hp.
  - rewrite bind_assoc. unfold erase_pixel. rewrite bind_call, bind_ret.
    destruct (IH (after_call E (ErasePixel p) s))
      as (s' & evs & Hrun & Hlog & Hcalls & Hin & Hout).
    eexists s', (_ :: evs). split; [exact Hrun|]. split; [|split; [|split]].
    + unfold logged in *. rewrite Hlog, trace_after_call, <- app_assoc. reflexivity.
    + simpl. rewrite Hcalls. reflexivity.
    + intros q Hq. apply elem_of_cons in Hq as [->|Hq].
      * apply Hout. simpl. apply Hreset.
      * apply Hin, Hq.
    + intros q Hq. apply Hout. simpl. apply Hkeep, Hq.
Qed.

End Rollback.

(** C1. When the greedy pass of a group fails (one of [single_pass],
    [multi_pass] is [false]), [erase_pixel] is called on every sibling, in
    order, and only then the brick placer of the group starts: it starts in a
    state where no sibling of the group is placed.  The grid service is
    assumed to keep the contract of release. *)
Theorem group_rollback_before_brick :
  forall Grid Rng (E : Extern Grid Rng) (group : Group)
         (s s1 : State Grid Rng) (single_pass multi_pass : bool),
    release_contract E ->
    group_greedy E group s = Done (single_pass, multi_pass) s1 ->
    single_pass = false \/ multi_pass = false ->
    exists s2 evs,
      erase_group E group s1 = Done tt s2
      /\ logged s1 s2 evs
      /\ map ev_call evs = map ErasePixel (siblings group)
      /\ (forall p, p ∈ siblings group -> is_placed (cell_at (world s2) p) = false)
      /\ group_cell_placement_group E group s
         = (if util_above_095 group then brick_placement_1 E group s2
            else brick_placement_2 E group s2).
Proof.
  intros Grid Rng E group s s1 single_pass multi_pass Hrel Hgreedy Hfail.
  destruct (erase_loop E Hrel (siblings group) s1)
    as (s2 & evs & Hrun & Hlog & Hcalls & Hin & _).
  exists s2, evs. repeat (split; [assumption|]).
  unfold group_cell_placement_group.
  rewrite (bind_done _ _ _ _ _ Hgreedy).
  assert (Hcond : negb single_pass || negb multi_pass = true)
    by (destruct Hfail as [-> | ->]; [reflexivity | destruct single_pass; reflexivity]).
  rewrite Hcond. unfold erase_group in *.
  rewrite (bind_done _ _ _ _ _ Hrun). destruct (util_above_095 group); reflexivity.
Qed.

Lemma toy_release_contract (junk : Z * Z) : release_contract (Toy.E junk).
Proof.
  assert (Hsame : forall p (cells : list Cell),
             is_placed (cell_at (Toy.with_cells (alter Toy.release p cells)) p) = false).
  { intros p cells. unfold cell_at, Toy.with_cells, cells_.
    rewrite list_lookup_alter_eq. destruct (cells !! p); reflexivity. }
  split.
  - intros p w. apply Hsame.
  - intros p q w Hq. destruct (decide (p = q)) as [->|Hne]; [apply Hsame|].
    unfold cell_at in *. cbn [exec Toy.E Toy.run_call snd Toy.with_cells cells_].
    rewrite list_lookup_alter_ne by exact Hne. exact Hq.
Qed.

(** The rollback on the group with an obstacle: the first multi-row cell is
    committed, the second fails, and the three siblings are released. *)
Lemma group_rollback_before_brick_witness :
  exists s2 evs,
    erase_group (Toy.E (3, 4)%Z) (Inputs.trio_group (96 # 100))
                (final (group_greedy (Toy.E (3, 4)%Z) (Inputs.trio_group (96 # 100))
                                     (Toy.start Inputs.blocked)))
    = Done tt s2
    /\ logged (final (group_greedy (Toy.E (3, 4)%Z) (Inputs.trio_group (96 # 100))
                                   (Toy.start Inputs.blocked))) s2 evs
    /\ map ev_call evs = map ErasePixel [0; 1; 2]
    /\ (forall p, p ∈ [0; 1; 2] -> is_placed (cell_at (world s2) p) = false)
    /\ group_cell_placement_group (Toy.E (3, 4)%Z) (Inputs.trio_group (96 # 100))
                                  (Toy.start Inputs.blocked)
       = (if util_above_095 (Inputs.trio_group (96 # 100))
          then brick_placement_1 (Toy.E (3, 4)%Z) (Inputs.trio_group (96 # 100)) s2
          else brick_placement_2 (Toy.E (3, 4)%Z) (Inputs.trio_group (96 # 100)) s2).
Proof.
  apply (group_rollback_before_brick Toy.Grid Toy.Rng (Toy.E (3, 4)%Z)
           (Inputs.trio_group (96 # 100)) (Toy.start Inputs.blocked) _ true false).
  - apply toy_release_contract.
  - vm_compute. reflexivity.
  - right. reflexivity.
Defined.

(** ** Determinism *)

Section Determinism.
Context {Grid Rng : Type}.
Variable E : Extern Grid Rng.
Variable D : Design.
Implicit Types s : State Grid Rng.

Lemma same_run_refl {A} (r : Res Grid Rng A) : same_run r r.
Proof. destruct r; repeat split. Qed.

Lemma same_but_rng_eq s1 s2 (g : Rng) :
  same_but_rng s1 s2 -> with_rng g s1 = with_rng g s2.
Proof. intros [Hw Ht]. unfold with_rng. rewrite Hw, Ht. reflexivity. Qed.

Lemma rng_blind_ret {A} (a : A) : rng_blind (ret (Grid:=Grid) (Rng:=Rng) a).
Proof. intros s1 s2 H. split; [reflexivity|exact H]. Qed.

Lemma rng_blind_abort {A} (f : Fault) : rng_blind (@abort Grid Rng A f).
Proof. intros s1 s2 H. split; [reflexivity|exact H]. Qed.

Lemma rng_blind_bind {A B} (m : M Grid Rng A) (k : A -> M Grid Rng B) :
  rng_blind m -> (forall a, rng_blind (k a)) -> rng_blind (bind m k).
Proof.
  intros Hm Hk s1 s2 H. unfold bind. specialize (Hm s1 s2 H).
  destruct (m s1) as [a1 t1|f1 t1], (m s2) as [a2 t2|f2 t2]; simpl in Hm;
    try contradiction.
  - destruct Hm as [<- Ht]. apply Hk, Ht.
  - exact Hm.
Qed.

(** A program that only reads the cells, the grid and the log. *)
Lemma rng_blind_read {A} (f : World Grid -> A) :
  rng_blind (fun s => Done (f (world s)) s).
Proof. intros s1 s2 H. split; [|exact H]. destruct H as [-> _]. reflexivity. Qed.

Lemma rng_blind_deref (p : CellPtr) : rng_blind (deref (Grid:=Grid) (Rng:=Rng) p).
Proof. apply (rng_blind_read (fun w => cell_at w p)). Qed.

Lemma rng_blind_all_cells : rng_blind (all_cells (Grid:=Grid) (Rng:=Rng)).
Proof. apply (rng_blind_read (fun w => seq 0 (length (cells_ w)))). Qed.

Lemma rng_blind_sort_cells comp l :
  rng_blind (sort_cells (Grid:=Grid) (Rng:=Rng) comp l).
Proof.
  apply (rng_blind_read
           (fun w => std_sort (fun p q => comp (cell_at w p) (cell_at w q)) l)).
Qed.

Lemma rng_blind_sort_cells_numbered comp l :
  rng_blind (sort_cells_numbered (Grid:=Grid) (Rng:=Rng) comp l).
Proof.
  intros s1 s2 [Hw Ht]. unfold sort_cells_numbered. rewrite Hw.
  destruct (std_sort_numbered _ l); repeat split; assumption.
Qed.

Lemma rng_blind_select keep l : rng_blind (select (Grid:=Grid) (Rng:=Rng) keep l).
Proof.
  intros s1 s2 [Hw Ht]. unfold select. rewrite Hw. repeat split; assumption.
Qed.

Lemma rng_blind_call (c : Call) : rng_blind (call E c).
Proof.
  intros s1 s2 [Hw Ht]. rewrite !call_run. unfold after_call, call_answer.
  simpl. rewrite Hw, Ht. repeat split; reflexivity.
Qed.

Lemma rng_blind_hold_true (p : CellPtr) :
  rng_blind (hold_true (Grid:=Grid) (Rng:=Rng) p).
Proof. intros s1 s2 [Hw Ht]. simpl. rewrite Hw. repeat split; assumption. Qed.

Lemma rng_blind_for_each {A} (l : list A) (body : A -> M Grid Rng unit) :
  (forall a, rng_blind (body a)) -> rng_blind (for_each l body).
Proof.
  intros Hbody. induction l as [|a l IH]; simpl.
  - apply rng_blind_ret.
  - apply rng_blind_bind; [apply Hbody|intros _; exact IH].
Qed.

Lemma rng_blind_for_each_break {A} (l : list A) (body : A -> M Grid Rng bool) :
  (forall a, rng_blind (body a)) -> rng_blind (for_each_break l body).
Proof.
  intros Hbody. induction l as [|a l IH]; simpl.
  - apply rng_blind_ret.
  - apply rng_blind_bind; [apply Hbody|].
    intros [|]; [exact IH|apply rng_blind_ret].
Qed.

(** A program that starts with [srand] forgets the state of the generator
    altogether. *)
Lemma reseeded_eq {A} (seed : Z) (k : M Grid Rng A) s1 s2 :
  same_but_rng s1 s2 ->
  bind (libc_srand E seed) (fun _ => k) s1 = bind (libc_srand E seed) (fun _ => k) s2.
Proof.
  intros H. unfold bind, libc_srand.
  change (k (with_rng (srand E seed) s1) = k (with_rng (srand E seed) s2)).
  rewrite (same_but_rng_eq s1 s2 _ H). reflexivity.
Qed.

Lemma rng_blind_reseeded {A} (seed : Z) (k : M Grid Rng A) :
  rng_blind (bind (libc_srand E seed) (fun _ => k)).
Proof.
  intros s1 s2 H. rewrite (reseeded_eq seed k s1 s2 H). apply same_run_refl.
Qed.

Ltac blind :=
  unfold map_move, map_move_at, shift_move, erase_pixel, swap_cell, refine_move,
    group_cell_region_assign, non_group_cell_region_assign;
  repeat first
    [ apply rng_blind_ret
    | apply rng_blind_abort
    | apply rng_blind_call
    | apply rng_blind_deref
    | apply rng_blind_all_cells
    | apply rng_blind_sort_cells
    | apply rng_blind_sort_cells_numbered
    | apply rng_blind_select
    | apply rng_blind_hold_true
    | apply rng_blind_reseeded
    | apply rng_blind_bind; [|intros ?]
    | apply rng_blind_for_each; intros ?
    | apply rng_blind_for_each_break; intros ?
    | match goal with
      | |- rng_blind (if ?c then _ else _) => destruct c
      | |- rng_blind (match ?x with _ => _ end) => destruct x
      end ].

Lemma rng_blind_refine_loop (size : nat) (percent : Q) (rest : list CellPtr)
      (i count : nat) :
  rng_blind (refine_loop E size percent rest i count).
Proof.
  revert i count. induction rest as [|p rest IH]; intros i count; simpl.
  - blind.
  - destruct (below i size percent); [|blind].
    apply rng_blind_bind; [blind|]. intros cell.
    destruct (negb (hold cell)); [|apply IH].
    apply rng_blind_bind; [blind|]. intros ok. apply IH.
Qed.

Lemma rng_blind_group_refine (group : Group) : rng_blind (group_refine E D group).
Proof.
  unfold group_refine. apply rng_blind_bind; [blind|]. intros sorted.
  apply rng_blind_refine_loop.
Qed.

Lemma rng_blind_group_annealing (group : Group) :
  rng_blind (group_annealing E group).
Proof. unfold group_annealing. blind. Qed.

Lemma rng_blind_rounds (rounds : nat) (group : Group) :
  rng_blind (refine_anneal_rounds E D rounds group).
Proof.
  induction rounds as [|rounds IH]; simpl; [blind|].
  apply rng_blind_bind; [apply rng_blind_group_refine|]. intros count_a.
  apply rng_blind_bind; [apply rng_blind_group_annealing|]. intros count_b.
  destruct ((count_a <? 10) || (count_b <? 100)); [blind|].
  apply rng_blind_bind; [exact IH|]. intros later. blind.
Qed.

Lemma rng_blind_all_groups_rounds (groups : list Group) :
  rng_blind (all_groups_rounds E D groups).
Proof.
  induction groups as [|group groups IH]; cbn [all_groups_rounds]; [blind|].
  apply rng_blind_bind; [apply rng_blind_rounds|]. intros counts.
  apply rng_blind_bind; [exact IH|]. intros later. blind.
Qed.

Lemma rng_blind_group_cell_pre_placement : rng_blind (group_cell_pre_placement E D).
Proof. unfold group_cell_pre_placement, group_cell_pre_placement_cell. blind. Qed.

Lemma rng_blind_non_group_cell_pre_placement :
  rng_blind (non_group_cell_pre_placement E D).
Proof.
  unfold non_group_cell_pre_placement, non_group_cell_pre_placement_cell. blind.
Qed.

Lemma rng_blind_group_cell_placement : rng_blind (group_cell_placement E D).
Proof.
  unfold group_cell_placement, group_cell_placement_group, group_greedy,
    place_multi, place_single, erase_group, brick_placement_1, brick_placement_2,
    brick_placement_1_loop, brick_placement_2_loop.
  blind.
Qed.

Lemma rng_blind_non_group_cell_placement : rng_blind (non_group_cell_placement E).
Proof. unfold non_group_cell_placement. blind. Qed.

Lemma rng_blind_simplePlacement (verbose : bool) :
  rng_blind (simplePlacement E D verbose).
Proof.
  unfold simplePlacement.
  apply rng_blind_bind; [blind|]. intros _.
  apply rng_blind_bind; [blind|]. intros _.
  apply rng_blind_bind.
  { destruct (0 <? length (groups_ D)); [|blind].
    apply rng_blind_bind; [apply rng_blind_group_cell_pre_placement|]. intros _.
    apply rng_blind_non_group_cell_pre_placement. }
  intros _. apply rng_blind_bind.
  { destruct (0 <? length (groups_ D)); [|blind].
    apply rng_blind_bind; [apply rng_blind_group_cell_placement|]. intros _.
    apply rng_blind_all_groups_rounds. }
  intros counts.
  apply rng_blind_bind; [apply rng_blind_non_group_cell_placement|]. intros _.
  blind.
Qed.

End Determinism.

Section Annealing.
Context {Grid Rng : Type}.
Variable E : Extern Grid Rng.
Implicit Types s : State Grid Rng.

Lemma pick_run (v : list CellPtr) s :
  v <> [] ->
  exists q, pick E v s = Done q (with_rng (snd (rand E (rng s))) s).
Proof.
  intros Hv. unfold pick, bind, libc_rand, with_rng.
  destruct (rand E (rng s)) as [r g]. simpl.
  assert (Hlt : N.to_nat (r mod N.of_nat (length v)) < length v).
  { assert (Hlen : N.of_nat (length v) <> 0%N) by (destruct v; [congruence|discriminate]).
    pose proof (N.mod_lt r _ Hlen). lia. }
  destruct (lookup_lt_is_Some_2 v _ Hlt) as [q ->]. exists q. reflexivity.
Qed.

Lemma anneal_trial_run (v : list CellPtr) s :
  v <> [] ->
  exists ok s',
    anneal_trial E v s = Done ok s' /\ rng s' = after_trial E (rng s).
Proof.
  intros Hv. unfold anneal_trial.
  destruct (pick_run v s Hv) as [cellA HA]. rewrite (bind_done _ _ _ _ _ HA).
  destruct (pick_run v (with_rng (snd (rand E (rng s))) s) Hv) as [cellB HB].
  rewrite (bind_done _ _ _ _ _ HB).
  rewrite !bind_deref.
  destruct (negb (hold _) && negb (hold _)).
  - unfold swap_cell. rewrite call_run. eexists _, _. split; reflexivity.
  - eexists _, _. split; reflexivity.
Qed.

Lemma repeat_count_run (n : nat) (body : M Grid Rng bool) (f : Rng -> Rng)
      (count : nat) s :
  (forall s, exists ok s', body s = Done ok s' /\ rng s' = f (rng s)) ->
  exists count' s',
    repeat_count n body count s = Done count' s'
    /\ rng s' = Nat.iter n f (rng s)
    /\ count <= count' <= count + n.
Proof.
  intros Hbody. revert count s. induction n as [|n IH]; intros count s; simpl.
  - exists count, s. repeat split; lia.
  - destruct (Hbody s) as (ok & s1 & Hrun & Hrng).
    rewrite (bind_done _ _ _ _ _ Hrun).
    destruct (IH (if ok then S count else count) s1) as (count' & s' & Hrest & Hrng' & Hcount).
    exists count', s'. split; [exact Hrest|]. split.
    + rewrite Hrng', Hrng. apply Nat.iter_swap.
    + destruct ok; lia.
Qed.

(** [group_annealing] always finishes: it reseeds with 777 and runs 1000
    trials per sibling, two calls of [rand] each. *)
Lemma group_annealing_run (group : Group) s :
  exists count s',
    group_annealing E group s = Done count s'
    /\ count <= 1000 * length (siblings group)
    /\ rng s' = Nat.iter (1000 * length (siblings group)) (after_trial E) (srand E 777).
Proof.
  unfold group_annealing.
  change (bind (libc_srand E 777) ?k s) with (k tt (with_rng (srand E 777) s)).
  cbv beta.
  destruct (siblings group) as [|p l] eqn:Hsib.
  - rewrite Nat.mul_0_r. simpl. eexists _, _. repeat split. lia.
  - destruct (repeat_count_run (1000 * length (p :: l)) (anneal_trial E (p :: l))
                (after_trial E) 0 (with_rng (srand E 777) s))
      as (count & s' & Hrun & Hrng & Hcount).
    + intros s0. apply anneal_trial_run. discriminate.
    + exists count, s'. split; [exact Hrun|]. split; [lia|exact Hrng].
Qed.

End Annealing.

(** X13. The outcome of [simplePlacement] (how it ends, the counts of the
    refine/anneal rounds, the cells with their coordinates, the grid and the
    calls made) does not depend on the state the generator is found in.
    [group_annealing] reseeds with 777 on entry, so it does not depend on it
    at all, the generator it leaves included; it always finishes, after 1000
    trials per sibling. *)
Theorem outcome_independent_of_rand_state :
  forall Grid Rng (E : Extern Grid Rng) (D : Design) (verbose : bool)
         (s : State Grid Rng) (g1 g2 : Rng),
    same_run (simplePlacement E D verbose (with_rng g1 s))
             (simplePlacement E D verbose (with_rng g2 s))
    /\ (forall group,
           group_annealing E group (with_rng g1 s)
           = group_annealing E group (with_rng g2 s))
    /\ (forall group,
           exists count s',
             group_annealing E group s = Done count s'
             /\ count <= 1000 * length (siblings group)
             /\ rng s' = Nat.iter (1000 * length (siblings group))
                                  (after_trial E) (srand E 777)).
Proof.
  intros Grid Rng E D verbose s g1 g2.
  assert (Hsame : same_but_rng (with_rng g1 s) (with_rng g2 s)) by (split; reflexivity).
  split; [|split].
  - apply rng_blind_simplePlacement, Hsame.
  - intros group. unfold group_annealing. apply reseeded_eq, Hsame.
  - intros group. apply group_annealing_run.
Qed.

(** Two runs that end the same way leave the same cells. *)
Lemma same_run_cells {Grid Rng A} (r1 r2 : Res Grid Rng A) :
  same_run r1 r2 -> cells_ (world (final r1)) = cells_ (world (final r2)).
Proof.
  destruct r1, r2; simpl; try contradiction; intros [_ [-> _]]; reflexivity.
Qed.

(** C2, on the code: two runs of [simplePlacement] on the same design, the
    same cells and the same grid need not end the same.  A group of one
    sibling whose target site is taken fails its greedy pass and, at a
    utilization of 0.96, goes to [brick_placement_1], which commits the cell
    at whatever its never-assigned [x_tar], [y_tar] hold.  When they hold
    (0, 0), the taken site, the sibling stays unplaced; when they hold
    (3, 4) it is placed at (3, 4). *)
Theorem placement_outcome_depends_on_unassigned_locals :
  map (fun c => (is_placed c, x_ c, y_ c))
      (cells_ (world (final (simplePlacement (Toy.E (0, 0)%Z) Inputs.solo true
                                             (Toy.start Inputs.lone_blocked)))))
  = [(false, 0, 0); (true, 0, 0)]%Z
  /\ map (fun c => (is_placed c, x_ c, y_ c))
         (cells_ (world (final (simplePlacement (Toy.E (3, 4)%Z) Inputs.solo true
                                                (Toy.start Inputs.lone_blocked)))))
     = [(true, 3, 4); (true, 0, 0)]%Z
  /\ ~ same_run (simplePlacement (Toy.E (0, 0)%Z) Inputs.solo true
                                 (Toy.start Inputs.lone_blocked))
                (simplePlacement (Toy.E (3, 4)%Z) Inputs.solo true
                                 (Toy.start Inputs.lone_blocked)).
Proof.
  assert (H00 : map is_placed
                    (cells_ (world (final (simplePlacement (Toy.E (0, 0)%Z) Inputs.solo
                                             true (Toy.start Inputs.lone_blocked)))))
                = [false; true]) by (vm_compute; reflexivity).
  assert (H34 : map is_placed
                    (cells_ (world (final (simplePlacement (Toy.E (3, 4)%Z) Inputs.solo
                                             true (Toy.start Inputs.lone_blocked)))))
                = [true; true]) by (vm_compute; reflexivity).
  split; [vm_compute; reflexivity|]. split; [vm_compute; reflexivity|].
  intros Hsame. apply same_run_cells in Hsame.
  rewrite Hsame in H00. rewrite H00 in H34. clear -H34. discriminate H34.
Qed.

(** ** The ordering law *)

Lemma law_example_sorted (l : list Cell) :
  Permutation (map prio_key l) [(10, 1, 5); (10, 2, 3); (5, 1, 9)]%Z ->
  map prio_key (std_sort sortUpOrder l) = [(10, 2, 3); (10, 1, 5); (5, 1, 9)]%Z.
Proof.
  intros Hperm. rewrite (std_sort_map prio_key sortUpOrder key_before l sortUpOrder_key).
  symmetry in Hperm. apply permutations_Permutation in Hperm.
  set (orders := permutations _) in Hperm. vm_compute in orders. subst orders.
  repeat (apply elem_of_cons in Hperm as [->|Hperm]; [vm_compute; reflexivity|]).
  inversion Hperm.
Qed.

(** The same through pointers, as the placers sort their [cell_list]. *)
Lemma law_example_cell_list {Grid Rng} (s : State Grid Rng) (ptrs : list CellPtr) :
  Permutation (map (fun p => prio_key (cell_at (world s) p)) ptrs)
              [(10, 1, 5); (10, 2, 3); (5, 1, 9)]%Z ->
  exists sorted,
    sort_cells sortUpOrder ptrs s = Done sorted s
    /\ map (fun p => prio_key (cell_at (world s) p)) sorted
       = [(10, 2, 3); (10, 1, 5); (5, 1, 9)]%Z.
Proof.
  intros Hperm. eexists. split; [reflexivity|].
  rewrite (std_sort_map (fun p => prio_key (cell_at (world s) p)) _ key_before)
    by (intros a b; apply sortUpOrder_key).
  symmetry in Hperm. apply permutations_Permutation in Hperm.
  set (orders := permutations _) in Hperm. vm_compute in orders. subst orders.
  repeat (apply elem_of_cons in Hperm as [->|Hperm]; [vm_compute; reflexivity|]).
  inversion Hperm.
Qed.

(** C3. [sortUpOrder] is a strict total order on cells with distinct ids:
    irreflexive, transitive, asymmetric, and any two cells are ordered one way or the
    other unless they agree on area, dense factor and id.  It puts the larger
    area first, on equal areas the larger dense factor, on equal dense
    factors the smaller id.  Sorting with it gives a vector in which no cell
    comes before a cell of higher priority.  Cells with areas 10, 10, 5,
    dense factors 1, 2, 1 and ids 5, 3, 9, in any order, are sorted to ids 3,
    5, 9, by value and through the pointers of a [cell_list], and both
    greedy placers attempt three such single-row cells in that order. *)
Theorem sortUpOrder_ordering_law :
  (forall a, sortUpOrder a a = false)
  /\ (forall a b c,
         sortUpOrder a b = true -> sortUpOrder b c = true -> sortUpOrder a c = true)
  /\ (forall a b, sortUpOrder a b = true -> sortUpOrder b a = false)
  /\ (forall a b,
         sortUpOrder a b = true \/ sortUpOrder b a = true \/ prio_key a = prio_key b)
  /\ (forall a b,
         sortUpOrder a b = true <->
         (area a > area b
          \/ (area a = area b
              /\ (dense_factor a > dense_factor b
                  \/ (dense_factor a = dense_factor b
                      /\ db_inst_id a < db_inst_id b))))%Z)
  /\ (forall l : list Cell,
         Permutation (std_sort sortUpOrder l) l
         /\ StronglySorted (fun a b => sortUpOrder b a = false) (std_sort sortUpOrder l))
  /\ (forall l : list Cell,
         Permutation (map prio_key l) [(10, 1, 5); (10, 2, 3); (5, 1, 9)]%Z ->
         map prio_key (std_sort sortUpOrder l)
         = [(10, 2, 3); (10, 1, 5); (5, 1, 9)]%Z)
  /\ (forall Grid Rng (s : State Grid Rng) (ptrs : list CellPtr),
         Permutation (map (fun p => prio_key (cell_at (world s) p)) ptrs)
                     [(10, 1, 5); (10, 2, 3); (5, 1, 9)]%Z ->
         exists sorted,
           sort_cells sortUpOrder ptrs s = Done sorted s
           /\ map (fun p => prio_key (cell_at (world s) p)) sorted
              = [(10, 2, 3); (10, 1, 5); (5, 1, 9)]%Z)
  /\ map ev_call (new_calls (non_group_cell_placement (Toy.E (3, 4)%Z))
                            (Toy.start (Inputs.law_cells None)))
     = [MapMove 1; MapMove 0; MapMove 2]
  /\ map ev_call (new_calls (group_greedy (Toy.E (3, 4)%Z) (Inputs.trio_group (1 # 2)))
                            (Toy.start (Inputs.law_cells (Some 0))))
     = [MapMove 1; MapMove 0; MapMove 2].
Proof.
  split; [exact sortUpOrder_irrefl|].
  split; [exact sortUpOrder_trans|].
  split; [exact sortUpOrder_asym|].
  split; [exact sortUpOrder_trichotomy|].
  split; [exact sortUpOrder_spec|].
  split.
  { intros l. split; [apply std_sort_perm|].
    apply (std_sort_sorted sortUpOrder sortUpOrder_irrefl sortUpOrder_trans
             sortUpOrder_negtrans). }
  split; [exact law_example_sorted|].
  split; [intros Grid Rng; exact law_example_cell_list|].
  split; vm_compute; reflexivity.
Qed.

(** ** The grouped greedy pass *)

Section Greedy.
Context {Grid Rng : Type}.
Variable E : Extern Grid Rng.
Implicit Types s : State Grid Rng.

Lemma place_multi_one : one_map_move E (place_multi E).
Proof.
  intros p s. unfold place_multi. rewrite bind_deref.
  destruct (negb (isFixed E _) && negb (is_placed _)); [|auto].
  destruct (inGroup _); [|auto].
  destruct (isMulti _); [|auto].
  right. left. apply call_run.
Qed.

Lemma place_single_one : one_map_move E (place_single E).
Proof.
  intros p s. unfold place_single. rewrite bind_deref.
  destruct (negb (isFixed E _) && negb (is_placed _)); [|auto].
  destruct (inGroup _); [|auto].
  destruct (negb (isMulti _)); [|auto].
  right. left. apply call_run.
Qed.

(** A loop of such rounds logs [map_move] calls only, and is left at the
    first one that fails. *)
Lemma greedy_loop (body : CellPtr -> M Grid Rng bool) (l : list CellPtr) s :
  one_map_move E body ->
  exists evs,
    logged s (final (for_each_break l body s)) evs
    /\ Forall is_map_move evs
    /\ match for_each_break l body s with
       | Done passed _ => pass_log passed evs
       | Aborted _ _ => Forall succeeded evs
       end.
Proof.
  intros Hbody. revert s. induction l as [|p l IH]; intros s; simpl.
  - exists []. unfold logged. rewrite app_nil_r. repeat split; constructor.
  - destruct (Hbody p s) as [Hrun|[Hrun|Hrun]].
    + rewrite (bind_done _ _ _ _ _ Hrun). apply IH.
    + rewrite (bind_done _ _ _ _ _ Hrun).
      set (e := {| ev_call := MapMove p; ev_pre := world s;
                   ev_ret := call_answer E (MapMove p) s |}).
      assert (He : is_map_move e) by (exists p; reflexivity).
      destruct (call_answer E (MapMove p) s) eqn:Hans.
      * destruct (IH (after_call E (MapMove p) s)) as (evs & Hlog & Hall & Hout).
        exists (e :: evs). split; [|split].
        -- unfold logged in *. rewrite Hlog, trace_after_call, <- app_assoc, Hans.
           reflexivity.
        -- constructor; assumption.
        -- destruct (for_each_break l body _) as [[|] s'|f s']; simpl in *.
           ++ constructor; [reflexivity|exact Hout].
           ++ destruct Hout as (before & e' & -> & Hbefore & He').
              exists (e :: before), e'. repeat split; [|exact He'].
              constructor; [reflexivity|exact Hbefore].
           ++ constructor; [reflexivity|exact Hout].
      * exists [e]. split; [|split].
        -- unfold logged. simpl. rewrite Hans. reflexivity.
        -- repeat constructor. exact He.
        -- simpl. exists [], e. repeat split; constructor.
    + rewrite (bind_aborted _ _ _ _ _ Hrun). exists [].
      unfold logged. simpl. rewrite app_nil_r. repeat split; constructor.
Qed.

Lemma pass_log_app (evs1 evs2 : list (Event Grid)) (passed : bool) :
  Forall succeeded evs1 -> pass_log passed evs2 -> pass_log passed (evs1 ++ evs2).
Proof.
  intros H1 H2. destruct passed; simpl in *.
  - apply Forall_app. auto.
  - destruct H2 as (before & e & -> & Hbefore & He).
    exists (evs1 ++ before), e. rewrite app_assoc. repeat split; [|exact He].
    apply Forall_app. auto.
Qed.

Lemma group_greedy_log (group : Group) s :
  exists evs,
    logged s (final (group_greedy E group s)) evs
    /\ Forall is_map_move evs
    /\ forall single_pass multi_pass,
        value (group_greedy E group s) = Some (single_pass, multi_pass) ->
        pass_log (single_pass && multi_pass) evs.
Proof.
  unfold group_greedy. rewrite bind_select, bind_sort_cells. cbv beta.
  set (cell_list := std_sort _ _).
  destruct (greedy_loop (place_multi E) cell_list s place_multi_one)
    as (evs1 & Hlog1 & Hall1 & Hout1).
  destruct (for_each_break cell_list (place_multi E) s) as [multi s1|f s1] eqn:Hmulti.
  - rewrite (bind_done _ _ _ _ _ Hmulti). simpl in Hlog1. destruct multi.
    + destruct (greedy_loop (place_single E) cell_list s1 place_single_one)
        as (evs2 & Hlog2 & Hall2 & Hout2).
      exists (evs1 ++ evs2).
      destruct (for_each_break cell_list (place_single E) s1)
        as [single s2|f s2] eqn:Hsingle.
      * rewrite (bind_done _ _ _ _ _ Hsingle). simpl in *. split; [|split].
        -- unfold logged in *. rewrite Hlog2, Hlog1, app_assoc. reflexivity.
        -- apply Forall_app. auto.
        -- intros sp mp [= <- <-]. rewrite andb_true_r.
           apply pass_log_app; assumption.
      * rewrite (bind_aborted _ _ _ _ _ Hsingle). simpl in *. split; [|split].
        -- unfold logged in *. rewrite Hlog2, Hlog1, app_assoc. reflexivity.
        -- apply Forall_app. auto.
        -- intros sp mp [=].
    + exists evs1. simpl. split; [exact Hlog1|]. split; [exact Hall1|].
      intros sp mp [= <- <-]. exact Hout1.
  - rewrite (bind_aborted _ _ _ _ _ Hmulti). exists evs1. simpl in *.
    split; [exact Hlog1|]. split; [exact Hall1|]. intros sp mp [=].
Qed.

(** Nothing on the grouped path calls [shift_move]: not the two loops, not
    the rollback, not the brick placers. *)
Lemma group_cell_placement_never_shifts (D : Design) (t0 : list (Event Grid)) :
  preserves (log_since t0 not_shift) (group_cell_placement E D).
Proof.
  unfold group_cell_placement, group_cell_placement_group, group_greedy,
    place_multi, place_single, erase_group, brick_placement_1, brick_placement_2,
    brick_placement_1_loop, brick_placement_2_loop, map_move, map_move_at,
    erase_pixel.
  repeat first
    [ apply preserves_ret
    | apply preserves_unchanged; intros ?; apply final_sort_cells_numbered
    | apply preserves_reads; solve [intros ?; eexists; reflexivity]
    | apply log_since_call; intros ? ? ?; discriminate
    | apply preserves_bind; [|intros ?]
    | apply preserves_for_each; intros ? _
    | apply preserves_for_each_break; intros ? _
    | match goal with
      | |- preserves _ (if ?c then _ else _) => destruct c
      | |- preserves _ (match ?x with _ => _ end) => destruct x
      end
    | solve [intros ? Hs; exact Hs] ].
Qed.

End Greedy.

(** C4, as stated, fails: on the group with an obstacle the second
    multi-row sibling fails its direct placement, the multi-row pass is
    declared failed ([multi_pass] is [false]), and no [shift_move] was
    called. *)
Lemma grouped_shift_fallback_counterexample :
  ~ shift_fallback_in_group (Toy.E (3, 4)%Z) (Inputs.trio_group (96 # 100))
      (Toy.start Inputs.blocked).
Proof.
  intros Hclaim.
  destruct (Hclaim 1 {| ev_call := MapMove 1;
                       ev_pre := world (final (map_move (Toy.E (3, 4)%Z) 0
                                                  (Toy.start Inputs.blocked)));
                       ev_ret := false |}) as (e' & Hin & Hcall).
  - vm_compute. right. left.
  - reflexivity.
  - reflexivity.
  - vm_compute in Hin.
    repeat (apply elem_of_cons in Hin as [->|Hin]; [discriminate Hcall|]).
    inversion Hin.
Qed.

(** C4, amended. In the grouped scope there is no shift fallback: no call
    made by [group_cell_placement] is a [shift_move], and the greedy pass of
    a group calls [map_move] and nothing else.  The pass goes through exactly
    when every direct placement succeeded; otherwise the first direct
    placement that fails ends it (it is the last call of the pass). *)
Theorem grouped_pass_aborts_on_failed_map_move :
  forall Grid Rng (E : Extern Grid Rng) (D : Design) (group : Group)
         (s : State Grid Rng),
    Forall not_shift (new_calls (group_cell_placement E D) s)
    /\ Forall is_map_move (new_calls (group_greedy E group) s)
    /\ forall single_pass multi_pass,
        value (group_greedy E group s) = Some (single_pass, multi_pass) ->
        pass_log (single_pass && multi_pass) (new_calls (group_greedy E group) s).
Proof.
  intros Grid Rng E D group s. split.
  - destruct (group_cell_placement_never_shifts E D (trace s) s
                (log_since_start not_shift s)) as (evs & Hlog & Hall).
    rewrite (new_calls_logged _ _ _ Hlog). exact Hall.
  - destruct (group_greedy_log E group s) as (evs & Hlog & Hall & Hout).
    rewrite (new_calls_logged _ _ _ Hlog). split; assumption.
Qed.
(** ** Brick placement *)

Section Brick.
Context {Grid Rng : Type}.
Variable E : Extern Grid Rng.
Implicit Types s : State Grid Rng.

(** The loop of [brick_placement_1] makes one [map_move(cell, x_tar, y_tar)]
    per element, in the order of the vector. *)
Lemma brick_placement_1_loop_run (boundary : adsRect) (order : list CellPtr) s :
  exists s' evs,
    brick_placement_1_loop E boundary order s = Done tt s'
    /\ logged s s' evs
    /\ map ev_call evs
       = map (fun p => MapMoveAt p (uninit_x_tar E) (uninit_y_tar E)) order.
Proof.
  unfold brick_placement_1_loop. revert s.
  induction order as [|p order IH]; intros s; simpl.
  - exists s, []. unfold logged. rewrite app_nil_r. repeat split.
  - rewrite bind_assoc, bind_deref, bind_assoc. unfold map_move_at.
    rewrite bind_call, bind_ret.
    match goal with |- context [for_each order ?b ?s1] =>
      destruct (IH s1) as (s' & evs & Hrun & Hlog & Hall) end.
    eexists s', (_ :: evs). split; [exact Hrun|]. split.
    + unfold logged in *. rewrite Hlog, trace_after_call, <- app_assoc. reflexivity.
    + simpl. rewrite Hall. reflexivity.
Qed.



(** With one sibling the sort has nothing to compare. *)
Lemma brick_placement_1_one (group : Group) (p : CellPtr) s :
  siblings group = [p] ->
  brick_placement_1 E group s
  = Done tt (after_call E (MapMoveAt p (uninit_x_tar E) (uninit_y_tar E)) s).
Proof.
  intros Hsib. unfold brick_placement_1. rewrite Hsib.
  rewrite (bind_done _ _ _ _ _ (sort_cells_numbered_one _ p s)).
  unfold brick_placement_1_loop. simpl.
  rewrite bind_assoc, bind_deref, bind_assoc. unfold map_move_at.
  rewrite bind_call. reflexivity.
Qed.

Lemma brick_placement_2_one (group : Group) (p : CellPtr) s :
  siblings group = [p] -> hold (cell_at (world s) p) = false ->
  brick_placement_2 E group s
  = Done tt (after_call E (MapMoveAt p (uninit_x_tar E) (uninit_y_tar E)) s).
Proof.
  intros Hsib Hhold. unfold brick_placement_2. rewrite Hsib.
  rewrite (bind_done _ _ _ _ _ (sort_cells_numbered_one _ p s)).
  unfold brick_placement_2_loop. simpl.
  rewrite bind_assoc, bind_deref, Hhold. simpl.
  rewrite bind_assoc. unfold map_move_at. rewrite bind_call. reflexivity.
Qed.

Lemma brick_placement_1_unassigned (group : Group) (t0 : list (Event Grid)) :
  preserves (log_since t0 (unassigned_attempt E)) (brick_placement_1 E group).
Proof.
  unfold brick_placement_1, brick_placement_1_loop, map_move_at.
  apply preserves_bind;
    [apply preserves_unchanged; intros ?; apply final_sort_cells_numbered|].
  intros sorted. apply preserves_for_each. intros p _.
  apply preserves_bind; [apply preserves_reads; intros ?; eexists; reflexivity|].
  intros cell. apply preserves_bind; [|intros ?; apply preserves_ret].
  apply log_since_call. intros w b. exists p. reflexivity.
Qed.

Lemma brick_placement_2_unassigned (group : Group) (t0 : list (Event Grid)) :
  preserves (log_since t0 (unassigned_attempt E)) (brick_placement_2 E group).
Proof.
  unfold brick_placement_2, brick_placement_2_loop, map_move_at.
  apply preserves_bind;
    [apply preserves_unchanged; intros ?; apply final_sort_cells_numbered|].
  intros sorted. apply preserves_for_each. intros p _.
  apply preserves_bind; [apply preserves_reads; intros ?; eexists; reflexivity|].
  intros cell. destruct (negb (hold cell)); [|apply preserves_ret].
  apply preserves_bind; [|intros ?; apply preserves_ret].
  apply log_since_call. intros w b. exists p. reflexivity.
Qed.

(** The loop of [brick_placement_2] over pointers that are all in [l]. *)
Lemma brick_placement_2_loop_unheld (l : list CellPtr) (t0 : list (Event Grid))
      (order : list CellPtr) s :
  (forall p, p ∈ order -> p ∈ l) ->
  log_since t0 (unheld_attempt_on l) s ->
  exists s',
    brick_placement_2_loop E order s = Done tt s'
    /\ log_since t0 (unheld_attempt_on l) s'.
Proof.
  unfold brick_placement_2_loop. revert s.
  induction order as [|p order IH]; intros s Hin Hlog; simpl.
  - exists s. split; [reflexivity|exact Hlog].
  - rewrite bind_assoc, bind_deref.
    destruct (hold (cell_at (world s) p)) eqn:Hhold; simpl.
    + rewrite bind_ret. apply IH; [|exact Hlog].
      intros q Hq. apply Hin. right. exact Hq.
    + rewrite bind_assoc. unfold map_move_at. rewrite bind_call, bind_ret.
      apply IH; [intros q Hq; apply Hin; right; exact Hq|].
      eapply log_since_snoc; [exact Hlog|apply trace_after_call|].
      eexists p, _, _. simpl. split; [reflexivity|]. split; [|exact Hhold].
      apply Hin. left.
Qed.


End Brick.

(** ** The grouped refiner *)

(** The comparator of [group_refine] compares the displacement of [cell1]
    with itself, so the sort leaves [siblings] as it is. *)
Lemma group_refine_vector_order {Grid Rng} (E : Extern Grid Rng) (D : Design)
      (group : Group) (s : State Grid Rng) :
  group_refine E D group s
  = refine_loop E (length (siblings group)) (group_refine_percent_ D)
                (siblings group) 0 0 s.
Proof.
  unfold group_refine. rewrite bind_sort_cells, std_sort_never; [reflexivity|].
  intros a b. rewrite Z.gtb_ltb. apply Z.ltb_irrefl.
Qed.

(** C5, on the code: [group_refine] does not sort by displacement.  On a
    group of at most 16 siblings its loop runs over [siblings] in the order
    they are stored.  With two placed siblings, the first displaced by 1 and
    the second by 5, and [group_refine_percent_] one half, the one move
    attempted is on the first, the less displaced one; [non_group_refine] on
    the same two cells outside a group attempts the second. *)
Theorem group_refine_is_not_sorted_by_displacement :
  (forall Grid Rng (E : Extern Grid Rng) (D : Design) (group : Group)
          (s : State Grid Rng),
      length (siblings group) <= 16 ->
      group_refine E D group s
      = refine_loop E (length (siblings group)) (group_refine_percent_ D)
                    (siblings group) 0 0 s)
  /\ map Toy.displacement (Inputs.displaced (Some 0)) = [1; 5]%Z
  /\ Toy.calls (final (group_refine (Toy.E (3, 4)%Z) Inputs.half
                                    (Inputs.pair_group (1 # 2))
                                    (Toy.start (Inputs.displaced (Some 0)))))
     = [(RefineMove 0, true)]
  /\ Toy.calls (final (non_group_refine (Toy.E (3, 4)%Z) Inputs.half
                                        (Toy.start (Inputs.displaced None))))
     = [(RefineMove 1, true)].
Proof.
  split; [intros; apply group_refine_vector_order|].
  repeat split; vm_compute; reflexivity.
Qed.

(** ** The targets of brick placement *)

(** C6, on the code: [brick_placement_1] never assigns [x_tar] and [y_tar].
    Every direct commit it attempts is at the coordinates found in the two
    unassigned locals, whatever the cell and the bounding rectangle are.  For
    a cell with target (8, 8) and the bounding rectangle from (0, 0) to
    (10, 10) the nearest corner is (10, 10); the attempt is made at whatever
    [junk] the locals hold. *)
Theorem brick_1_attempts_at_unassigned_coordinates :
  (forall Grid Rng (E : Extern Grid Rng) (group : Group) (s : State Grid Rng),
      Forall (fun e => exists p,
                  ev_call e = MapMoveAt p (uninit_x_tar E) (uninit_y_tar E))
             (new_calls (brick_placement_1 E group) s))
  /\ (forall junk : Z * Z,
         rectDist_locals (Toy.E junk) (cell_at (Toy.with_cells Inputs.upper_right) 0)
                         (boundary Inputs.single_group) (fst junk) (snd junk)
         = (10, 10)%Z
         /\ map ev_call (new_calls (brick_placement_1 (Toy.E junk) Inputs.single_group)
                                   (Toy.start Inputs.upper_right))
            = [MapMoveAt 0 (fst junk) (snd junk)]).
Proof.
  split.
  - intros Grid Rng E group s.
    destruct (brick_placement_1_unassigned E group (trace s) s
                (log_since_start _ s)) as (evs & Hlog & Hall).
    rewrite (new_calls_logged _ _ _ Hlog). exact Hall.
  - intros junk. split; [reflexivity|].
    unfold new_calls.
    rewrite (brick_placement_1_one (Toy.E junk) Inputs.single_group 0 _ eq_refl).
    reflexivity.
Qed.

(** ** The pre-placement snap *)

Section SnapFacts.
Context {Grid Rng : Type}.
Variable E : Extern Grid Rng.
Variable D : Design.
Implicit Types s : State Grid Rng.

(** The flag and the pointer after scanning [rects]: those of the last
    overlapping rectangle, if there is one. *)
Lemma scan_regions_last (cell : Cell) (rects : list adsRect)
      (acc : bool * option adsRect) :
  fold_left (fun acc rect =>
               if check_overlap E cell rect then (true, Some rect) else acc)
            rects acc
  = match last (List.filter (check_overlap E cell) rects) with
    | Some rect => (true, Some rect)
    | None => acc
    end.
Proof.
  revert acc. induction rects as [|rect rects IH]; intros acc; simpl.
  - reflexivity.
  - rewrite IH. destruct (check_overlap E cell rect) eqn:Hov.
    + destruct (List.filter (check_overlap E cell) rects) as [|r rs] eqn:Hf;
        simpl; [reflexivity|].
      destruct (last (r :: rs)) eqn:Hl; [reflexivity|].
      apply last_None in Hl. discriminate.
    + reflexivity.
Qed.

Lemma scan_groups_concat (cell : Cell) (groups : list Group)
      (acc : bool * option adsRect) :
  fold_left
    (fun acc group =>
       fold_left (fun acc rect =>
                    if check_overlap E cell rect then (true, Some rect) else acc)
                 (regions group) acc)
    groups acc
  = fold_left (fun acc rect =>
                 if check_overlap E cell rect then (true, Some rect) else acc)
              (concat (map regions groups)) acc.
Proof.
  revert acc. induction groups as [|g groups IH]; intros acc; simpl.
  - reflexivity.
  - rewrite IH, fold_left_app. reflexivity.
Qed.

Lemma overlap_scan_last (cell : Cell) :
  overlap_scan E D cell
  = match last (overlapped E D cell) with
    | Some rect => (true, Some rect)
    | None => (false, None)
    end.
Proof.
  unfold overlap_scan, overlapped, all_regions.
  rewrite scan_groups_concat. apply scan_regions_last.
Qed.

Lemma snap_cell_last_overlap (p : CellPtr) s :
  non_group_cell_pre_placement_cell E D p s = snap_to_last_overlap E D p s.
Proof.
  unfold non_group_cell_pre_placement_cell, snap_to_last_overlap.
  rewrite bind_deref, overlap_scan_last.
  destruct (inGroup (cell_at (world s) p)), (is_placed (cell_at (world s) p));
    simpl; try reflexivity.
  destruct (last (overlapped E D (cell_at (world s) p))) as [target|];
    [|reflexivity].
  unfold map_move_at. rewrite bind_call.
  destruct (call_answer E _ s); reflexivity.
Qed.

Lemma for_each_ext {A} (l : list A) (f g : A -> M Grid Rng unit) s :
  (forall a s, f a s = g a s) -> for_each l f s = for_each l g s.
Proof.
  intros Hfg. revert s. induction l as [|a l IH]; intros s; simpl.
  - reflexivity.
  - unfold bind. rewrite Hfg. destruct (g a s); [apply IH|reflexivity].
Qed.

End SnapFacts.

(** C7, as stated, fails: the free cell with target (3, 0) overlaps
    [square] first and [wide] second; the nearest boundary coordinate of
    [square] is (0, 0), and the one commit attempted is at (2, 0), on the
    boundary of [wide]. *)
Lemma snap_to_first_overlap_counterexample :
  ~ snaps_to_first_overlap (Toy.E (3, 4)%Z) Inputs.two_fences 0
      (Toy.start Inputs.straddler).
Proof.
  intros Hclaim.
  destruct (Hclaim eq_refl eq_refl Inputs.square eq_refl) as (e & Hin & Hcall).
  vm_compute in Hin.
  apply elem_of_cons in Hin as [->|Hin]; [discriminate Hcall|inversion Hin].
Qed.

(** C7, amended. For a cell that is neither grouped nor placed and overlaps
    a region of some group, the snap target is the nearest boundary
    coordinate of the last overlapping region in group/region iteration
    order; one commit is attempted there, and [hold] is set to [true]
    exactly when it succeeds.  A cell that overlaps no region is left
    untouched.  The whole pass does this for the cells of [cells_] in
    order. *)
Theorem snap_targets_last_overlapping_region :
  forall Grid Rng (E : Extern Grid Rng) (D : Design) (s : State Grid Rng),
    (forall p, non_group_cell_pre_placement_cell E D p s
               = snap_to_last_overlap E D p s)
    /\ non_group_cell_pre_placement E D s
       = for_each (seq 0 (length (cells_ (world s)))) (snap_to_last_overlap E D) s.
Proof.
  intros Grid Rng E D s. split.
  - intros p. apply snap_cell_last_overlap.
  - unfold non_group_cell_pre_placement. rewrite bind_all_cells.
    apply for_each_ext. intros p s'. apply snap_cell_last_overlap.
Qed.

(** ** The round cutoff *)

Lemma rounds_cutoff {Grid Rng} (E : Extern Grid Rng) (D : Design) (group : Group)
      (rounds : nat) (s s' : State Grid Rng) (counts : list (nat * nat)) :
  refine_anneal_rounds E D rounds group s = Done counts s' ->
  rounds_run E D group s counts s'
  /\ length counts <= rounds
  /\ (0 < rounds -> 0 < length counts)
  /\ (forall i c, S i < length counts -> counts !! i = Some c -> ~ trips c)
  /\ (forall c, length counts < rounds -> last counts = Some c -> trips c).
Proof.
  revert s counts. induction rounds as [|rounds IH]; intros s counts; simpl.
  - intros [= <- <-]. split; [constructor|]. split; [simpl; lia|].
    split; [lia|].
    split; [intros i c Hi; simpl in Hi; lia|intros c Hlen; simpl in Hlen; lia].
  - destruct (group_refine E D group s) as [count_a s1|f s1] eqn:Hrefine;
      [rewrite (bind_done _ _ _ _ _ Hrefine)
      |rewrite (bind_aborted _ _ _ _ _ Hrefine); discriminate].
    destruct (group_annealing E group s1) as [count_b s2|f s2] eqn:Hanneal;
      [rewrite (bind_done _ _ _ _ _ Hanneal)
      |rewrite (bind_aborted _ _ _ _ _ Hanneal); discriminate].
    destruct ((count_a <? 10) || (count_b <? 100)) eqn:Htrip.
    + intros [= <- <-]. split; [|split; [|split; [|split]]].
      * econstructor; [eassumption..|constructor].
      * simpl. lia.
      * simpl. lia.
      * intros i c Hi. simpl in Hi. lia.
      * intros c _ [= <-]. unfold trips. simpl.
        apply orb_true_iff in Htrip as [H|H]; apply Nat.ltb_lt in H; auto.
    + destruct (refine_anneal_rounds E D rounds group s2) as [later s3|f s3] eqn:Hlater;
        [rewrite (bind_done _ _ _ _ _ Hlater)
        |rewrite (bind_aborted _ _ _ _ _ Hlater); discriminate].
      intros [= <- <-].
      destruct (IH _ _ Hlater) as (Hrun & Hlen & Hpos & Hbefore & Hlast).
      split; [|split; [|split; [|split]]].
      * econstructor; eassumption.
      * simpl. lia.
      * simpl. lia.
      * intros [|i] c Hi Hc; simpl in *.
        -- injection Hc as <-. unfold trips. simpl.
           apply orb_false_iff in Htrip as [Ha Hb].
           apply Nat.ltb_ge in Ha, Hb. lia.
        -- apply (Hbefore i c); [lia|exact Hc].
      * intros c Hlen' Hc. simpl in Hlen'.
        destruct later as [|c' later']; [simpl in Hpos; lia|].
        apply (Hlast c); [lia|]. exact Hc.
Qed.

(** C8. In [simplePlacement] the groups get their rounds in the order of
    [groups_], every round one [group_refine] followed by one
    [group_annealing].  For each group at least one and at most three rounds
    run; no round before the last one has a refine count below 10 or an
    anneal count below 100; when fewer than three rounds ran, the last one
    has, and it is the last round executed: the next group starts, and the
    loop ends, in the very state that round left, log of calls included, so
    nothing ran after it. *)
Theorem round_cutoff_after_tripping_round :
  forall Grid Rng (E : Extern Grid Rng) (D : Design) (groups : list Group)
         (s s' : State Grid Rng) (all_counts : list (list (nat * nat))),
    all_groups_rounds E D groups s = Done all_counts s' ->
    cutoff_groups_run E D groups s all_counts s'.
Proof.
  intros Grid Rng E D groups. induction groups as [|group groups IH];
    intros s s' all_counts; cbn [all_groups_rounds].
  - intros [= <- <-]. constructor.
  - destruct (refine_anneal_rounds E D 3 group s) as [counts s1|f s1] eqn:Hrounds;
      [rewrite (bind_done _ _ _ _ _ Hrounds)
      |rewrite (bind_aborted _ _ _ _ _ Hrounds); discriminate].
    destruct (all_groups_rounds E D groups s1) as [later s2|f s2] eqn:Hlater;
      [rewrite (bind_done _ _ _ _ _ Hlater)
      |rewrite (bind_aborted _ _ _ _ _ Hlater); discriminate].
    intros [= <- <-].
    destruct (rounds_cutoff E D group 3 s s1 counts Hrounds)
      as (Hrun & Hlen & Hpos & Hbefore & Hlast).
    econstructor; [exact Hrun| |apply (IH s1 s2), Hlater].
    split; [lia|]. split; assumption.
Qed.

(** The rounds of the group of two displaced cells: the first round moves
    one cell and swaps none, and is the last; the loop ends in the state it
    left, after one [refine_move] and no [swap_cell] that went through. *)
Lemma round_cutoff_after_tripping_round_witness :
  cutoff_groups_run (Toy.E (3, 4)%Z) Inputs.half (groups_ Inputs.half)
    (Toy.start (Inputs.displaced (Some 0))) [[(1, 0)]]
    (final (all_groups_rounds (Toy.E (3, 4)%Z) Inputs.half
              (groups_ Inputs.half) (Toy.start (Inputs.displaced (Some 0))))).
Proof.
  apply (round_cutoff_after_tripping_round Toy.Grid Toy.Rng (Toy.E (3, 4)%Z)
           Inputs.half (groups_ Inputs.half)
           (Toy.start (Inputs.displaced (Some 0)))
           (final (all_groups_rounds (Toy.E (3, 4)%Z) Inputs.half
                     (groups_ Inputs.half) (Toy.start (Inputs.displaced (Some 0)))))).
  vm_compute. reflexivity.
Defined.

(** ** Held cells under refinement and annealing *)

Section HoldFreeze.
Context {Grid Rng : Type}.
Variable E : Extern Grid Rng.
Variable D : Design.
Hypothesis frame : moves_only_its_cells E.
Variable p : CellPtr.
Variable held : Cell.
Hypothesis held_hold : hold held = true.
Variable t0 : list (Event Grid).
Implicit Types s : State Grid Rng.

Lemma kept_frozen {A} (m : M Grid Rng A) s :
  (forall t, preserves (kept p (cell_at (world s) p) t) m) -> frozen p m s.
Proof.
  intros Hm. destruct (Hm (trace s) s) as [Hcell (evs & Hlog & Hall)].
  - split; [reflexivity|apply log_since_start].
  - split; [exact Hcell|].
    rewrite (new_calls_logged m s evs Hlog). exact Hall.
Qed.

Lemma kept_refine_loop (size : nat) (percent : Q) (rest : list CellPtr) (i count : nat) :
  preserves (kept p held t0) (refine_loop E size percent rest i count).
Proof.
  destruct frame as [Hrefine _].
  revert i count. induction rest as [|q rest IH]; intros i count s Hs; simpl.
  - destruct (below i size percent); exact Hs.
  - destruct (below i size percent); [|exact Hs].
    rewrite bind_deref.
    destruct (hold (cell_at (world s) q)) eqn:Hq; simpl.
    + apply IH, Hs.
    + unfold refine_move. rewrite bind_call. apply IH.
      destruct Hs as [Hcell Hlog].
      assert (Hne : q <> p) by (intros ->; congruence).
      split.
      * simpl. rewrite Hrefine by congruence. exact Hcell.
      * eapply log_since_snoc; [exact Hlog|apply trace_after_call|exact Hne].
Qed.

Lemma kept_libc_srand (seed : Z) :
  preserves (kept p held t0) (libc_srand E seed).
Proof. intros s Hs. exact Hs. Qed.

Lemma kept_pick (v : list CellPtr) : preserves (kept p held t0) (pick E v).
Proof.
  intros s Hs. unfold pick, bind, libc_rand.
  destruct (rand E (rng s)) as [r g]. destruct (v !! _); exact Hs.
Qed.

Lemma kept_anneal_trial (v : list CellPtr) :
  preserves (kept p held t0) (anneal_trial E v).
Proof.
  destruct frame as [_ Hswap].
  unfold anneal_trial.
  apply preserves_bind; [apply kept_pick|]. intros cellA.
  apply preserves_bind; [apply kept_pick|]. intros cellB.
  intros s Hs. rewrite !bind_deref.
  destruct (hold (cell_at (world s) cellA)) eqn:HA; [exact Hs|].
  destruct (hold (cell_at (world s) cellB)) eqn:HB; [exact Hs|]. simpl.
  unfold swap_cell. rewrite call_run. simpl.
  destruct Hs as [Hcell Hlog].
  assert (HneA : cellA <> p) by (intros ->; congruence).
  assert (HneB : cellB <> p) by (intros ->; congruence).
  split.
  - simpl. rewrite Hswap by congruence. exact Hcell.
  - eapply log_since_snoc; [exact Hlog|reflexivity|]. split; assumption.
Qed.

Lemma kept_group_refine (group : Group) :
  preserves (kept p held t0) (group_refine E D group).
Proof.
  unfold group_refine.
  apply preserves_bind; [apply preserves_reads, reads_sort_cells|].
  intros sorted. apply kept_refine_loop.
Qed.

Lemma kept_non_group_refine : preserves (kept p held t0) (non_group_refine E D).
Proof.
  unfold non_group_refine.
  apply preserves_bind; [apply preserves_reads, reads_all_cells|]. intros cells.
  apply preserves_bind; [apply preserves_reads, reads_select|]. intros chosen.
  apply preserves_bind; [apply preserves_reads, reads_sort_cells|]. intros sorted.
  apply kept_refine_loop.
Qed.

Lemma kept_group_annealing (group : Group) :
  preserves (kept p held t0) (group_annealing E group).
Proof.
  unfold group_annealing.
  apply preserves_bind; [apply kept_libc_srand|]. intros _.
  apply preserves_repeat_count, kept_anneal_trial.
Qed.

Lemma kept_non_group_annealing : preserves (kept p held t0) (non_group_annealing E).
Proof.
  unfold non_group_annealing.
  apply preserves_bind; [apply kept_libc_srand|]. intros _.
  apply preserves_bind; [apply preserves_reads, reads_all_cells|]. intros cells.
  apply preserves_repeat_count, kept_anneal_trial.
Qed.

End HoldFreeze.

(** C9. When the grid service moves only the cells it is asked to move,
    a cell whose [hold] is [true] is frozen under [group_refine],
    [non_group_refine], [group_annealing] and [non_group_annealing]: every
    call they make is a [refine_move] of another cell or a [swap_cell] of two
    other cells, and the cell is afterwards as it was, position included. *)
Theorem hold_freezes_cell_under_refine_and_anneal :
  forall Grid Rng (E : Extern Grid Rng) (D : Design) (p : CellPtr)
         (s : State Grid Rng),
    moves_only_its_cells E ->
    hold (cell_at (world s) p) = true ->
    (forall group, frozen p (group_refine E D group) s)
    /\ frozen p (non_group_refine E D) s
    /\ (forall group, frozen p (group_annealing E group) s)
    /\ frozen p (non_group_annealing E) s.
Proof.
  intros Grid Rng E D p s Hframe Hheld.
  split; [|split; [|split]].
  - intros group. apply kept_frozen. intros t.
    apply kept_group_refine; assumption.
  - apply kept_frozen. intros t. apply kept_non_group_refine; assumption.
  - intros group. apply kept_frozen. intros t.
    apply kept_group_annealing; assumption.
  - apply kept_frozen. intros t. apply kept_non_group_annealing; assumption.
Qed.

Lemma toy_cell_at_alter_ne (f : Cell -> Cell) (q p : CellPtr) (cells : list Cell) :
  p <> q -> cell_at (Toy.with_cells (alter f q cells)) p = cell_at (Toy.with_cells cells) p.
Proof.
  intros Hne. unfold cell_at, Toy.with_cells, cells_.
  rewrite list_lookup_alter_ne by congruence. reflexivity.
Qed.

Lemma toy_commit_frame (w : World Toy.Grid) (q p : CellPtr) (x y : Z) :
  p <> q -> cell_at (snd (Toy.commit w q x y)) p = cell_at w p.
Proof.
  intros Hne. unfold Toy.commit.
  destruct ((q <? length (cells_ w)) && negb (Toy.taken (cells_ w) q x y));
    [|reflexivity].
  simpl. rewrite toy_cell_at_alter_ne by exact Hne. reflexivity.
Qed.

Lemma toy_moves_only_its_cells (junk : Z * Z) : moves_only_its_cells (Toy.E junk).
Proof.
  split.
  - intros q p w Hne. cbn [exec Toy.E Toy.run_call].
    destruct (is_placed (cell_at w q) && (0 <? Toy.displacement (cell_at w q))%Z);
      [|reflexivity].
    apply toy_commit_frame, Hne.
  - intros a b p w Ha Hb. cbn [exec Toy.E Toy.run_call].
    match goal with |- context [if ?c then _ else _] => destruct c end;
      [|reflexivity].
    simpl. rewrite !toy_cell_at_alter_ne by assumption. reflexivity.
Qed.

(** The held cell of the pair, under the four passes. *)
Lemma hold_freezes_cell_under_refine_and_anneal_witness :
  (forall group, frozen 0 (group_refine (Toy.E (3, 4)%Z) Inputs.half group)
                        (Toy.start Inputs.held_pair))
  /\ frozen 0 (non_group_refine (Toy.E (3, 4)%Z) Inputs.half)
              (Toy.start Inputs.held_pair)
  /\ (forall group, frozen 0 (group_annealing (Toy.E (3, 4)%Z) group)
                           (Toy.start Inputs.held_pair))
  /\ frozen 0 (non_group_annealing (Toy.E (3, 4)%Z)) (Toy.start Inputs.held_pair).
Proof.
  apply (hold_freezes_cell_under_refine_and_anneal Toy.Grid Toy.Rng (Toy.E (3, 4)%Z)
           Inputs.half 0 (Toy.start Inputs.held_pair)).
  - apply toy_moves_only_its_cells.
  - reflexivity.
Defined.
(** ** Brick placement and held cells *)


(** * Further properties *)

(** ** The non-grouped greedy placer *)

Section NonGroupGreedy.
Context {Grid Rng : Type}.
Variable E : Extern Grid Rng.
Implicit Types s : State Grid Rng.

Lemma attempt_loop (multi : bool) (body : CellPtr -> M Grid Rng unit)
      (l : list CellPtr) s :
  one_attempt E multi body ->
  exists s' evs,
    for_each l body s = Done tt s'
    /\ logged s s' evs
    /\ fallback_log evs
    /\ Forall (map_move_tier multi) evs
    /\ Forall (call_on_one_of l) evs.
Proof.
  intros Hbody. revert s. induction l as [|p l IH]; intros s; simpl.
  - exists s, []. unfold logged. rewrite app_nil_r.
    repeat split; constructor.
  - assert (Hweak : forall evs : list (Event Grid),
               Forall (call_on_one_of l) evs -> Forall (call_on_one_of (p :: l)) evs).
    { intros evs Hall. eapply Forall_impl; [exact Hall|].
      intros e (q & Hq & Hin). exists q.
      split; [exact Hq|]. right. exact Hin. }
    destruct (Hbody p s) as [Hrun|[Htier [[Hans Hrun]|[Hans Hrun]]]];
      rewrite (bind_done _ _ _ _ _ Hrun).
    + destruct (IH s) as (s' & evs & Hrest & Hlog & Hfb & Htiers & Hin).
      exists s', evs. repeat split; auto.
    + destruct (IH (after_call E (MapMove p) s))
        as (s' & evs & Hrest & Hlog & Hfb & Htiers & Hin).
      eexists s', (_ :: evs). split; [exact Hrest|]. split; [|split; [|split]].
      * unfold logged in *. rewrite Hlog, trace_after_call, <- app_assoc. reflexivity.
      * eapply fallback_direct; [reflexivity|exact Hans|exact Hfb].
      * constructor; [|exact Htiers]. intros q [= <-]. exact Htier.
      * constructor; [|apply Hweak, Hin]. exists p. split; [reflexivity|left].
    + destruct (IH (after_call E (ShiftMove p) (after_call E (MapMove p) s)))
        as (s' & evs & Hrest & Hlog & Hfb & Htiers & Hin).
      eexists s', (_ :: _ :: evs). split; [exact Hrest|]. split; [|split; [|split]].
      * unfold logged in *. rewrite Hlog, !trace_after_call, <- !app_assoc. reflexivity.
      * eapply fallback_shift; [reflexivity|exact Hans|reflexivity|exact Hfb].
      * constructor; [intros q [= <-]; exact Htier|].
        constructor; [intros q [=]|exact Htiers].
      * constructor; [exists p; split; [reflexivity|left]|].
        constructor; [exists p; split; [reflexivity|left]|apply Hweak, Hin].
Qed.

Lemma multi_round_one_attempt :
  one_attempt E true
    (fun p =>
       do cell <- deref p;
       let macro := cell_macro cell in
       if isMulti macro then
         do ok <- map_move E p;
         if negb ok then (shift_move E p ;; ret tt) else ret tt
       else ret tt).
Proof.
  intros p s. rewrite bind_deref. cbv zeta.
  destruct (isMulti (cell_macro (cell_at (world s) p))) eqn:Hm; [|left; reflexivity].
  right. split; [reflexivity|]. unfold map_move. rewrite bind_call.
  destruct (call_answer E (MapMove p) s); simpl.
  - left. split; reflexivity.
  - right. split; [reflexivity|]. unfold shift_move. rewrite bind_call. reflexivity.
Qed.

Lemma single_round_one_attempt :
  one_attempt E false
    (fun p =>
       do cell <- deref p;
       let macro := cell_macro cell in
       if negb (isMulti macro) then
         do ok <- map_move E p;
         if negb ok then (shift_move E p ;; ret tt) else ret tt
       else ret tt).
Proof.
  intros p s. rewrite bind_deref. cbv zeta.
  destruct (isMulti (cell_macro (cell_at (world s) p))) eqn:Hm; [left; reflexivity|].
  right. split; [reflexivity|]. unfold map_move. simpl. rewrite bind_call.
  destruct (call_answer E (MapMove p) s); simpl.
  - left. split; reflexivity.
  - right. split; [reflexivity|]. unfold shift_move. rewrite bind_call. reflexivity.
Qed.

(** The whole pass: it finishes; its log is the log of the multi-row loop
    followed by the log of the single-row loop; every call is on a cell that
    was free when the pass started. *)
Lemma non_group_cell_placement_log s :
  exists s' multi_evs single_evs,
    non_group_cell_placement E s = Done tt s'
    /\ logged s s' (multi_evs ++ single_evs)
    /\ fallback_log multi_evs /\ fallback_log single_evs
    /\ Forall (map_move_tier true) multi_evs
    /\ Forall (map_move_tier false) single_evs
    /\ Forall (on_free_cell E s) (multi_evs ++ single_evs).
Proof.
  unfold non_group_cell_placement.
  rewrite bind_all_cells, bind_select, bind_sort_cells. cbv beta.
  set (cell_list := std_sort _ _).
  assert (Hfree : forall evs : list (Event Grid),
             Forall (call_on_one_of cell_list) evs -> Forall (on_free_cell E s) evs).
  { intros evs Hall. eapply Forall_impl; [exact Hall|].
    intros e (p & Hp & Hin). exists p.
    split; [exact Hp|]. unfold cell_list in Hin. rewrite std_sort_perm in Hin.
    apply list_elem_of_filter in Hin as [Hkeep Hseq].
    apply elem_of_seq in Hseq.
    apply negb_true_iff, orb_false_iff in Hkeep as [Hkeep Hplaced].
    apply orb_false_iff in Hkeep as [Hfixed Hgroup].
    repeat split; [lia|assumption..]. }
  destruct (attempt_loop true _ cell_list s multi_round_one_attempt)
    as (s1 & evs1 & Hrun1 & Hlog1 & Hfb1 & Htier1 & Hin1).
  destruct (attempt_loop false _ cell_list s1 single_round_one_attempt)
    as (s2 & evs2 & Hrun2 & Hlog2 & Hfb2 & Htier2 & Hin2).
  exists s2, evs1, evs2. split.
  - rewrite (bind_done _ _ _ _ _ Hrun1). exact Hrun2.
  - split; [unfold logged in *; rewrite Hlog2, Hlog1, app_assoc; reflexivity|].
    repeat (split; [assumption|]). apply Forall_app. split; apply Hfree; assumption.
Qed.

End NonGroupGreedy.

(** ** The grouped greedy placer *)

Section GroupGreedy.
Context {Grid Rng : Type}.
Variable E : Extern Grid Rng.
Implicit Types s : State Grid Rng.

Lemma place_multi_attempt : one_group_attempt E true (place_multi E).
Proof.
  intros p s. unfold place_multi. rewrite bind_deref.
  destruct (isFixed E (cell_at (world s) p)) eqn:Hf; [auto|].
  destruct (is_placed (cell_at (world s) p)) eqn:Hp; [auto|]. simpl.
  destruct (inGroup (cell_at (world s) p)) eqn:Hg; [|auto].
  destruct (isMulti (cell_macro (cell_at (world s) p))) eqn:Hm; [|auto].
  right. left. repeat split; try assumption. apply call_run.
Qed.

Lemma place_single_attempt : one_group_attempt E false (place_single E).
Proof.
  intros p s. unfold place_single. rewrite bind_deref.
  destruct (isFixed E (cell_at (world s) p)) eqn:Hf; [auto|].
  destruct (is_placed (cell_at (world s) p)) eqn:Hp; [auto|]. simpl.
  destruct (inGroup (cell_at (world s) p)) eqn:Hg; [|auto].
  destruct (isMulti (cell_macro (cell_at (world s) p))) eqn:Hm; [auto|].
  right. left. repeat split; try assumption. apply call_run.
Qed.

Lemma group_attempt_loop (group : Group) (multi : bool)
      (body : CellPtr -> M Grid Rng bool) (l : list CellPtr) s :
  one_group_attempt E multi body ->
  (forall p, p ∈ l -> p ∈ siblings group) ->
  exists evs,
    logged s (final (for_each_break l body s)) evs
    /\ Forall (group_attempt E group multi) evs.
Proof.
  intros Hbody. revert s. induction l as [|p l IH]; intros s Hin; simpl.
  - exists []. unfold logged. rewrite app_nil_r. split; constructor.
  - assert (Hin' : forall q, q ∈ l -> q ∈ siblings group)
      by (intros q Hq; apply Hin; right; exact Hq).
    destruct (Hbody p s) as [Hrun|[(Hf & Hp & Hg & Hm & Hrun)|[_ Hrun]]].
    + rewrite (bind_done _ _ _ _ _ Hrun). apply IH, Hin'.
    + rewrite (bind_done _ _ _ _ _ Hrun).
      assert (He : group_attempt E group multi
                     {| ev_call := MapMove p; ev_pre := world s;
                        ev_ret := call_answer E (MapMove p) s |}).
      { exists p. simpl. repeat split; try assumption. apply Hin. left. }
      destruct (call_answer E (MapMove p) s) eqn:Hans.
      * destruct (IH (after_call E (MapMove p) s) Hin') as (evs & Hlog & Hall).
        eexists (_ :: evs). split; [|constructor; [exact He|exact Hall]].
        unfold logged in *. rewrite Hlog, trace_after_call, <- app_assoc, Hans.
        reflexivity.
      * eexists [_]. split; [|constructor; [exact He|constructor]].
        unfold logged. simpl. rewrite Hans. reflexivity.
    + rewrite (bind_aborted _ _ _ _ _ Hrun). exists [].
      unfold logged. simpl. rewrite app_nil_r. split; constructor.
Qed.

(** The log of the two passes of a group: the multi-row attempts, then the
    single-row ones. *)
Lemma group_greedy_tiers (group : Group) s :
  exists multi_evs single_evs,
    logged s (final (group_greedy E group s)) (multi_evs ++ single_evs)
    /\ Forall (group_attempt E group true) multi_evs
    /\ Forall (group_attempt E group false) single_evs.
Proof.
  unfold group_greedy. rewrite bind_select, bind_sort_cells. cbv beta.
  set (cell_list := std_sort _ _).
  assert (Hin : forall p, p ∈ cell_list -> p ∈ siblings group).
  { intros p Hp. unfold cell_list in Hp. rewrite std_sort_perm in Hp.
    apply list_elem_of_filter in Hp as [_ Hp]. exact Hp. }
  destruct (group_attempt_loop group true _ cell_list s place_multi_attempt Hin)
    as (evs1 & Hlog1 & Hall1).
  destruct (for_each_break cell_list (place_multi E) s) as [multi s1|f s1] eqn:Hmulti.
  - rewrite (bind_done _ _ _ _ _ Hmulti). simpl in Hlog1. destruct multi.
    + destruct (group_attempt_loop group false _ cell_list s1 place_single_attempt Hin)
        as (evs2 & Hlog2 & Hall2).
      exists evs1, evs2. split; [|split; assumption].
      destruct (for_each_break cell_list (place_single E) s1)
        as [single s2|f s2] eqn:Hsingle;
        [rewrite (bind_done _ _ _ _ _ Hsingle)
        |rewrite (bind_aborted _ _ _ _ _ Hsingle)];
        simpl in *; unfold logged in *; rewrite Hlog2, Hlog1, app_assoc; reflexivity.
    + exists evs1, []. rewrite app_nil_r. simpl.
      split; [exact Hlog1|]. split; [exact Hall1|constructor].
  - rewrite (bind_aborted _ _ _ _ _ Hmulti). exists evs1, [].
    rewrite app_nil_r. simpl in *. split; [exact Hlog1|]. split; [exact Hall1|constructor].
Qed.

End GroupGreedy.

Lemma fallback_log_app {Grid} (evs1 evs2 : list (Event Grid)) :
  fallback_log evs1 -> fallback_log evs2 -> fallback_log (evs1 ++ evs2).
Proof.
  intros H1 H2. induction H1; simpl.
  - exact H2.
  - eapply fallback_direct; eassumption.
  - eapply fallback_shift; eassumption.
Qed.

(** X1. [non_group_cell_placement] always runs to its end, and its calls
    are direct placements, each failed one followed at once by [shift_move]
    of the same cell; [shift_move] is called in no other place. *)
Theorem non_group_placer_shifts_after_failed_map_move :
  forall Grid Rng (E : Extern Grid Rng) (s : State Grid Rng),
    (exists s', non_group_cell_placement E s = Done tt s')
    /\ fallback_log (new_calls (non_group_cell_placement E) s).
Proof.
  intros Grid Rng E s.
  destruct (non_group_cell_placement_log E s)
    as (s' & evs1 & evs2 & Hrun & Hlog & Hfb1 & Hfb2 & _).
  split; [exists s'; exact Hrun|].
  rewrite (new_calls_logged _ s (evs1 ++ evs2)) by (rewrite Hrun; exact Hlog).
  apply fallback_log_app; assumption.
Qed.

(** X2. In both greedy placers every attempt on a multi-row cell comes
    before every attempt on a single-row cell: the log of the pass splits in
    two, the [map_move] calls of the first part are on cells whose macro is
    [isMulti] when the call is made, those of the second part on cells whose
    macro is not. *)
Theorem multi_row_attempts_come_first :
  forall Grid Rng (E : Extern Grid Rng) (group : Group) (s : State Grid Rng),
    (exists multi_evs single_evs,
        new_calls (non_group_cell_placement E) s = multi_evs ++ single_evs
        /\ Forall (map_move_tier true) multi_evs
        /\ Forall (map_move_tier false) single_evs)
    /\ (exists multi_evs single_evs,
           new_calls (group_greedy E group) s = multi_evs ++ single_evs
           /\ Forall (map_move_tier true) multi_evs
           /\ Forall (map_move_tier false) single_evs).
Proof.
  intros Grid Rng E group s. split.
  - destruct (non_group_cell_placement_log E s)
      as (s' & evs1 & evs2 & Hrun & Hlog & _ & _ & Ht1 & Ht2 & _).
    exists evs1, evs2.
    rewrite (new_calls_logged _ s (evs1 ++ evs2)) by (rewrite Hrun; exact Hlog).
    repeat split; assumption.
  - destruct (group_greedy_tiers E group s) as (evs1 & evs2 & Hlog & H1 & H2).
    exists evs1, evs2. rewrite (new_calls_logged _ s _ Hlog).
    split; [reflexivity|].
    split; (eapply Forall_impl; [eassumption|]);
      intros e (p & Hcall & _ & _ & _ & _ & Hm) q Hq;
      rewrite Hcall in Hq; injection Hq as <-; exact Hm.
Qed.

(** X3. The greedy placers never pick a cell that is placed or fixed.
    [non_group_cell_placement] calls [map_move] and [shift_move] only on
    cells of [cells_] that were not fixed, not grouped and not placed when
    the pass started; [group_cell_placement] calls [map_move] in its two
    loops only on siblings of the group that are not fixed, not placed and
    in a group when the call is made. *)
Theorem greedy_placers_pick_free_cells_only :
  forall Grid Rng (E : Extern Grid Rng) (group : Group) (s : State Grid Rng),
    Forall (on_free_cell E s) (new_calls (non_group_cell_placement E) s)
    /\ Forall (fun e => exists multi, group_attempt E group multi e)
              (new_calls (group_greedy E group) s).
Proof.
  intros Grid Rng E group s. split.
  - destruct (non_group_cell_placement_log E s)
      as (s' & evs1 & evs2 & Hrun & Hlog & _ & _ & _ & _ & Hfree).
    rewrite (new_calls_logged _ s (evs1 ++ evs2)) by (rewrite Hrun; exact Hlog).
    exact Hfree.
  - destruct (group_greedy_tiers E group s) as (evs1 & evs2 & Hlog & H1 & H2).
    rewrite (new_calls_logged _ s _ Hlog). apply Forall_app. split.
    + eapply Forall_impl; [exact H1|]. intros e He. exists true. exact He.
    + eapply Forall_impl; [exact H2|]. intros e He. exists false. exact He.
Qed.

(** ** The pre-placement snap of group cells *)

Section GroupSnap.
Context {Grid Rng : Type}.
Variable E : Extern Grid Rng.
Implicit Types s : State Grid Rng.

Lemma region_scan_scanned (cell : Cell) (group : Group) :
  scanned (dist_for_rect E cell) (check_inside E cell) (regions group)
          (region_scan E cell group).
Proof.
  unfold region_scan. induction (regions group) as [|x l IH] using rev_ind.
  - simpl. split; [reflexivity|]. split; [reflexivity|]. intros r Hr. inversion Hr.
  - rewrite fold_left_app. simpl.
    destruct (fold_left _ l _) as [[dist in_group] target].
    destruct IH as [Hin Htarget].
    assert (Hex : (if check_inside E cell x then true else in_group)
                  = existsb (check_inside E cell) (l ++ [x])).
    { rewrite existsb_app. simpl. rewrite orb_false_r, Hin.
      destruct (check_inside E cell x); [rewrite orb_true_r|rewrite orb_false_r];
        reflexivity. }
    destruct (Z.ltb_spec (dist_for_rect E cell x) dist) as [Hlt|Hge].
    + split; [exact Hex|]. split; [reflexivity|]. exists (length l).
      split; [apply list_lookup_middle; reflexivity|].
      assert (Hbelow : forall r', r' ∈ l ->
                                  (dist_for_rect E cell x < dist_for_rect E cell r')%Z).
      { intros r' Hr'. destruct target as [r|].
        - destruct Htarget as [-> (i & Hi & _ & Hmin)].
          apply list_elem_of_lookup in Hr' as [j Hj].
          destruct (Hmin j r' Hj). lia.
        - destruct Htarget as [-> Hall]. specialize (Hall r' Hr'). lia. }
      split.
      * destruct target as [r|].
        -- destruct Htarget as [-> (i & _ & Hr & _)]. lia.
        -- destruct Htarget as [-> _]. exact Hlt.
      * intros j r' Hj. destruct (decide (j < length l)) as [Hjl|Hjl].
        -- rewrite lookup_app_l in Hj by exact Hjl.
           assert (r' ∈ l) by (apply list_elem_of_lookup; eauto).
           specialize (Hbelow r' H). lia.
        -- apply lookup_lt_Some in Hj as Hlen. rewrite length_app in Hlen.
           simpl in Hlen. assert (j = length l) by lia. subst j.
           rewrite list_lookup_middle in Hj by reflexivity.
           injection Hj as <-. lia.
    + split; [exact Hex|]. destruct target as [r|].
      * destruct Htarget as [-> (i & Hi & Hr & Hmin)]. split; [reflexivity|].
        exists i. apply lookup_lt_Some in Hi as Hil.
        split; [rewrite lookup_app_l by exact Hil; exact Hi|]. split; [exact Hr|].
        intros j r' Hj. destruct (decide (j < length l)) as [Hjl|Hjl].
        -- rewrite lookup_app_l in Hj by exact Hjl. apply (Hmin j r' Hj).
        -- apply lookup_lt_Some in Hj as Hlen. rewrite length_app in Hlen.
           simpl in Hlen. assert (j = length l) by lia. subst j.
           rewrite list_lookup_middle in Hj by reflexivity.
           injection Hj as <-. lia.
      * destruct Htarget as [-> Hall]. split; [reflexivity|].
        intros r Hr. apply elem_of_app in Hr as [Hr|Hr]; [apply Hall, Hr|].
        apply list_elem_of_singleton in Hr. subst r. exact Hge.
Qed.

Lemma first_nearest_unique (d : adsRect -> Z) (rects : list adsRect)
      (i j : nat) (r r' : adsRect) :
  first_nearest d rects i r -> first_nearest d rects j r' -> r = r'.
Proof.
  intros (Hi & _ & Hmin) (Hj & _ & Hmin').
  destruct (Hmin j r' Hj) as [Hle Hlt]. destruct (Hmin' i r Hi) as [Hle' Hlt'].
  destruct (lt_eq_lt_dec i j) as [[Hij|Hij]|Hij].
  - specialize (Hlt' Hij). lia.
  - subst j. congruence.
  - specialize (Hlt Hij). lia.
Qed.

End GroupSnap.

(** X4. The snap of one sibling in [group_cell_pre_placement].  A cell
    that is fixed or placed, or that [check_inside] finds in one of the
    regions of its group, is left as it is.  Otherwise, when the group has a
    region at a distance below [INT_MAX], the target is the first region at
    the least [dist_for_rect]: one commit is attempted at its nearest
    boundary coordinate and [hold] becomes [true] when it succeeds. *)
Theorem group_snap_targets_first_nearest_region :
  forall Grid Rng (E : Extern Grid Rng) (group : Group) (p : CellPtr)
         (s : State Grid Rng),
    let cell := cell_at (world s) p in
    let run := group_cell_pre_placement_cell E group p s in
    (isFixed E cell || is_placed cell = true -> run = Done tt s)
    /\ (existsb (check_inside E cell) (regions group) = true -> run = Done tt s)
    /\ (isFixed E cell || is_placed cell = false ->
        existsb (check_inside E cell) (regions group) = false ->
        forall i target,
          first_nearest (dist_for_rect E cell) (regions group) i target ->
          let coord := nearest_coord_to_rect_boundary E cell target in
          let attempt := MapMoveAt p (fst coord) (snd coord) in
          run = Done tt (if call_answer E attempt s
                         then after_hold p (after_call E attempt s)
                         else after_call E attempt s)).
Proof.
  intros Grid Rng E group p s cell run. subst run.
  unfold group_cell_pre_placement_cell. rewrite bind_deref. fold cell.
  pose proof (region_scan_scanned E cell group) as Hscan.
  destruct (region_scan E cell group) as [[dist in_group] target].
  destruct Hscan as [Hin Htarget].
  split; [intros ->; reflexivity|].
  split.
  { intros Hex. destruct (isFixed E cell || is_placed cell); [reflexivity|].
    simpl. rewrite Hin, Hex. reflexivity. }
  intros -> Hex i r Hnear. simpl. rewrite Hin, Hex. simpl.
  destruct target as [r0|].
  - destruct Htarget as [_ (i0 & Hnear0)].
    rewrite (first_nearest_unique _ _ _ _ _ _ Hnear0 Hnear).
    unfold map_move_at. rewrite bind_call.
    destruct (call_answer E _ s); reflexivity.
  - destruct Htarget as [_ Hfar]. destruct Hnear as (Hi & Hr & _).
    assert (r ∈ regions group) by (apply list_elem_of_lookup; eauto).
    specialize (Hfar r H). lia.
Qed.

(** ** The bounds of the refiners *)

Lemma below_in_range (i size : nat) (percent : Q) :
  (percent <= 1)%Q -> below i size percent = true -> i < size.
Proof.
  intros Hp Hb. unfold below in Hb. apply negb_true_iff in Hb.
  assert (Hlt : (inject_Z (Z.of_nat i) < inject_Z (Z.of_nat size) * percent)%Q).
  { apply Qnot_le_lt. intros Hle. apply Qle_bool_iff in Hle. congruence. }
  assert (Hle : (inject_Z (Z.of_nat size) * percent <= inject_Z (Z.of_nat size))%Q).
  { rewrite <- (Qmult_1_r (inject_Z (Z.of_nat size))) at 2.
    rewrite !(Qmult_comm (inject_Z (Z.of_nat size))).
    apply Qmult_le_compat_r; [exact Hp|].
    change 0%Q with (inject_Z 0). rewrite <- Zle_Qle. lia. }
  pose proof (Qlt_le_trans _ _ _ Hlt Hle) as H. rewrite <- Zlt_Qlt in H. lia.
Qed.

Lemma below_beyond (i size : nat) (percent : Q) :
  (1 < percent)%Q -> 0 < size -> i <= size -> below i size percent = true.
Proof.
  intros Hp Hsize Hi. unfold below. apply negb_true_iff.
  destruct (Qle_bool _ _) eqn:Hle; [|reflexivity]. exfalso.
  apply Qle_bool_iff in Hle.
  assert (Hlt : (inject_Z (Z.of_nat size) * 1 < inject_Z (Z.of_nat size) * percent)%Q).
  { apply Qmult_lt_l; [|exact Hp].
    change 0%Q with (inject_Z 0). rewrite <- Zlt_Qlt. lia. }
  rewrite Qmult_1_r in Hlt.
  pose proof (Qlt_le_trans _ _ _ Hlt Hle) as H. rewrite <- Zlt_Qlt in H. lia.
Qed.

Section RefineBounds.
Context {Grid Rng : Type}.
Variable E : Extern Grid Rng.
Implicit Types s : State Grid Rng.

Lemma successes_cons (e : Event Grid) (evs : list (Event Grid)) :
  successes (e :: evs) = (if ev_ret e then 1 else 0) + successes evs.
Proof. unfold successes. simpl. destruct (ev_ret e); reflexivity. Qed.

(** With a fraction of at most 1 the loop stays inside the vector. *)
Lemma refine_loop_in_bounds (size : nat) (percent : Q) (rest : list CellPtr)
      (i count : nat) s :
  (percent <= 1)%Q -> i + length rest = size ->
  exists count' s' evs,
    refine_loop E size percent rest i count s = Done count' s'
    /\ logged s s' evs
    /\ count' = count + successes evs
    /\ Forall (unheld_refine rest) evs.
Proof.
  intros Hp. revert i count s.
  induction rest as [|p rest IH]; intros i count s Hsize; simpl.
  - destruct (below i size percent) eqn:Hb.
    + apply (below_in_range _ _ _ Hp) in Hb. simpl in Hsize. lia.
    + exists count, s, []. unfold logged. rewrite app_nil_r.
      repeat split; [unfold successes; simpl; lia|constructor].
  - assert (Hweak : forall evs : list (Event Grid),
               Forall (unheld_refine rest) evs -> Forall (unheld_refine (p :: rest)) evs).
    { intros evs Hall. eapply Forall_impl; [exact Hall|].
      intros e (q & Hq & Hin & Hh). exists q. repeat split; [exact Hq|right; exact Hin|exact Hh]. }
    destruct (below i size percent).
    + rewrite bind_deref. simpl in Hsize.
      destruct (hold (cell_at (world s) p)) eqn:Hh; simpl.
      * destruct (IH (S i) count s ltac:(lia)) as (c' & s' & evs & Hrun & Hlog & Hc & Hall).
        exists c', s', evs. repeat split; auto.
      * unfold refine_move. rewrite bind_call.
        destruct (IH (S i) (if call_answer E (RefineMove p) s then S count else count)
                     (after_call E (RefineMove p) s) ltac:(lia))
          as (c' & s' & evs & Hrun & Hlog & Hc & Hall).
        eexists c', s', (_ :: evs). split; [exact Hrun|]. split; [|split].
        -- unfold logged in *. rewrite Hlog, trace_after_call, <- app_assoc. reflexivity.
        -- rewrite successes_cons. simpl.
           destruct (call_answer E (RefineMove p) s); lia.
        -- constructor; [|apply Hweak, Hall]. exists p. simpl.
           repeat split; [left|exact Hh].
    + exists count, s, []. unfold logged. rewrite app_nil_r.
      repeat split; [unfold successes; simpl; lia|constructor].
Qed.

(** With a fraction above 1 the loop goes through a non-empty vector and
    then indexes one past its end. *)
Lemma refine_loop_overrun (size : nat) (percent : Q) (rest : list CellPtr)
      (i count : nat) s :
  (1 < percent)%Q -> 0 < size -> i + length rest = size ->
  exists s', refine_loop E size percent rest i count s = Aborted BadIndex s'.
Proof.
  intros Hp Hpos. revert i count s.
  induction rest as [|p rest IH]; intros i count s Hsize; simpl in *;
    rewrite (below_beyond i size percent Hp Hpos) by lia.
  - exists s. reflexivity.
  - rewrite bind_deref. destruct (negb (hold (cell_at (world s) p))).
    + unfold refine_move. rewrite bind_call. apply IH. lia.
    + apply IH. lia.
Qed.

End RefineBounds.

(** X5. With fractions of at most 1, [group_refine] and [non_group_refine]
    never index past the end of the sorted vector: they run to their end and
    return the number of [refine_move] calls that succeeded.  Every call is
    on a cell of the vector (a sibling of the group; a cell that was not
    fixed, not held and not grouped when the pass started) that was not held
    when the call was made. *)
Theorem refiners_count_successful_moves :
  forall Grid Rng (E : Extern Grid Rng) (D : Design) (group : Group)
         (s : State Grid Rng),
    (group_refine_percent_ D <= 1)%Q ->
    (non_group_refine_percent_ D <= 1)%Q ->
    (exists s',
        group_refine E D group s
        = Done (successes (new_calls (group_refine E D group) s)) s'
        /\ Forall (unheld_refine (siblings group))
                  (new_calls (group_refine E D group) s))
    /\ (exists s',
           non_group_refine E D s
           = Done (successes (new_calls (non_group_refine E D) s)) s'
           /\ Forall (unheld_refine (loose_cells E s))
                     (new_calls (non_group_refine E D) s)).
Proof.
  intros Grid Rng E D group s Hg Hn. split.
  - set (sorted := std_sort (fun p q => (disp E (cell_at (world s) p)
                                          >? disp E (cell_at (world s) p))%Z)
                            (siblings group)).
    assert (Heq : group_refine E D group s
                  = refine_loop E (length sorted) (group_refine_percent_ D) sorted 0 0 s)
      by reflexivity.
    destruct (refine_loop_in_bounds E (length sorted) _ sorted 0 0 s Hg eq_refl)
      as (count & s' & evs & Hrun & Hlog & Hcount & Hall).
    exists s'.
    rewrite (new_calls_logged (group_refine E D group) s evs)
      by (rewrite Heq, Hrun; exact Hlog).
    split; [rewrite Heq, Hrun, Hcount; reflexivity|].
    eapply Forall_impl; [exact Hall|]. intros e (p & Hp & Hin & Hh).
    exists p. repeat split; [exact Hp| |exact Hh].
    unfold sorted in Hin. rewrite std_sort_perm in Hin. exact Hin.
  - set (sorted := std_sort (fun p q => (disp E (cell_at (world s) p)
                                          >? disp E (cell_at (world s) q))%Z)
                            (loose_cells E s)).
    assert (Heq : non_group_refine E D s
                  = refine_loop E (length sorted) (non_group_refine_percent_ D)
                                sorted 0 0 s)
      by reflexivity.
    destruct (refine_loop_in_bounds E (length sorted) _ sorted 0 0 s Hn eq_refl)
      as (count & s' & evs & Hrun & Hlog & Hcount & Hall).
    exists s'.
    rewrite (new_calls_logged (non_group_refine E D) s evs)
      by (rewrite Heq, Hrun; exact Hlog).
    split; [rewrite Heq, Hrun, Hcount; reflexivity|].
    eapply Forall_impl; [exact Hall|]. intros e (p & Hp & Hin & Hh).
    exists p. repeat split; [exact Hp| |exact Hh].
    unfold sorted in Hin. rewrite std_sort_perm in Hin. exact Hin.
Qed.

Lemma refiners_count_successful_moves_witness :
  (exists s',
      group_refine (Toy.E (3, 4)%Z) Inputs.half (Inputs.pair_group (1 # 2))
                   (Toy.start (Inputs.displaced (Some 0)))
      = Done (successes (new_calls (group_refine (Toy.E (3, 4)%Z) Inputs.half
                                                 (Inputs.pair_group (1 # 2)))
                                   (Toy.start (Inputs.displaced (Some 0))))) s'
      /\ Forall (unheld_refine (siblings (Inputs.pair_group (1 # 2))))
                (new_calls (group_refine (Toy.E (3, 4)%Z) Inputs.half
                                         (Inputs.pair_group (1 # 2)))
                           (Toy.start (Inputs.displaced (Some 0)))))
  /\ (exists s',
         non_group_refine (Toy.E (3, 4)%Z) Inputs.half
                          (Toy.start (Inputs.displaced (Some 0)))
         = Done (successes (new_calls (non_group_refine (Toy.E (3, 4)%Z) Inputs.half)
                                      (Toy.start (Inputs.displaced (Some 0))))) s'
         /\ Forall (unheld_refine (loose_cells (Toy.E (3, 4)%Z)
                                               (Toy.start (Inputs.displaced (Some 0)))))
                   (new_calls (non_group_refine (Toy.E (3, 4)%Z) Inputs.half)
                              (Toy.start (Inputs.displaced (Some 0))))).
Proof.
  apply (refiners_count_successful_moves Toy.Grid Toy.Rng (Toy.E (3, 4)%Z)
           Inputs.half (Inputs.pair_group (1 # 2))
           (Toy.start (Inputs.displaced (Some 0)))).
  - vm_compute. discriminate.
  - vm_compute. discriminate.
Defined.

(** X6. With a fraction above 1 the refiners overrun: on a group with at
    least one sibling [group_refine] goes through the whole vector and then
    reads [sort_by_disp[size]], one past the end; [non_group_refine] does
    the same as soon as it has collected one cell. *)
Theorem refine_fraction_above_one_overruns :
  forall Grid Rng (E : Extern Grid Rng) (D : Design) (group : Group)
         (s : State Grid Rng),
    (1 < group_refine_percent_ D)%Q ->
    (1 < non_group_refine_percent_ D)%Q ->
    siblings group <> [] ->
    loose_cells E s <> [] ->
    (exists s', group_refine E D group s = Aborted BadIndex s')
    /\ (exists s', non_group_refine E D s = Aborted BadIndex s').
Proof.
  intros Grid Rng E D group s Hg Hn Hsib Hloose.
  assert (Hlen : forall (comp : CellPtr -> CellPtr -> bool) (l : list CellPtr),
             l <> [] -> 0 < length (std_sort comp l)).
  { intros comp l Hl. rewrite (Permutation_length (std_sort_perm comp l)).
    destruct l; [congruence|simpl; lia]. }
  split.
  - apply (refine_loop_overrun E _ _ _ 0 0 s Hg); [|reflexivity].
    apply Hlen, Hsib.
  - apply (refine_loop_overrun E _ _ _ 0 0 s Hn); [|reflexivity].
    apply Hlen, Hloose.
Qed.

Lemma refine_fraction_above_one_overruns_witness :
  (exists s', group_refine (Toy.E (3, 4)%Z) Inputs.overfull (Inputs.pair_group (1 # 2))
                           (Toy.start (Inputs.displaced None))
              = Aborted BadIndex s')
  /\ (exists s', non_group_refine (Toy.E (3, 4)%Z) Inputs.overfull
                                  (Toy.start (Inputs.displaced None))
                 = Aborted BadIndex s').
Proof.
  apply (refine_fraction_above_one_overruns Toy.Grid Toy.Rng (Toy.E (3, 4)%Z)
           Inputs.overfull (Inputs.pair_group (1 # 2))
           (Toy.start (Inputs.displaced None))).
  - reflexivity.
  - reflexivity.
  - discriminate.
  - vm_compute. discriminate.
Defined.

(** ** The logs of the annealers *)

Section AnnealLog.
Context {Grid Rng : Type}.
Variable E : Extern Grid Rng.
Implicit Types s : State Grid Rng.

Lemma pick_member (v : list CellPtr) s :
  v <> [] ->
  exists q, pick E v s = Done q (with_rng (snd (rand E (rng s))) s) /\ q ∈ v.
Proof.
  intros Hv. unfold pick, bind, libc_rand, with_rng.
  destruct (rand E (rng s)) as [r g]. simpl.
  assert (Hlt : N.to_nat (r mod N.of_nat (length v)) < length v).
  { assert (Hlen : N.of_nat (length v) <> 0%N) by (destruct v; [congruence|discriminate]).
    pose proof (N.mod_lt r _ Hlen). lia. }
  destruct (lookup_lt_is_Some_2 v _ Hlt) as [q Hq]. rewrite Hq. exists q.
  split; [reflexivity|]. apply list_elem_of_lookup. eauto.
Qed.

(** One trial: at most one call, a swap of two cells of [v] that are not
    held. *)
Lemma anneal_trial_log (v : list CellPtr) s :
  v <> [] ->
  exists ok s' evs,
    anneal_trial E v s = Done ok s'
    /\ logged s s' evs
    /\ length evs <= 1
    /\ successes evs = (if ok then 1 else 0)
    /\ Forall (unheld_swap v) evs.
Proof.
  intros Hv. unfold anneal_trial.
  destruct (pick_member v s Hv) as (a & HA & Ha). rewrite (bind_done _ _ _ _ _ HA).
  destruct (pick_member v (with_rng (snd (rand E (rng s))) s) Hv) as (b & HB & Hb).
  rewrite (bind_done _ _ _ _ _ HB). rewrite !bind_deref.
  match goal with |- context [if ?c then _ else _] => destruct c eqn:Hheld end.
  - apply andb_true_iff in Hheld as [Hha Hhb].
    apply negb_true_iff in Hha, Hhb.
    unfold swap_cell. rewrite call_run. eexists _, _, [_].
    split; [reflexivity|]. split; [reflexivity|]. split; [simpl; lia|].
    split; [unfold successes; simpl; destruct (call_answer _ _ _); reflexivity|].
    constructor; [|constructor]. exists a, b. simpl. repeat split; assumption.
  - eexists _, _, []. split; [reflexivity|]. unfold logged. simpl.
    rewrite app_nil_r. repeat split; [lia|constructor].
Qed.

Lemma anneal_loop_log (v : list CellPtr) (n count : nat) s :
  v <> [] ->
  exists count' s' evs,
    repeat_count n (anneal_trial E v) count s = Done count' s'
    /\ logged s s' evs
    /\ length evs <= n
    /\ count' = count + successes evs
    /\ Forall (unheld_swap v) evs.
Proof.
  intros Hv. revert count s. induction n as [|n IH]; intros count s; simpl.
  - exists count, s, []. unfold logged. rewrite app_nil_r.
    repeat split; [simpl; lia|unfold successes; simpl; lia|constructor].
  - destruct (anneal_trial_log v s Hv) as (ok & s1 & evs1 & Hrun & Hlog1 & Hlen1 & Hs1 & Hall1).
    rewrite (bind_done _ _ _ _ _ Hrun).
    destruct (IH (if ok then S count else count) s1)
      as (count' & s' & evs & Hrest & Hlog & Hlen & Hcount & Hall).
    exists count', s', (evs1 ++ evs). split; [exact Hrest|]. split; [|split; [|split]].
    + unfold logged in *. rewrite Hlog, Hlog1, app_assoc. reflexivity.
    + rewrite length_app. lia.
    + unfold successes in *. rewrite List.filter_app, length_app.
      destruct ok; lia.
    + apply Forall_app. split; assumption.
Qed.

Lemma group_annealing_log (group : Group) s :
  exists s',
    group_annealing E group s
    = Done (successes (new_calls (group_annealing E group) s)) s'
    /\ Forall (unheld_swap (siblings group)) (new_calls (group_annealing E group) s)
    /\ length (new_calls (group_annealing E group) s) <= 1000 * length (siblings group).
Proof.
  assert (Heq : group_annealing E group s
                = repeat_count (1000 * length (siblings group))
                               (anneal_trial E (siblings group)) 0
                               (with_rng (srand E 777) s)) by reflexivity.
  destruct (siblings group) as [|p l] eqn:Hsib.
  - rewrite Nat.mul_0_r in *. simpl in Heq.
    assert (Hnew : new_calls (group_annealing E group) s = []).
    { apply new_calls_logged. rewrite Heq. unfold logged. simpl.
      rewrite app_nil_r. reflexivity. }
    rewrite Hnew, Heq. eexists. split; [reflexivity|]. split; [constructor|simpl; lia].
  - destruct (anneal_loop_log (p :: l) (1000 * length (p :: l)) 0
                              (with_rng (srand E 777) s) ltac:(discriminate))
      as (count & s' & evs & Hrun & Hlog & Hlen & Hcount & Hall).
    rewrite (new_calls_logged (group_annealing E group) s evs)
      by (rewrite Heq, Hrun; exact Hlog).
    exists s'. rewrite Heq, Hrun, Hcount. repeat split; assumption.
Qed.

Lemma non_group_annealing_log s :
  exists s',
    non_group_annealing E s
    = Done (successes (new_calls (non_group_annealing E) s)) s'
    /\ Forall (unheld_swap (seq 0 (length (cells_ (world s)))))
              (new_calls (non_group_annealing E) s)
    /\ length (new_calls (non_group_annealing E) s) <= 100 * length (cells_ (world s)).
Proof.
  set (cells := seq 0 (length (cells_ (world s)))).
  assert (Heq : non_group_annealing E s
                = repeat_count (100 * length cells) (anneal_trial E cells) 0
                               (with_rng (srand E 777) s)) by reflexivity.
  assert (Hlen : length cells = length (cells_ (world s))) by apply length_seq.
  destruct cells as [|p l] eqn:Hcells.
  - simpl in Heq.
    assert (Hnew : new_calls (non_group_annealing E) s = []).
    { apply new_calls_logged. rewrite Heq. unfold logged. simpl.
      rewrite app_nil_r. reflexivity. }
    rewrite Hnew, Heq. eexists. split; [reflexivity|]. split; [constructor|simpl; lia].
  - destruct (anneal_loop_log (p :: l) (100 * length (p :: l)) 0
                              (with_rng (srand E 777) s) ltac:(discriminate))
      as (count & s' & evs & Hrun & Hlog & Hlen' & Hcount & Hall).
    rewrite (new_calls_logged (non_group_annealing E) s evs)
      by (rewrite Heq, Hrun; exact Hlog).
    exists s'. rewrite Heq, Hrun, Hcount, <- Hlen. repeat split; assumption.
Qed.

End AnnealLog.

(** X7. [group_annealing] and [non_group_annealing] always run to their
    end and return the number of [swap_cell] calls that succeeded.  Every
    call they make is a swap of two cells drawn from the population (the
    siblings of the group; all of [cells_]), neither of them held when the
    call is made, and there are at most as many calls as trials: 1000 per
    sibling, 100 per cell. *)
Theorem annealers_count_successful_swaps :
  forall Grid Rng (E : Extern Grid Rng) (group : Group) (s : State Grid Rng),
    (exists s',
        group_annealing E group s
        = Done (successes (new_calls (group_annealing E group) s)) s'
        /\ Forall (unheld_swap (siblings group)) (new_calls (group_annealing E group) s)
        /\ length (new_calls (group_annealing E group) s)
           <= 1000 * length (siblings group))
    /\ (exists s',
           non_group_annealing E s
           = Done (successes (new_calls (non_group_annealing E) s)) s'
           /\ Forall (unheld_swap (seq 0 (length (cells_ (world s)))))
                     (new_calls (non_group_annealing E) s)
           /\ length (new_calls (non_group_annealing E) s)
              <= 100 * length (cells_ (world s))).
Proof.
  intros Grid Rng E group s. split.
  - apply group_annealing_log.
  - apply non_group_annealing_log.
Qed.

(** ** A group without siblings *)

Lemma below_nothing (percent : Q) : below 0 0 percent = false.
Proof. destruct percent. reflexivity. Qed.

(** X8. A group with no sibling goes through the pipeline idle: greedy
    placement calls nothing and rolls nothing back, [group_refine] returns 0
    whatever the fraction is, [group_annealing] reseeds and returns 0
    without a call of [rand] (there is no [rand() % 0]), and so exactly one
    refine/anneal round runs, with counts (0, 0). *)
Theorem empty_group_runs_one_idle_round :
  forall Grid Rng (E : Extern Grid Rng) (D : Design) (group : Group)
         (s : State Grid Rng),
    siblings group = [] ->
    group_cell_placement_group E group s = Done tt s
    /\ group_refine E D group s = Done 0 s
    /\ group_annealing E group s = Done 0 (with_rng (srand E 777) s)
    /\ refine_anneal_rounds E D 3 group s
       = Done [(0, 0)] (with_rng (srand E 777) s).
Proof.
  intros Grid Rng E D group s Hsib.
  assert (Hrefine : forall s0 : State Grid Rng, group_refine E D group s0 = Done 0 s0).
  { intros s0. unfold group_refine. rewrite bind_sort_cells, Hsib.
    change (refine_loop E 0 (group_refine_percent_ D) [] 0 0 s0 = Done 0 s0).
    cbn [refine_loop]. rewrite below_nothing. reflexivity. }
  assert (Hanneal : forall s0 : State Grid Rng,
             group_annealing E group s0 = Done 0 (with_rng (srand E 777) s0)).
  { intros s0. unfold group_annealing. rewrite Hsib. reflexivity. }
  split; [|split; [apply Hrefine|split; [apply Hanneal|]]].
  - unfold group_cell_placement_group, group_greedy.
    rewrite bind_assoc, bind_select, Hsib. reflexivity.
  - cbn [refine_anneal_rounds].
    rewrite (bind_done _ _ _ _ _ (Hrefine s)).
    rewrite (bind_done _ _ _ _ _ (Hanneal s)). reflexivity.
Qed.

Lemma empty_group_runs_one_idle_round_witness :
  group_cell_placement_group (Toy.E (3, 4)%Z) Inputs.empty_group
                             (Toy.start Inputs.held_pair)
  = Done tt (Toy.start Inputs.held_pair)
  /\ group_refine (Toy.E (3, 4)%Z) Inputs.overfull Inputs.empty_group
                  (Toy.start Inputs.held_pair)
     = Done 0 (Toy.start Inputs.held_pair)
  /\ group_annealing (Toy.E (3, 4)%Z) Inputs.empty_group (Toy.start Inputs.held_pair)
     = Done 0 (with_rng (srand (Toy.E (3, 4)%Z) 777) (Toy.start Inputs.held_pair))
  /\ refine_anneal_rounds (Toy.E (3, 4)%Z) Inputs.overfull 3 Inputs.empty_group
                          (Toy.start Inputs.held_pair)
     = Done [(0, 0)]
            (with_rng (srand (Toy.E (3, 4)%Z) 777) (Toy.start Inputs.held_pair)).
Proof.
  apply (empty_group_runs_one_idle_round Toy.Grid Toy.Rng (Toy.E (3, 4)%Z)
           Inputs.overfull Inputs.empty_group (Toy.start Inputs.held_pair)).
  reflexivity.
Defined.

(** ** The targets of the second brick placer *)

(** X9. [brick_placement_2] passes its [x_tar], [y_tar] to the four-argument
    [rectDist] by value and never assigns them: every direct commit it
    attempts is at the coordinates found in the two unassigned locals, not
    at a corner of the region of the cell.  With one sibling that is not
    held the sort compares nothing and the one attempt is at whatever
    [junk] the locals hold. *)
Theorem brick_2_attempts_at_unassigned_coordinates :
  (forall Grid Rng (E : Extern Grid Rng) (group : Group) (s : State Grid Rng),
      Forall (unassigned_attempt E) (new_calls (brick_placement_2 E group) s))
  /\ (forall junk : Z * Z,
         map ev_call (new_calls (brick_placement_2 (Toy.E junk) Inputs.single_group)
                                (Toy.start Inputs.upper_right))
         = [MapMoveAt 0 (fst junk) (snd junk)]).
Proof.
  split.
  - intros Grid Rng E group s.
    destruct (brick_placement_2_unassigned E group (trace s) s
                (log_since_start _ s)) as (evs & Hlog & Hall).
    rewrite (new_calls_logged _ _ _ Hlog). exact Hall.
  - intros junk. unfold new_calls.
    rewrite (brick_placement_2_one (Toy.E junk) Inputs.single_group 0
               (Toy.start Inputs.upper_right) eq_refl eq_refl).
    reflexivity.
Qed.
(** ** Running to the end *)

Section Completion.
Context {Grid Rng : Type}.
Variable E : Extern Grid Rng.
Variable D : Design.
Variable I : State Grid Rng -> Prop.
Variable allowed : Fault -> Prop.
Hypothesis I_call : forall c s, I s -> I (after_call E c s).
Hypothesis I_hold : forall p s, I s -> I (after_hold p s).
Hypothesis I_rng : forall g s, I s -> I (with_rng g s).
Hypothesis brick_sorts : forall rect_of l, ends I allowed (brick_sort E rect_of l).
Implicit Types s : State Grid Rng.

Lemma ends_ret {A} (a : A) : ends I allowed (ret a).
Proof. intros s Hs. exact Hs. Qed.

Lemma ends_bind {A B} (m : M Grid Rng A) (k : A -> M Grid Rng B) :
  ends I allowed m -> (forall a, ends I allowed (k a)) -> ends I allowed (bind m k).
Proof.
  intros Hm Hk s Hs. specialize (Hm s Hs). unfold bind.
  destruct (m s) as [a s1|f s1]; [apply Hk, Hm|exact Hm].
Qed.

Lemma ends_reads {A} (m : M Grid Rng A) : reads m -> ends I allowed m.
Proof. intros Hr s Hs. destruct (Hr s) as [a ->]. exact Hs. Qed.

Lemma ends_deref (p : CellPtr) : ends I allowed (deref p).
Proof. apply ends_reads. intros s. eexists. reflexivity. Qed.

Lemma ends_call (c : Call) : ends I allowed (call E c).
Proof. intros s Hs. rewrite call_run. apply I_call, Hs. Qed.

Lemma ends_hold_true (p : CellPtr) : ends I allowed (hold_true p).
Proof. intros s Hs. apply I_hold, Hs. Qed.

Lemma ends_for_each {A} (l : list A) (body : A -> M Grid Rng unit) :
  (forall a, a ∈ l -> ends I allowed (body a)) -> ends I allowed (for_each l body).
Proof.
  induction l as [|a l IH]; intros Hbody; simpl.
  - apply ends_ret.
  - apply ends_bind; [apply Hbody; left|]. intros _.
    apply IH. intros b Hb. apply Hbody. right. exact Hb.
Qed.

Lemma ends_for_each_break {A} (l : list A) (body : A -> M Grid Rng bool) :
  (forall a, a ∈ l -> ends I allowed (body a)) ->
  ends I allowed (for_each_break l body).
Proof.
  induction l as [|a l IH]; intros Hbody; simpl.
  - apply ends_ret.
  - apply ends_bind; [apply Hbody; left|].
    intros [|]; [|apply ends_ret].
    apply IH. intros b Hb. apply Hbody. right. exact Hb.
Qed.

Lemma ends_repeat_count (n : nat) (body : M Grid Rng bool) (count : nat) :
  ends I allowed body -> ends I allowed (repeat_count n body count).
Proof.
  intros Hbody. revert count. induction n as [|n IH]; intros count; simpl.
  - apply ends_ret.
  - apply ends_bind; [exact Hbody|]. intros ok. apply IH.
Qed.

Ltac run_on :=
  unfold map_move, map_move_at, shift_move, erase_pixel, swap_cell, refine_move,
    group_cell_region_assign, non_group_cell_region_assign;
  repeat first
    [ apply ends_ret
    | apply ends_call
    | apply ends_deref
    | apply ends_hold_true
    | apply ends_reads; solve [intros ?; eexists; reflexivity]
    | apply ends_bind; [|intros ?]
    | apply ends_for_each; intros ? _
    | match goal with
      | |- ends _ _ (if ?c then _ else _) => destruct c
      end ].

(** *** The passes that cannot stop short *)

Lemma ends_non_group_cell_pre_placement :
  ends I allowed (non_group_cell_pre_placement E D).
Proof.
  unfold non_group_cell_pre_placement.
  apply ends_bind; [run_on|]. intros cells.
  apply ends_for_each. intros p _ s Hs.
  rewrite snap_cell_last_overlap. unfold snap_to_last_overlap.
  destruct (inGroup _ || is_placed _); [exact Hs|].
  destruct (last _); [|exact Hs].
  destruct (call_answer E _ s); auto.
Qed.

Lemma ends_non_group_cell_placement : ends I allowed (non_group_cell_placement E).
Proof. unfold non_group_cell_placement. run_on. Qed.

Lemma ends_erase_group (group : Group) : ends I allowed (erase_group E group).
Proof. unfold erase_group. run_on. Qed.

(** *** The brick placers: only their sort can stop them *)

Lemma ends_brick_placement_1 (group : Group) :
  ends I allowed (brick_placement_1 E group).
Proof.
  unfold brick_placement_1.
  apply ends_bind; [apply (brick_sorts (fun _ => boundary group))|].
  intros sorted. unfold brick_placement_1_loop. run_on.
Qed.

Lemma ends_brick_placement_2 (group : Group) :
  ends I allowed (brick_placement_2 E group).
Proof.
  unfold brick_placement_2.
  apply ends_bind; [apply (brick_sorts region)|].
  intros sorted. unfold brick_placement_2_loop. run_on.
Qed.

(** *** Refinement and annealing *)

Lemma ends_pick (v : list CellPtr) : v <> [] -> ends I allowed (pick E v).
Proof.
  intros Hv s Hs. destruct (pick_member E v s Hv) as (q & -> & _).
  apply I_rng, Hs.
Qed.

Lemma ends_annealing (v : list CellPtr) (n : nat) :
  (0 < n -> v <> []) ->
  ends I allowed
       (bind (libc_srand E 777) (fun _ => repeat_count n (anneal_trial E v) 0)).
Proof.
  intros Hv s Hs.
  change (bind (libc_srand E 777) ?k s) with (k tt (with_rng (srand E 777) s)).
  cbv beta. destruct n as [|n].
  - apply I_rng, Hs.
  - apply ends_repeat_count; [|apply I_rng, Hs].
    unfold anneal_trial.
    apply ends_bind; [apply ends_pick, Hv; lia|]. intros a.
    apply ends_bind; [apply ends_pick, Hv; lia|]. intros b.
    run_on.
Qed.

Lemma ends_group_annealing (group : Group) :
  ends I allowed (group_annealing E group).
Proof.
  apply ends_annealing. intros Hn.
  destruct (siblings group); [simpl in Hn; lia|discriminate].
Qed.

Lemma ends_refine_loop (size : nat) (percent : Q) (rest : list CellPtr)
      (i count : nat) :
  (percent <= 1)%Q -> i + length rest = size ->
  ends I allowed (refine_loop E size percent rest i count).
Proof.
  intros Hp. revert i count.
  induction rest as [|p rest IH]; intros i count Hsize; simpl.
  - destruct (below i size percent) eqn:Hb; [|apply ends_ret].
    apply (below_in_range _ _ _ Hp) in Hb. simpl in Hsize. lia.
  - simpl in Hsize. destruct (below i size percent); [|apply ends_ret].
    apply ends_bind; [apply ends_deref|]. intros cell.
    destruct (negb (hold cell)); [|apply IH; lia].
    apply ends_bind; [run_on|]. intros ok. apply IH. lia.
Qed.

Lemma ends_group_refine (group : Group) :
  (group_refine_percent_ D <= 1)%Q -> ends I allowed (group_refine E D group).
Proof.
  intros Hp s Hs. unfold group_refine. rewrite bind_sort_cells.
  apply ends_refine_loop; [exact Hp|reflexivity|exact Hs].
Qed.

Lemma ends_rounds (rounds : nat) (group : Group) :
  (group_refine_percent_ D <= 1)%Q ->
  ends I allowed (refine_anneal_rounds E D rounds group).
Proof.
  intros Hp. induction rounds as [|rounds IH]; simpl; [apply ends_ret|].
  apply ends_bind; [apply ends_group_refine, Hp|]. intros count_a.
  apply ends_bind; [apply ends_group_annealing|]. intros count_b.
  destruct ((count_a <? 10) || (count_b <? 100)); [apply ends_ret|].
  apply ends_bind; [exact IH|]. intros later. apply ends_ret.
Qed.

Lemma ends_all_groups_rounds (groups : list Group) :
  (group_refine_percent_ D <= 1)%Q ->
  ends I allowed (all_groups_rounds E D groups).
Proof.
  intros Hp. induction groups as [|group groups IH]; cbn [all_groups_rounds];
    [apply ends_ret|].
  apply ends_bind; [apply ends_rounds, Hp|]. intros counts.
  apply ends_bind; [exact IH|]. intros later. apply ends_ret.
Qed.

End Completion.

Section GroupedCompletion.
Context {Grid Rng : Type}.
Variable E : Extern Grid Rng.
Variable D : Design.
Variable allowed : Fault -> Prop.
Hypothesis service_keeps_groups : keeps_groups E.
Hypothesis brick_sorts :
  forall rect_of l, ends (grouped (all_siblings D)) allowed (brick_sort E rect_of l).
Implicit Types s : State Grid Rng.

Lemma grouped_after_call (l : list CellPtr) (c : Call) s :
  grouped l s -> grouped l (after_call E c s).
Proof. intros Hs p Hp. simpl. rewrite service_keeps_groups. apply Hs, Hp. Qed.

Lemma grouped_after_hold (l : list CellPtr) (q : CellPtr) s :
  grouped l s -> grouped l (after_hold q s).
Proof.
  intros Hs p Hp. specialize (Hs p Hp). unfold cell_at in *. simpl.
  rewrite list_lookup_alter. destruct (decide (q = p)) as [->|]; [|exact Hs].
  destruct (cells_ (world s) !! p); exact Hs.
Qed.

Lemma grouped_with_rng (l : list CellPtr) (g : Rng) s :
  grouped l s -> grouped l (with_rng g s).
Proof. intros Hs. exact Hs. Qed.

Lemma sibling_of_some_group (group : Group) (p : CellPtr) :
  group ∈ groups_ D -> p ∈ siblings group -> p ∈ all_siblings D.
Proof.
  intros Hg Hp. unfold all_siblings. apply list_elem_of_In, in_concat.
  exists (siblings group). split; [|apply list_elem_of_In, Hp].
  apply in_map, list_elem_of_In, Hg.
Qed.

Lemma ends_group_cell_pre_placement :
  ends (grouped (all_siblings D)) allowed (group_cell_pre_placement E D).
Proof.
  unfold group_cell_pre_placement.
  apply ends_for_each. intros group Hgroup.
  apply ends_for_each. intros p _ s Hs.
  unfold group_cell_pre_placement_cell. rewrite bind_deref.
  destruct (negb _); [|exact Hs].
  destruct (region_scan E (cell_at (world s) p) group) as [[dist in_group] target].
  destruct in_group; [exact Hs|]. simpl.
  unfold map_move_at. rewrite bind_call.
  destruct (call_answer E _ s).
  - exact (grouped_after_hold _ _ _ (grouped_after_call _ _ _ Hs)).
  - exact (grouped_after_call _ _ _ Hs).
Qed.

(** A sibling that is in a group passes the assertion. *)
Lemma ends_group_greedy (group : Group) :
  group ∈ groups_ D ->
  ends (grouped (all_siblings D)) allowed (group_greedy E group).
Proof.
  intros Hgroup s Hs. unfold group_greedy.
  rewrite bind_select, bind_sort_cells. cbv beta.
  set (cell_list := std_sort _ _).
  assert (Hin : forall p, p ∈ cell_list -> p ∈ all_siblings D).
  { intros p Hp. unfold cell_list in Hp. rewrite std_sort_perm in Hp.
    apply list_elem_of_filter in Hp as [_ Hp].
    eapply sibling_of_some_group; eassumption. }
  assert (Hmulti : forall p, p ∈ cell_list ->
                             ends (grouped (all_siblings D)) allowed (place_multi E p)).
  { intros p Hp s0 Hs0. unfold place_multi. rewrite bind_deref.
    rewrite (Hs0 p (Hin p Hp)).
    destruct (negb _ && negb _); [|exact Hs0].
    destruct (isMulti _); [|exact Hs0].
    unfold map_move. rewrite call_run. apply grouped_after_call, Hs0. }
  assert (Hsingle : forall p, p ∈ cell_list ->
                              ends (grouped (all_siblings D)) allowed (place_single E p)).
  { intros p Hp s0 Hs0. unfold place_single. rewrite bind_deref.
    rewrite (Hs0 p (Hin p Hp)).
    destruct (negb _ && negb _); [|exact Hs0].
    destruct (negb (isMulti _)); [|exact Hs0].
    unfold map_move. rewrite call_run. apply grouped_after_call, Hs0. }
  refine (ends_bind _ _ _ _ _ _ s Hs).
  - apply ends_for_each_break, Hmulti.
  - intros [|]; [|apply ends_ret].
    apply ends_bind; [apply ends_for_each_break, Hsingle|].
    intros single_pass. apply ends_ret.
Qed.

Lemma ends_group_cell_placement :
  ends (grouped (all_siblings D)) allowed (group_cell_placement E D).
Proof.
  unfold group_cell_placement. apply ends_for_each. intros group Hgroup.
  unfold group_cell_placement_group.
  apply ends_bind; [apply ends_group_greedy, Hgroup|].
  intros [single_pass multi_pass].
  destruct (negb single_pass || negb multi_pass); [|apply ends_ret].
  apply ends_bind;
    [apply ends_erase_group; intros; apply grouped_after_call; assumption|].
  intros _. destruct (util_above_095 group).
  - apply ends_brick_placement_1;
      [intros; apply grouped_after_call; assumption|exact brick_sorts].
  - apply ends_brick_placement_2;
      [intros; apply grouped_after_call; assumption|exact brick_sorts].
Qed.

Lemma ends_simplePlacement (verbose : bool) :
  (group_refine_percent_ D <= 1)%Q ->
  ends (grouped (all_siblings D)) allowed (simplePlacement E D verbose).
Proof.
  intros Hp.
  pose proof (fun c s => grouped_after_call (all_siblings D) c s) as Hcall.
  pose proof (fun p s => grouped_after_hold (all_siblings D) p s) as Hhold.
  pose proof (fun g s => grouped_with_rng (all_siblings D) g s) as Hrng.
  unfold simplePlacement, group_cell_region_assign, non_group_cell_region_assign.
  apply ends_bind.
  { destruct (0 <? length (groups_ D)); [|apply ends_ret].
    apply ends_bind; [apply ends_call, Hcall|]. intros _. apply ends_ret. }
  intros _. apply ends_bind; [apply ends_call, Hcall|]. intros _.
  apply ends_bind.
  { destruct (0 <? length (groups_ D)); [|apply ends_ret].
    apply ends_bind; [apply ends_group_cell_pre_placement|].
    intros _. apply ends_non_group_cell_pre_placement; assumption. }
  intros _. apply ends_bind.
  { destruct (0 <? length (groups_ D)); [|apply ends_ret].
    apply ends_bind; [apply ends_group_cell_placement|]. intros _.
    apply ends_all_groups_rounds; assumption. }
  intros counts.
  apply ends_bind; [apply ends_non_group_cell_placement, Hcall|].
  intros _. apply ends_ret.
Qed.

End GroupedCompletion.

(** The sort of a brick placer leaves the state as it is; it can stop in
    front of its vector, and does not when the frames are steady. *)
Lemma brick_sort_ends {Grid Rng} (E : Extern Grid Rng) (I : State Grid Rng -> Prop)
      (rect_of : Cell -> adsRect) (l : list CellPtr) :
  ends I (fun f => f = SortOverrun) (brick_sort E rect_of l).
Proof.
  intros s Hs. unfold brick_sort.
  match goal with |- context [sort_cells_numbered ?c l] =>
    destruct (sort_cells_numbered_run (Grid:=Grid) (Rng:=Rng) c l s)
      as [(sorted & -> & _)| ->] end; [exact Hs|reflexivity].
Qed.

Lemma brick_sort_steady {Grid Rng} (E : Extern Grid Rng) (I : State Grid Rng -> Prop)
      (rect_of : Cell -> adsRect) (l : list CellPtr) :
  steady_frames E -> ends I (fun _ => False) (brick_sort E rect_of l).
Proof.
  intros Hsteady s Hs. unfold brick_sort, sort_cells_numbered.
  rewrite (std_sort_numbered_steady _
             (fun p q => (rectDist E 0 (cell_at (world s) p)
                                   (rect_of (cell_at (world s) p))
                          <? rectDist E 0 (cell_at (world s) q)
                                      (rect_of (cell_at (world s) q)))%Z)).
  - exact Hs.
  - intros n p q. unfold rectDist.
    rewrite (Hsteady (2 * n) 0), (Hsteady (2 * n + 1) 0). reflexivity.
Qed.

(** X10. Where [simplePlacement] can stop short.  When the siblings of the
    groups are in a group and the grid service leaves group membership
    alone, every group has a region at a distance below [INT_MAX] of any
    cell (so that the rectangle pointer of the snap is assigned before it is
    used), and [group_refine_percent_] is at most 1, the run stops neither
    on the assertion nor on an index past the end of a vector: it runs to
    its end, or it stops in the sort of a brick placer, whose comparator
    reads never-assigned values and can take the sort in front of its
    vector.  When every call of [rectDist] finds the same values in its
    never-assigned locals, the run does reach its end. *)
Theorem simplePlacement_stops_in_brick_sort_only :
  forall Grid Rng (E : Extern Grid Rng) (D : Design) (verbose : bool)
         (s : State Grid Rng),
    keeps_groups E ->
    regions_in_reach E D ->
    (group_refine_percent_ D <= 1)%Q ->
    grouped (all_siblings D) s ->
    match simplePlacement E D verbose s with
    | Done _ s' => grouped (all_siblings D) s'
    | Aborted f _ => f = SortOverrun
    end
    /\ (steady_frames E ->
        exists counts s',
          simplePlacement E D verbose s = Done counts s'
          /\ grouped (all_siblings D) s').
Proof.
  intros Grid Rng E D verbose s Hkeeps Hreach Hp Hs. split.
  - apply (ends_simplePlacement E D (fun f => f = SortOverrun) Hkeeps
             (brick_sort_ends E _) verbose Hp s Hs).
  - intros Hsteady.
    pose proof (ends_simplePlacement E D (fun _ => False) Hkeeps
                  (fun rect_of l => brick_sort_steady E _ rect_of l Hsteady)
                  verbose Hp s Hs) as Hrun.
    destruct (simplePlacement E D verbose s) as [counts s'|f s']; [|contradiction].
    exists counts, s'. auto.
Qed.

Lemma toy_inGroup_alter (f : Cell -> Cell) (q p : CellPtr) (cells : list Cell) :
  (forall c, inGroup (f c) = inGroup c) ->
  inGroup (cell_at (Toy.with_cells (alter f q cells)) p)
  = inGroup (cell_at (Toy.with_cells cells) p).
Proof.
  intros Hf. unfold cell_at, Toy.with_cells, cells_.
  rewrite list_lookup_alter. destruct (decide (q = p)) as [->|]; [|reflexivity].
  destruct (cells !! p); simpl; [apply Hf|reflexivity].
Qed.

Lemma toy_commit_keeps_groups (w : World Toy.Grid) (q p : CellPtr) (x y : Z) :
  inGroup (cell_at (snd (Toy.commit w q x y)) p) = inGroup (cell_at w p).
Proof.
  unfold Toy.commit.
  destruct ((q <? length (cells_ w)) && negb (Toy.taken (cells_ w) q x y));
    [|reflexivity].
  simpl. rewrite toy_inGroup_alter; reflexivity.
Qed.

Lemma toy_near_keeps_groups (junk : Z * Z) : keeps_groups (Toy.near junk).
Proof.
  intros c w p. cbn [exec Toy.near]. destruct c; cbn [Toy.run_call];
    try apply toy_commit_keeps_groups; try reflexivity.
  - simpl. rewrite toy_inGroup_alter; reflexivity.
  - match goal with |- context [if ?c then _ else _] => destruct c end;
      [|reflexivity].
    simpl. rewrite !toy_inGroup_alter; reflexivity.
  - destruct (is_placed (cell_at w cell) && (0 <? Toy.displacement (cell_at w cell))%Z);
      [apply toy_commit_keeps_groups|reflexivity].
Qed.

(** The pipeline on the busy chip: a sibling is snapped to the region and
    held, the greedy pass of the group fails on the taken site, the group is
    rolled back and placed by [brick_placement_1], refined and annealed, and
    the free cells are snapped and placed. *)
Lemma simplePlacement_stops_in_brick_sort_only_witness :
  match simplePlacement (Toy.near (3, 4)%Z) Inputs.dense true
                        (Toy.start Inputs.busy) with
  | Done _ s' => grouped (all_siblings Inputs.dense) s'
  | Aborted f _ => f = SortOverrun
  end
  /\ (steady_frames (Toy.near (3, 4)%Z) ->
      exists counts s',
        simplePlacement (Toy.near (3, 4)%Z) Inputs.dense true (Toy.start Inputs.busy)
        = Done counts s'
        /\ grouped (all_siblings Inputs.dense) s').
Proof.
  apply (simplePlacement_stops_in_brick_sort_only Toy.Grid Toy.Rng (Toy.near (3, 4)%Z)
           Inputs.dense true (Toy.start Inputs.busy)).
  - apply toy_near_keeps_groups.
  - intros group Hgroup. exists Inputs.square. split.
    + apply list_elem_of_singleton in Hgroup. subst group. left.
    + intros cell. cbn [dist_for_rect Toy.near]. unfold INT_MAX. lia.
  - vm_compute. discriminate.
  - intros p Hp. simpl in Hp.
    repeat (apply elem_of_cons in Hp as [->|Hp]; [reflexivity|]).
    inversion Hp.
Defined.

(** ** The sort of the brick placers *)

(** X14. The comparator of the brick placers is no order: it compares
    distances to whatever the never-assigned locals of [rectDist] hold, call
    by call.  When the frames do not agree the sort can read in front of its
    vector: on two siblings with targets (2, 2) and (7, 7), the second does
    not compare before the first when both calls find (0, 0), and does when
    its call finds (7, 7); both brick placers then leave their vector in the
    sort.  When the frames agree the sort comes back and both siblings
    get their attempt. *)
Theorem brick_sort_can_read_in_front_of_its_vector :
  (exists s',
      brick_placement_1 (Toy.unsteady (3, 4)%Z Inputs.wobble)
                        (Inputs.pair_group (96 # 100)) (Toy.start Inputs.held_pair)
      = Aborted SortOverrun s')
  /\ (exists s',
         brick_placement_2 (Toy.unsteady (3, 4)%Z Inputs.wobble)
                           (Inputs.pair_group (96 # 100)) (Toy.start Inputs.held_pair)
         = Aborted SortOverrun s')
  /\ Toy.calls (final (brick_placement_1 (Toy.unsteady (3, 4)%Z (fun _ => (0, 0)%Z))
                                         (Inputs.pair_group (96 # 100))
                                         (Toy.start Inputs.held_pair)))
     = [(MapMoveAt 0 3 4, true); (MapMoveAt 1 3 4, false)]
  /\ (forall Grid Rng (E : Extern Grid Rng) (group : Group) (s : State Grid Rng),
         steady_frames E ->
         (exists s', brick_placement_1 E group s = Done tt s')
         /\ (exists s', brick_placement_2 E group s = Done tt s')).
Proof.
  split; [eexists; vm_compute; reflexivity|].
  split; [eexists; vm_compute; reflexivity|].
  split; [vm_compute; reflexivity|].
  intros Grid Rng E group s Hsteady. split.
  - unfold brick_placement_1.
    pose proof (brick_sort_steady E (fun _ => True) (fun _ => boundary group)
                  (siblings group) Hsteady s Logic.I) as Hsort.
    unfold brick_sort in Hsort.
    match goal with |- context [bind ?m _ s] =>
      destruct (m s) as [sorted s1|f s1] eqn:Hm; [|contradiction] end.
    unfold bind. rewrite Hm.
    destruct (brick_placement_1_loop_run E (boundary group) sorted s1)
      as (s' & evs & Hrun & _). exists s'. exact Hrun.
  - unfold brick_placement_2.
    pose proof (brick_sort_steady E (fun _ => True) region
                  (siblings group) Hsteady s Logic.I) as Hsort.
    unfold brick_sort in Hsort.
    match goal with |- context [bind ?m _ s] =>
      destruct (m s) as [sorted s1|f s1] eqn:Hm; [|contradiction] end.
    unfold bind. rewrite Hm.
    destruct (brick_placement_2_loop_unheld E sorted (trace s1) sorted s1)
      as (s' & Hrun & _); [auto|apply log_since_start|].
    exists s'. exact Hrun.
Qed.

(** ** A design without groups *)




(** ** A group whose pass goes through *)

(** X12. A group whose two passes go through is not rolled back:
    [group_cell_placement] makes no [erase_pixel] and no brick call for it,
    the calls for the group are the [map_move] calls of the pass, all
    successful, and the state is the one the pass left. *)
Theorem passed_group_is_not_rolled_back :
  forall Grid Rng (E : Extern Grid Rng) (group : Group) (s s1 : State Grid Rng),
    group_greedy E group s = Done (true, true) s1 ->
    group_cell_placement_group E group s = Done tt s1
    /\ Forall (fun e => is_map_move e /\ succeeded e)
              (new_calls (group_cell_placement_group E group) s).
Proof.
  intros Grid Rng E group s s1 Hpass.
  assert (Heq : group_cell_placement_group E group s = Done tt s1).
  { unfold group_cell_placement_group. rewrite (bind_done _ _ _ _ _ Hpass).
    reflexivity. }
  split; [exact Heq|].
  destruct (group_greedy_log E group s) as (evs & Hlog & Hall & Hout).
  specialize (Hout true true). rewrite Hpass in *. simpl in *.
  rewrite (new_calls_logged (group_cell_placement_group E group) s evs)
    by (rewrite Heq; exact Hlog).
  specialize (Hout eq_refl). apply Forall_forall. intros e He.
  rewrite Forall_forall in Hall, Hout. split; auto.
Qed.

Lemma passed_group_is_not_rolled_back_witness :
  group_cell_placement_group (Toy.E (3, 4)%Z) (Inputs.trio_group (96 # 100))
                             (Toy.start (Inputs.law_cells (Some 0)))
  = Done tt (final (group_greedy (Toy.E (3, 4)%Z) (Inputs.trio_group (96 # 100))
                                 (Toy.start (Inputs.law_cells (Some 0)))))
  /\ Forall (fun e => is_map_move e /\ succeeded e)
            (new_calls (group_cell_placement_group (Toy.E (3, 4)%Z)
                                                   (Inputs.trio_group (96 # 100)))
                       (Toy.start (Inputs.law_cells (Some 0)))).
Proof.
  apply (passed_group_is_not_rolled_back Toy.Grid Toy.Rng (Toy.E (3, 4)%Z)
           (Inputs.trio_group (96 # 100)) (Toy.start (Inputs.law_cells (Some 0)))).
  vm_compute. reflexivity.
Defined.
